(** * Conference sign-up and timesheet scripts: a shallow embedding

  The repository holds two Google Apps Script programs (both in
  [event-session-signup/src/Code.js]): the conference script, which keeps a
  calendar and a registration form in step with a sheet of sessions, and the
  timesheet script, which computes weekly pay and mails approval notices.

  The scripts are glue over the host platform (spreadsheet, calendar, form,
  properties, mail and UI services).  The platform is modelled here as an
  explicit in-memory world; each script function is transcribed statement
  by statement as a function on that world. *)

From Stdlib Require Import ZArith Ascii String.
From stdpp Require Import base strings list gmap fin_maps pretty infinite sorting.

Open Scope string_scope.

(** ** The conference script *)
Module Conference.

(** *** Dates

    A [Date] object holds a time value, or none ([Invalid Date]).  What its
    methods return depends on the host: the time zone of the script with its
    daylight-saving rules, and the host's reading of a text as a date.  The
    model is parametric in the time values [Date] and in these methods, so
    what is proved holds in every time zone.  [None] stands for
    [Invalid Date]. *)
Class TimeValues := Date : Type.

Class JsDates {time_values : TimeValues} := {
  Date_eq_dec :: EqDecision Date;
  Date_parse : string → option Date;    (* [new Date(text)] *)
  Date_of_number : Z → option Date;     (* [new Date(number)] *)
  getFullYear : Date → Z;               (* the fields of the local time *)
  getMonth : Date → Z;                  (* from 0 *)
  getDate : Date → Z;
  getHours : Date → Z;
  getMinutes : Date → Z;
  getSeconds : Date → Z;
  setHours : Date → Z → option Date;    (* the local time asked for may not
                                           exist; the host moves it *)
  setMinutes : Date → Z → option Date
}.

Section Script.
Context {time_values : TimeValues} {dates : JsDates}.

(** *** JavaScript values held by cells and local variables *)

(** [getValues] yields strings (the empty string for an empty cell),
    numbers, booleans and dates; reading an array past its end yields
    [undefined].  The date of a cell holds a time value. *)
Inductive JsVal :=
| JUndefined
| JStr (s : string)
| JNum (n : Z)
| JBool (b : bool)
| JDate (d : Date).

#[global] Instance JsVal_eq_dec : EqDecision JsVal.
Proof. solve_decision. Defined.

Definition pad2 (z : Z) : string :=
  if (z <? 10)%Z then "0" ++ pretty z else pretty z.

(** [d.toLocaleDateString('en-GB')]: dd/mm/yyyy. *)
Definition toLocaleDateString (d : Date) : string :=
  pad2 (getDate d) ++ "/" ++ pad2 (getMonth d + 1) ++ "/" ++ pretty (getFullYear d).

(** [d.toLocaleTimeString('en-GB')]: hh:mm:ss. *)
Definition toLocaleTimeString (d : Date) : string :=
  pad2 (getHours d) ++ ":" ++ pad2 (getMinutes d) ++ ":" ++ pad2 (getSeconds d).

(** [a[k]] *)
Definition js_index (a : list JsVal) (k : nat) : JsVal :=
  default JUndefined (a !! k).

(** [a[k] = v]: in range the slot is overwritten; past the end JavaScript
    extends the array, the skipped slots reading as [undefined]. *)
Definition js_array_set (a : list JsVal) (k : nat) (v : JsVal) : list JsVal :=
  if decide (k < length a) then <[k := v]> a
  else (a ++ replicate (k - length a) JUndefined ++ [v])%list.

(** [new Date(value)]: a copy of a date; a text as the host reads it; a
    number, or a boolean as the number it converts to, as a time value;
    [undefined] gives [Invalid Date].  It never throws. *)
Definition Date_new (v : JsVal) : option Date :=
  match v with
  | JDate d => Some d
  | JStr s => Date_parse s
  | JNum n => Date_of_number n
  | JBool b => Date_of_number (if b then 1 else 0)%Z
  | JUndefined => None
  end.

(** [date.setHours(h)] and [date.setMinutes(m)] on a [Date] object:
    [Invalid Date] stays so. *)
Definition Date_setHours (date : option Date) (h : Z) : option Date :=
  date ≫= λ d, setHours d h.

Definition Date_setMinutes (date : option Date) (m : Z) : option Date :=
  date ≫= λ d, setMinutes d m.

(** *** The host platform *)

Inductive Exn :=
| TransientUnavailable  (* the calendar service is temporarily unavailable *)
| TypeError             (* a method is called on a value that lacks it *)
| RangeError            (* [toISOString] of a date that holds no time *)
| HostException.        (* the host rejects a call's arguments *)

(** [d.toISOString()] serialises the time value of [d], and throws a
    [RangeError] when [d] holds none; the model keeps the time value
    itself. *)
Definition toISOString (d : option Date) : Exn + Date :=
  match d with
  | Some d => inr d
  | None => inl RangeError
  end.

(** The body of [Calendar.Events.insert].  The constant parts of
    the request (a Meet link is asked for, updates are sent to all) and the
    random [requestId] carry no data of the row and are left out. *)
Record Payload := mkPayload {
  summary : JsVal;
  start_dateTime : Date;
  end_dateTime : Date;
  payload_location : JsVal
}.

Record Event := mkEvent {
  ev_title : JsVal;
  ev_start : Date;
  ev_end : Date;
  ev_location : JsVal;
  ev_guestsCanSeeGuests : bool
}.

(** Calls made to the calendar service, in the order they are answered.
    [row] is the sheet row on whose behalf the script makes the call; it
    labels the trace and has no influence on the service.  The service also
    offers deletions, which no function of the script uses. *)
Inductive Call :=
| CreateCalendar (name calId : string)
| DeleteCalendar (calId : string)
| GetEventById (row : nat) (arg : JsVal) (found : option string)
| EventsInsert (row : nat) (payload : Payload) (calId eventId : string)
| SetTitle (row : nat) (eventId : string) (title : JsVal)
| SetTime (row : nat) (eventId : string) (start finish : Date)
| SetLocation (row : nat) (eventId : string) (location : JsVal)
| SetGuestsCanSeeGuests (row : nat) (eventId : string) (b : bool)
| DeleteEvent (calId eventId : string).

Inductive UiEvent :=
| Alert (msg : string)
| ModalDialog (html title : string).

Record World := mkWorld {
  props : gmap string string;                  (* script properties *)
  calendars : gmap string (gmap string Event); (* calendar id -> event id -> event *)
  forms : gset string;                         (* ids of the existing forms *)
  sheet : list (list JsVal);                   (* data range of 'Conference Setup' *)
  ui : list UiEvent;                           (* what the user has been shown *)
  calls : list Call;                           (* calendar-service trace *)
  outage : option nat                          (* [Some n]: the calendar service
                                                  answers [n] more calls, then fails *)
}.

Definition with_props (f : gmap string string → gmap string string) (w : World) : World :=
  {| props := f (props w); calendars := calendars w; forms := forms w;
     sheet := sheet w; ui := ui w; calls := calls w; outage := outage w |}.

Definition with_calendars
    (f : gmap string (gmap string Event) → gmap string (gmap string Event))
    (w : World) : World :=
  {| props := props w; calendars := f (calendars w); forms := forms w;
     sheet := sheet w; ui := ui w; calls := calls w; outage := outage w |}.

Definition with_sheet (s : list (list JsVal)) (w : World) : World :=
  {| props := props w; calendars := calendars w; forms := forms w;
     sheet := s; ui := ui w; calls := calls w; outage := outage w |}.

Definition with_ui (f : list UiEvent → list UiEvent) (w : World) : World :=
  {| props := props w; calendars := calendars w; forms := forms w;
     sheet := sheet w; ui := f (ui w); calls := calls w; outage := outage w |}.

Definition with_call (c : Call) (w : World) : World :=
  {| props := props w; calendars := calendars w; forms := forms w;
     sheet := sheet w; ui := ui w; calls := (calls w ++ [c])%list; outage := outage w |}.

Definition with_outage (o : option nat) (w : World) : World :=
  {| props := props w; calendars := calendars w; forms := forms w;
     sheet := sheet w; ui := ui w; calls := calls w; outage := o |}.

(** A script computation: it may throw, and what it did to the world
    before throwing stays done. *)
Definition Host (A : Type) : Type := World → (Exn + A) * World.

Definition ret {A} (a : A) : Host A := λ w, (inr a, w).
Definition throw {A} (e : Exn) : Host A := λ w, (inl e, w).
Definition bind {A B} (c : Host A) (k : A → Host B) : Host B :=
  λ w, match c w with
       | (inl e, w') => (inl e, w')
       | (inr a, w') => k a w'
       end.
Definition lift {A} (r : Exn + A) : Host A := λ w, (r, w).

Notation "'let*' x ':=' c 'in' k" := (bind c (λ x, k))
  (at level 10, x name, c at level 100, k at level 200).
Notation "c '>>' k" := (bind c (λ _, k))
  (at level 100, k at level 200, right associativity).

(** Every call to the calendar service passes here first. *)
Definition calendar_service : Host unit :=
  λ w, match outage w with
       | Some 0 => (inl TransientUnavailable, w)
       | Some (S n) => (inr tt, with_outage (Some n) w)
       | None => (inr tt, w)
       end.

Definition PropertiesService_getProperty (k : string) : Host (option string) :=
  λ w, (inr (props w !! k), w).

Definition PropertiesService_setProperty (k v : string) : Host unit :=
  λ w, (inr tt, with_props <[k := v]> w).

(** A calendar object is held by the id of its calendar, an event object by
    the ids of its calendar and of the event; [null] is [None]. *)
Definition CalendarApp_getCalendarById (id : string) : Host (option string) :=
  calendar_service >>
  λ w, (inr (if calendars w !! id is Some _ then Some id else None), w).

Definition CalendarApp_createCalendar (name : string) : Host string :=
  calendar_service >>
  λ w, let id := fresh (dom (calendars w)) in
       (inr id, with_call (CreateCalendar name id) (with_calendars <[id := ∅]> w)).

Definition Calendar_deleteCalendar (cal : string) : Host unit :=
  calendar_service >>
  λ w, (inr tt, with_call (DeleteCalendar cal) (with_calendars (delete cal) w)).

(** An empty cell names no event. *)
Definition find_event (events : gmap string Event) (arg : JsVal) : option string :=
  match arg with
  | JStr s => if decide (s = "") then None
              else if events !! s is Some _ then Some s else None
  | _ => None
  end.

(** An event has two identifiers.  The advanced service
    ([Calendar.Events]) gives and takes the event's id, under which the
    calendars of the model keep the event.  [CalendarApp] reports that id
    followed by [@google.com] (the comment in [addGuestAndSendEmail_]), and
    its [getEventById] is given both by the script: the longer one as the
    sheet holds it, and the id itself right after an insertion. *)
Definition event_uid (id : string) : string := id ++ "@google.com".

(** [s] without [suffix] at its end, if it ends so. *)
Fixpoint strip_suffix (suffix s : string) : option string :=
  if decide (s = suffix) then Some ""
  else match s with
       | EmptyString => None
       | String a s' => String a <$> strip_suffix suffix s'
       end.

(** The last character of a string. *)
Fixpoint last_char (s : string) : option ascii :=
  match s with
  | EmptyString => None
  | String a s' => Some (default a (last_char s'))
  end.

(** The id of the event an identifier stands for. *)
Definition event_id_of (s : string) : string :=
  default s (strip_suffix "@google.com" s).

(** The event [cal.getEventById(arg)] finds. *)
Definition resolve_event (events : gmap string Event) (arg : JsVal) : option string :=
  match arg with
  | JStr s => find_event events (JStr (event_id_of s))
  | _ => None
  end.

Definition Calendar_getEventById (cal : option string) (i : nat) (arg : JsVal)
    : Host (option (string * string)) :=
  match cal with
  | None => throw TypeError
  | Some c =>
      calendar_service >>
      λ w, match calendars w !! c with
           | None => (inl HostException, w)
           | Some events =>
               let found := resolve_event events arg in
               (inr (pair c <$> found), with_call (GetEventById i arg found) w)
           end
  end.

Definition event_of_payload (p : Payload) : Event :=
  {| ev_title := summary p; ev_start := start_dateTime p; ev_end := end_dateTime p;
     ev_location := payload_location p; ev_guestsCanSeeGuests := true |}.

(** The identifier the service gives a new event: not empty, and carried
    by no event of the calendar. *)
Definition new_event_id (events : gmap string Event) : string :=
  fresh ({[""]} ∪ dom events).

(** [Calendar.Events.insert(payload, calId, ...)]; the result is
    [eventReturn.id]. *)
Definition Calendar_Events_insert (i : nat) (p : Payload) (calId : string) : Host string :=
  calendar_service >>
  λ w, match calendars w !! calId with
       | None => (inl HostException, w)
       | Some events =>
           let id := new_event_id events in
           (inr id,
            with_call (EventsInsert i p calId id)
              (with_calendars <[calId := <[id := event_of_payload p]> events]> w))
       end.

(** A setter of an event object: [f] changes the stored event, [c] is the
    call recorded. *)
Definition event_update (ev : string * string) (f : Event → Event) (c : Call) : Host unit :=
  calendar_service >>
  λ w, match calendars w !! ev.1 with
       | None => (inl HostException, w)
       | Some events =>
           match events !! ev.2 with
           | None => (inl HostException, w)
           | Some e =>
               (inr tt, with_call c (with_calendars <[ev.1 := <[ev.2 := f e]> events]> w))
           end
       end.

Definition CalendarEvent_setTitle (i : nat) (ev : string * string) (title : JsVal) : Host unit :=
  event_update ev
    (λ e, {| ev_title := title; ev_start := ev_start e; ev_end := ev_end e;
             ev_location := ev_location e;
             ev_guestsCanSeeGuests := ev_guestsCanSeeGuests e |})
    (SetTitle i ev.2 title).

(** [event.setTime(start, end)]; the host refuses a date that holds no
    time. *)
Definition CalendarEvent_setTime (i : nat) (ev : string * string)
    (start finish : option Date) : Host unit :=
  match start, finish with
  | Some start, Some finish =>
      event_update ev
        (λ e, {| ev_title := ev_title e; ev_start := start; ev_end := finish;
                 ev_location := ev_location e;
                 ev_guestsCanSeeGuests := ev_guestsCanSeeGuests e |})
        (SetTime i ev.2 start finish)
  | _, _ => throw HostException
  end.

Definition CalendarEvent_setLocation (i : nat) (ev : string * string) (location : JsVal)
    : Host unit :=
  event_update ev
    (λ e, {| ev_title := ev_title e; ev_start := ev_start e; ev_end := ev_end e;
             ev_location := location;
             ev_guestsCanSeeGuests := ev_guestsCanSeeGuests e |})
    (SetLocation i ev.2 location).

Definition CalendarEvent_setGuestsCanSeeGuests (i : nat) (ev : string * string) (b : bool)
    : Host unit :=
  event_update ev
    (λ e, {| ev_title := ev_title e; ev_start := ev_start e; ev_end := ev_end e;
             ev_location := ev_location e; ev_guestsCanSeeGuests := b |})
    (SetGuestsCanSeeGuests i ev.2 b).

Definition CalendarEvent_deleteEvent (ev : string * string) : Host unit :=
  calendar_service >>
  λ w, (inr tt, with_call (DeleteEvent ev.1 ev.2)
                  (with_calendars (alter (delete ev.2) ev.1) w)).

Definition CalendarEvent_getId (ev : string * string) : string := event_uid ev.2.

Definition Range_getValues : Host (list (list JsVal)) :=
  λ w, (inr (sheet w), w).

(** [range.setValues(values)]: the host refuses data whose shape is not the
    shape of the range. *)
Definition Range_setValues (values : list (list JsVal)) : Host unit :=
  λ w, if decide (length <$> values = length <$> sheet w)
       then (inr tt, with_sheet values w)
       else (inl HostException, w).

Definition Ui_alert (msg : string) : Host unit :=
  λ w, (inr tt, with_ui (λ l, (l ++ [Alert msg])%list) w).

Definition Ui_showModalDialog (html title : string) : Host unit :=
  λ w, (inr tt, with_ui (λ l, (l ++ [ModalDialog html title])%list) w).

Definition FormApp_openById (id : string) : Host string :=
  λ w, if decide (id ∈ forms w) then (inr id, w) else (inl HostException, w).

Definition Form_getEditUrl (form : string) : string :=
  "https://docs.google.com/forms/d/" ++ form ++ "/edit".

(** *** The script *)

(** [joinDateAndTime_(date, time)].  [new Date(date)] takes any value; a
    [time] that is no [Date] has no [getHours], which is a [TypeError]. *)
Definition joinDateAndTime_ (date time : JsVal) : Exn + option Date :=
  let date := Date_new date in
  match time with
  | JDate time =>
      let date := Date_setHours date (getHours time) in
      let date := Date_setMinutes date (getMinutes time) in
      inr date
  | _ => inl TypeError
  end.

(** The body of the loop of [setUpCalendar_] for row [i]. *)
Definition setUpCalendar_session (cal : option string) (calId : string) (i : nat)
    (session : list JsVal) : Host (list JsVal) :=
  let title := js_index session 0 in
  let* start := lift (joinDateAndTime_ (js_index session 1) (js_index session 2)) in
  let* finish := lift (joinDateAndTime_ (js_index session 1) (js_index session 3)) in
  let location := js_index session 4 in
  let* event := Calendar_getEventById cal i (js_index session 5) in
  let* event :=
    match event with
    | None =>
        let* start := lift (toISOString start) in
        let* finish := lift (toISOString finish) in
        let eventPayload :=
          {| summary := title; start_dateTime := start; end_dateTime := finish;
             payload_location := location |} in
        let* eventReturn := Calendar_Events_insert i eventPayload calId in
        Calendar_getEventById cal i (JStr eventReturn)
    | Some event =>
        CalendarEvent_setTitle i event title >>
        CalendarEvent_setTime i event start finish >>
        CalendarEvent_setLocation i event location >>
        ret (Some event)
    end in
  match event with
  | None => throw TypeError
  | Some event =>
      CalendarEvent_setGuestsCanSeeGuests i event true >>
      ret (js_array_set session 5 (JStr (CalendarEvent_getId event)))
  end.

(** [for (var i = ...; i < values.length; i++)], on the rows from [i] on;
    the result is those rows as the loop leaves them in [values]. *)
Fixpoint setUpCalendar_loop (cal : option string) (calId : string) (i : nat)
    (sessions : list (list JsVal)) : Host (list (list JsVal)) :=
  match sessions with
  | [] => ret []
  | session :: rest =>
      let* session := setUpCalendar_session cal calId i session in
      let* rest := setUpCalendar_loop cal calId (S i) rest in
      ret (session :: rest)
  end.

Definition setUpCalendar_ (values : list (list JsVal)) : Host unit :=
  let* calId := PropertiesService_getProperty "calendarId" in
  let* known :=
    match calId with
    | None => ret None
    | Some calId => CalendarApp_getCalendarById calId
    end in
  let* cal_calId :=
    match calId, known with
    | Some calId, Some _ =>
        let* cal := CalendarApp_getCalendarById calId in
        ret (cal, calId)
    | _, _ =>
        let* calId := CalendarApp_createCalendar "LUMICKS Academy Calendar" in
        PropertiesService_setProperty "calendarId" calId >>
        ret (Some calId, calId)
    end in
  (* the loop starts at 1 to skip the sheet's header row *)
  let* sessions := setUpCalendar_loop cal_calId.1 cal_calId.2 1 (drop 1 values) in
  Range_setValues (take 1 values ++ sessions)%list.

(** The calendar half of [setUpConference]: the values are read from the
    sheet and handed to [setUpCalendar_] together with their range. *)
Definition syncCalendar : Host unit :=
  let* values := Range_getValues in
  setUpCalendar_ values.

Definition openUrl_ (url : string) : Host unit :=
  let js := "<script>window.open('" ++ url ++ "', '_blank'); google.script.host.close();</script>" in
  Ui_showModalDialog js "Now loading.".

Definition openForm_ : Host unit :=
  let* formId := PropertiesService_getProperty "formId" in
  match formId with
  | None => Ui_alert "No registration form has been set up yet."
  | Some formId =>
      let* form := FormApp_openById formId in
      let formUrl := Form_getEditUrl form in
      openUrl_ formUrl
  end.

Definition openCalendar_ : Host unit :=
  let* calId := PropertiesService_getProperty "calendarId" in
  match calId with
  | None => Ui_alert "No calendar has been set up yet."
  | Some calId =>
      let calUrl := "https://calendar.google.com/calendar/?cid=" ++ calId in
      openUrl_ calUrl
  end.

(** *** The grouping of [setUpForm_]

    [schedule] in [setUpForm_] is an object whose properties are created
    on first use.  An object is kept as the list of its own properties in
    creation order.  The keys [setUpForm_] uses are renderings of dates and
    times, which hold a [/] or a [:] and so name no inherited property. *)

Fixpoint obj_get {V} (o : list (string * V)) (k : string) : option V :=
  match o with
  | [] => None
  | (k', v) :: o' => if decide (k' = k) then Some v else obj_get o' k
  end.

(** [o[k] = v]: an existing property keeps its place, a new one goes last. *)
Fixpoint obj_set {V} (o : list (string * V)) (k : string) (v : V) : list (string * V) :=
  match o with
  | [] => [(k, v)]
  | (k', v') :: o' =>
      if decide (k' = k) then (k, v) :: o' else (k', v') :: obj_set o' k v
  end.

Definition is_digit (a : ascii) : bool :=
  (48 <=? nat_of_ascii a)%nat && (nat_of_ascii a <=? 57)%nat.

Fixpoint digits_value (s : string) (acc : N) : option N :=
  match s with
  | EmptyString => Some acc
  | String a s' =>
      if is_digit a then digits_value s' (10 * acc + (N_of_ascii a - 48))%N else None
  end.

(** A key is an array index when it is the canonical decimal form of an
    integer below 2^32 - 1. *)
Definition array_index (k : string) : option N :=
  match k with
  | EmptyString => None
  | String a rest =>
      if decide (a = "0"%char ∧ rest ≠ EmptyString) then None
      else n ← digits_value k 0;
           if (n <? 2 ^ 32 - 1)%N then Some n else None
  end.

Definition index_le (a b : N * string) : Prop := (a.1 ≤ b.1)%N.

#[global] Instance index_le_dec : RelDecision index_le.
Proof. intros a b. unfold index_le. apply _. Defined.

(** [Object.keys(o)]: array indices in ascending order, then the other
    keys in creation order. *)
Definition Object_keys {V} (o : list (string * V)) : list string :=
  let indices := omap (λ kv, (λ n, (n, kv.1)) <$> array_index kv.1) o in
  let named := filter (λ kv, array_index kv.1 = None) o in
  ((snd <$> merge_sort index_le indices) ++ (fst <$> named))%list.

(** One turn of the first loop of [setUpForm_]. *)
Definition setUpForm_session (schedule : list (string * list (string * list JsVal)))
    (session : list JsVal) : Exn + list (string * list (string * list JsVal)) :=
  match js_index session 1, js_index session 2 with
  | JDate d, JDate t =>
      let day := toLocaleDateString d in
      let time := toLocaleTimeString t in
      let schedule :=
        if obj_get schedule day is Some _ then schedule else obj_set schedule day [] in
      let times := default [] (obj_get schedule day) in
      let times :=
        if obj_get times time is Some _ then times else obj_set times time [] in
      let choices := default [] (obj_get times time) in
      inr (obj_set schedule day (obj_set times time (choices ++ [js_index session 0])%list))
  | _, _ => inl TypeError
  end.

Fixpoint setUpForm_loop (schedule : list (string * list (string * list JsVal)))
    (sessions : list (list JsVal)) : Exn + list (string * list (string * list JsVal)) :=
  match sessions with
  | [] => inr schedule
  | session :: rest =>
      match setUpForm_session schedule session with
      | inl e => inl e
      | inr schedule => setUpForm_loop schedule rest
      end
  end.

(** The grouping of [setUpForm_]: [schedule] after the loop over the rows
    below the header. *)
Definition setUpForm_schedule (values : list (list JsVal))
    : Exn + list (string * list (string * list JsVal)) :=
  setUpForm_loop [] (drop 1 values).

Inductive FormItem :=
| SectionHeaderItem (title : string)
| MultipleChoiceItem (title : string) (choices : list JsVal).

(** The items the two nested [forEach] of [setUpForm_] add to the form. *)
Definition setUpForm_items (schedule : list (string * list (string * list JsVal)))
    : list FormItem :=
  day ← Object_keys schedule;
  SectionHeaderItem ("Sessions for " ++ day) ::
    ((λ time, MultipleChoiceItem (time ++ " " ++ day)
                (default [] (obj_get (default [] (obj_get schedule day)) time)))
       <$> Object_keys (default [] (obj_get schedule day))).

(** The groups behind the multiple-choice questions, in the order the
    questions are added: the key (day, time) and the choice values. *)
Definition setUpForm_groups (schedule : list (string * list (string * list JsVal)))
    : list (string * string * list JsVal) :=
  day ← Object_keys schedule;
  (λ time, (day, time, default [] (obj_get (default [] (obj_get schedule day)) time)))
    <$> Object_keys (default [] (obj_get schedule day)).

(** The groups [setUpForm_] makes of the rows of [values]. *)
Definition setUpForm_grouping (values : list (list JsVal))
    : Exn + list (string * string * list JsVal) :=
  match setUpForm_schedule values with
  | inl e => inl e
  | inr schedule => inr (setUpForm_groups schedule)
  end.

(** *** The pass as a function of the calendar

    What [setUpCalendar_] amounts to when no call fails: used to state and
    prove the properties below, and proved equal to the script there. *)

(** The payload [setUpCalendar_] derives from a row: title, start, end
    and location.  There is none when a time cell holds no date, or when
    the start or the end it computes holds no time. *)
Definition row_payload (session : list JsVal) : option Payload :=
  match joinDateAndTime_ (js_index session 1) (js_index session 2),
        joinDateAndTime_ (js_index session 1) (js_index session 3) with
  | inr (Some start), inr (Some finish) =>
      Some {| summary := js_index session 0; start_dateTime := start;
              end_dateTime := finish; payload_location := js_index session 4 |}
  | _, _ => None
  end.

(** A row the pass can deal with: the script derives a payload from it,
    and it has a cell for the identifier. *)
Definition row_ok (session : list JsVal) : Prop :=
  is_Some (row_payload session) ∧ 5 < length session.

(** A row of sessions as the sheet holds them: dates in the date, start
    and end cells, from which the script derives a payload, and a cell for
    the identifier. *)
Definition session_ok (session : list JsVal) : Prop :=
  row_ok session ∧ ∃ d, js_index session 1 = JDate d.

Definition sheet_ok (values : list (list JsVal)) : Prop :=
  Forall session_ok (drop 1 values).

Definition call_row (c : Call) : option nat :=
  match c with
  | GetEventById i _ _ | EventsInsert i _ _ _ | SetTitle i _ _ | SetTime i _ _ _
  | SetLocation i _ _ | SetGuestsCanSeeGuests i _ _ => Some i
  | CreateCalendar _ _ | DeleteCalendar _ | DeleteEvent _ _ => None
  end.

(** The calls made on behalf of row [i]. *)
Definition calls_of_row (i : nat) (cs : list Call) : list Call :=
  filter (λ c, call_row c = Some i) cs.

Definition is_create (c : Call) : bool :=
  match c with
  | CreateCalendar _ _ | EventsInsert _ _ _ _ => true
  | _ => false
  end.

Definition is_delete (c : Call) : bool :=
  match c with
  | DeleteCalendar _ | DeleteEvent _ _ => true
  | _ => false
  end.

(** The calls a run from [w] to [w'] has added to the trace. *)
Definition new_calls (w w' : World) : list Call :=
  drop (length (calls w)) (calls w').

(** The trace of a row that is created, and of a row that is updated. *)
Definition create_calls (i : nat) (p : Payload) (calId id : string) (arg : JsVal)
    : list Call :=
  [GetEventById i arg None; EventsInsert i p calId id;
   GetEventById i (JStr id) (Some id); SetGuestsCanSeeGuests i id true].

Definition update_calls (i : nat) (p : Payload) (id : string) (arg : JsVal) : list Call :=
  [GetEventById i arg (Some id); SetTitle i id (summary p);
   SetTime i id (start_dateTime p) (end_dateTime p);
   SetLocation i id (payload_location p); SetGuestsCanSeeGuests i id true].

(** Row data a call carries to the calendar. *)
Inductive Sent :=
| SentTitle (row : nat) (title : JsVal)
| SentTime (row : nat) (start finish : Date)
| SentLocation (row : nat) (location : JsVal).

Definition call_sends (c : Call) : list Sent :=
  match c with
  | EventsInsert i p _ _ =>
      [SentTitle i (summary p); SentTime i (start_dateTime p) (end_dateTime p);
       SentLocation i (payload_location p)]
  | SetTitle i _ title => [SentTitle i title]
  | SetTime i _ start finish => [SentTime i start finish]
  | SetLocation i _ location => [SentLocation i location]
  | _ => []
  end.

Definition sent (cs : list Call) : list Sent := cs ≫= call_sends.

Definition reconciled_id (events : gmap string Event) (session : list JsVal) : string :=
  match resolve_event events (js_index session 5) with
  | Some id => id
  | None => new_event_id events
  end.

Definition reconcile_calls (calId : string) (i : nat) (session : list JsVal)
    (p : Payload) (events : gmap string Event) : list Call :=
  match resolve_event events (js_index session 5) with
  | Some id => update_calls i p id (js_index session 5)
  | None => create_calls i p calId (new_event_id events) (js_index session 5)
  end.

(** The rows, the events and the trace after the loop over [sessions],
    the first of which is row [i]. *)
Fixpoint reconcile (calId : string) (i : nat) (sessions : list (list JsVal))
    (events : gmap string Event)
    : option (list (list JsVal) * gmap string Event * list Call) :=
  match sessions with
  | [] => Some ([], events, [])
  | session :: rest =>
      p ← row_payload session;
      let id := reconciled_id events session in
      r ← reconcile calId (S i) rest (<[id := event_of_payload p]> events);
      Some (js_array_set session 5 (JStr (event_uid id)) :: r.1.1, r.1.2,
            (reconcile_calls calId i session p events ++ r.2)%list)
  end.



(** The calendar the pass works on: the one the script properties name
    if it exists, a new one otherwise; with its events and the call that
    made it. *)
Definition calendar_choice (w : World) : string * gmap string Event * list Call :=
  let fresh_one :=
    let id := fresh (dom (calendars w)) in
    (id, ∅, [CreateCalendar "LUMICKS Academy Calendar" id]) in
  match props w !! "calendarId" with
  | Some calId =>
      match calendars w !! calId with
      | Some events => (calId, events, [])
      | None => fresh_one
      end
  | None => fresh_one
  end.

(** The calendar service answers [m] more calls. *)
Definition affords (m : nat) (w : World) : Prop :=
  match outage w with
  | Some n => (m ≤ n)%nat
  | None => True
  end.

(** The world once the service has answered [m] calls. *)
Definition spend (m : nat) (w : World) : World :=
  with_outage ((λ n, (n - m)%nat) <$> outage w) w.

(** The calls of [CalendarApp.getCalendarById] the pass begins with. *)
Definition lookups (w : World) : nat :=
  match props w !! "calendarId" with
  | Some calId => if calendars w !! calId is Some _ then 2 else 1
  | None => 0
  end.

(** The world once calendar [calId] holds [events], after the calls [cs]. *)
Definition advance (calId : string) (events : gmap string Event) (cs : list Call)
    (w : World) : World :=
  {| props := props w; calendars := <[calId := events]> (calendars w);
     forms := forms w; sheet := sheet w; ui := ui w;
     calls := (calls w ++ cs)%list; outage := outage w |}.

(** The world once the calls [acts] are answered. *)
Definition performed (calId : string) (acts : list (gmap string Event * Call)) (w : World)
    : World :=
  foldl (λ w act, advance calId act.1 [act.2] w) w acts.

(** A computation that makes the calls [acts] one after the other, each
    of which the calendar service may refuse, and then returns [a]. *)
Fixpoint perform {A} (calId : string) (acts : list (gmap string Event * Call)) (a : A)
    : Host A :=
  match acts with
  | [] => ret a
  | act :: acts =>
      calendar_service >> (λ w, perform calId acts a (advance calId act.1 [act.2] w))
  end.

(** Nothing of the calendars is lost from [w] to [w']: every event of
    every calendar is still there, and the trace has grown by calls that
    delete nothing. *)
Definition calendar_grows (w w' : World) : Prop :=
  (∀ c events, calendars w !! c = Some events →
     ∃ events', calendars w' !! c = Some events' ∧ dom events ⊆ dom events') ∧
  (∃ cs, calls w' = (calls w ++ cs)%list ∧ Forall (λ c, is_delete c = false) cs).

(** Every row names an event of the calendar, the way the pass writes
    its identifier. *)
Definition settled (events : gmap string Event) (sessions : list (list JsVal)) : Prop :=
  Forall (λ s, ∃ id, js_index s 5 = JStr (event_uid id) ∧ id ≠ "" ∧ id ∈ dom events)
    sessions.

(** The trace of a loop that finds every row's event. *)
Fixpoint steady_calls (i : nat) (sessions : list (list JsVal)) : list Call :=
  match sessions with
  | [] => []
  | s :: rest =>
      (match row_payload s, js_index s 5 with
       | Some p, JStr uid => update_calls i p (event_id_of uid) (JStr uid)
       | _, _ => []
       end ++ steady_calls (S i) rest)%list
  end.

(** The row data the loop sends, row by row from row [i]. *)
Fixpoint sends_from (i : nat) (sessions : list (list JsVal)) : list Sent :=
  match sessions with
  | [] => []
  | s :: rest =>
      (match row_payload s with
       | Some p =>
           [SentTitle i (summary p); SentTime i (start_dateTime p) (end_dateTime p);
            SentLocation i (payload_location p)]
       | None => []
       end ++ sends_from (S i) rest)%list
  end.

(** A computation that, when it ends well, ends the same when the
    calendar service can afford every call. *)
Definition steady {A} (c : Host A) : Prop :=
  ∀ w a w', c w = (inr a, w') → c (with_outage None w) = (inr a, with_outage None w').

(** A computation that loses nothing of the calendars and leaves the
    sheet alone, however it ends. *)
Definition harmless {A} (c : Host A) : Prop :=
  ∀ w, calendar_grows w (c w).2 ∧ sheet (c w).2 = sheet w.

(** A computation that loses nothing of the calendars, and that leaves the
    sheet alone when it throws. *)
Definition abort_safe {A} (c : Host A) : Prop :=
  ∀ w, calendar_grows w (c w).2 ∧ ∀ e, (c w).1 = inl e → sheet (c w).2 = sheet w.

(** *** The grouping as a function of the rows *)

(** The elements of a list, each at its first occurrence. *)
Fixpoint first_seen {A} `{EqDecision A} (l : list A) : list A :=
  match l with
  | [] => []
  | x :: l' => x :: filter (λ y, y ≠ x) (first_seen l')
  end.

(** What a row contributes to the grouping: day, time and title. *)
Definition session_slot (session : list JsVal) : option (string * string * JsVal) :=
  match js_index session 1, js_index session 2 with
  | JDate d, JDate t => Some (toLocaleDateString d, toLocaleTimeString t, js_index session 0)
  | _, _ => None
  end.

Definition titles_of (key : string * string) (rows : list (string * string * JsVal))
    : list JsVal :=
  snd <$> filter (λ r, r.1 = key) rows.

(** Grouping by the key (day, time), keys in first-seen order: the
    grouping as the specification words it. *)
Definition groups_first_seen (rows : list (string * string * JsVal))
    : list (string * string * list JsVal) :=
  (λ key, (key, titles_of key rows)) <$> first_seen (fst <$> rows).

(** Grouping by day in first-seen order, and within a day by time in
    first-seen order. *)
Definition groups_by_day (rows : list (string * string * JsVal))
    : list (string * string * list JsVal) :=
  day ← first_seen ((λ r, r.1.1) <$> rows);
  (λ time, ((day, time), titles_of (day, time) rows))
    <$> first_seen ((λ r, r.1.2) <$> filter (λ r, r.1.1 = day) rows).

(** The object whose keys are [ks], in that order, with [f k] under [k]. *)
Definition tabulate {V} (f : string → V) (ks : list string) : list (string * V) :=
  (λ k, (k, f k)) <$> ks.

Definition days_of (rows : list (string * string * JsVal)) : list string :=
  (λ r, r.1.1) <$> rows.

Definition times_of (day : string) (rows : list (string * string * JsVal)) : list string :=
  (λ r, r.1.2) <$> filter (λ r, r.1.1 = day) rows.

(** [schedule] once the loop of [setUpForm_] has seen [rows]. *)
Definition schedule_of (rows : list (string * string * JsVal))
    : list (string * list (string * list JsVal)) :=
  tabulate
    (λ day, tabulate (λ time, titles_of (day, time) rows)
              (first_seen (times_of day rows)))
    (first_seen (days_of rows)).

(** The items of the form, for the grouping by day and then by time. *)
Definition items_by_day (rows : list (string * string * JsVal)) : list FormItem :=
  day ← first_seen (days_of rows);
  SectionHeaderItem ("Sessions for " ++ day) ::
    ((λ time, MultipleChoiceItem (time ++ " " ++ day) (titles_of (day, time) rows))
       <$> first_seen (times_of day rows)).

(** *** What the pass leaves alone *)

(** What [setUpCalendar_] has no business with is in [w'] as in [w]: the
    forms, what the user has been shown, and the script properties other
    than the calendar's. *)
Definition keeps_rest (w w' : World) : Prop :=
  forms w' = forms w ∧ ui w' = ui w ∧
  ∀ k, k ≠ "calendarId" → props w' !! k = props w !! k.

Definition discreet {A} (c : Host A) : Prop := ∀ w, keeps_rest w (c w).2.

End Script.

Notation "'let*' x ':=' c 'in' k" := (bind c (λ x, k))
  (at level 10, x name, c at level 100, k at level 200).
Notation "c '>>' k" := (bind c (λ _, k))
  (at level 100, k at level 200, right associativity).

(** *** Dates by their fields, for worked examples

    A time zone without daylight saving, in which every hour of every day
    exists, so that setting the hours (0 to 23) or the minutes (0 to 59) of
    a date sets that field.  A number is read as the milliseconds since the
    start of 1970 in that zone; no text is read as a date. *)
Record Civil := mkDate {
  year : Z; month : Z; day : Z;
  hours : Z; minutes : Z; seconds : Z; millis : Z
}.

#[global] Instance Civil_eq_dec : EqDecision Civil.
Proof. solve_decision. Defined.

Definition civil_setHours (d : Civil) (h : Z) : Civil :=
  {| year := year d; month := month d; day := day d;
     hours := h; minutes := minutes d; seconds := seconds d; millis := millis d |}.

Definition civil_setMinutes (d : Civil) (m : Z) : Civil :=
  {| year := year d; month := month d; day := day d;
     hours := hours d; minutes := m; seconds := seconds d; millis := millis d |}.

(** The date of a time value, by the days since the start of 1970. *)
Definition civil_of_millis (t : Z) : option Civil :=
  if (Z.abs t <=? 8640000000000000)%Z then
    let days := (t / 86400000)%Z in
    let ms := (t mod 86400000)%Z in
    let z := (days + 719468)%Z in
    let era := (z / 146097)%Z in
    let doe := (z - era * 146097)%Z in
    let yoe := ((doe - doe / 1460 + doe / 36524 - doe / 146096) / 365)%Z in
    let doy := (doe - (365 * yoe + yoe / 4 - yoe / 100))%Z in
    let mp := ((5 * doy + 2) / 153)%Z in
    let d := (doy - (153 * mp + 2) / 5 + 1)%Z in
    let m := (if (mp <? 10)%Z then mp + 3 else mp - 9)%Z in
    let y := (yoe + era * 400 + (if (m <=? 2)%Z then 1 else 0))%Z in
    Some {| year := y; month := m; day := d;
            hours := ms / 3600000; minutes := (ms / 60000) mod 60;
            seconds := (ms / 1000) mod 60; millis := ms mod 1000 |}
  else None.

Definition Civil_TimeValues : TimeValues := Civil.

#[local] Existing Instance Civil_TimeValues.

Definition Civil_JsDates : JsDates := {|
  Date_parse := λ _, None;
  Date_of_number := civil_of_millis;
  getFullYear := year;
  getMonth := λ d, (month d - 1)%Z;
  getDate := day;
  getHours := hours;
  getMinutes := minutes;
  getSeconds := seconds;
  setHours := λ d h, Some (civil_setHours d h);
  setMinutes := λ d m, Some (civil_setMinutes d m)
|}.

#[local] Existing Instance Civil_JsDates.

(** *** Sample data *)

Definition on_day (d : Z) : Civil := mkDate 2019 12 d 0 0 0 0.
Definition at_hour (h : Z) : Civil := mkDate 1899 12 30 h 0 0 0.

Definition sample_header : list JsVal :=
  [JStr "Title"; JStr "Date"; JStr "Start"; JStr "End"; JStr "Location"; JStr "Event"].

Definition sample_session (title : string) (d h : Z) (id : string) : list JsVal :=
  [JStr title; JDate (on_day d); JDate (at_hour h); JDate (at_hour (h + 1));
   JStr "Room 1"; JStr id].

(** The payload of [sample_session title d h _]. *)
Definition sample_payload (title : string) (d h : Z) : Payload :=
  {| summary := JStr title;
     start_dateTime := mkDate 2019 12 d h 0 0 0;
     end_dateTime := mkDate 2019 12 d (h + 1) 0 0 0;
     payload_location := JStr "Room 1" |}.

Definition sample_form_row (title : string) (d h : Z) : list JsVal :=
  [JStr title; JDate (on_day d); JDate (at_hour h)].

(** Three sessions, the first two in the same slot and the third later
    the same day. *)
Definition same_day_values : list (list JsVal) :=
  [sample_header; sample_form_row "T1" 23 10; sample_form_row "T2" 23 10;
   sample_form_row "T3" 23 11].

(** Three sessions, the second on another day than the first and third. *)
Definition interleaved_values : list (list JsVal) :=
  [sample_header; sample_form_row "T1" 23 10; sample_form_row "T2" 24 10;
   sample_form_row "T3" 23 11].

(** Two sessions not yet on any calendar, and nothing set up. *)
Definition new_world : World :=
  {| props := ∅; calendars := ∅; forms := ∅;
     sheet := [sample_header; sample_session "Keynote" 23 10 "";
               sample_session "Workshop" 23 11 ""];
     ui := []; calls := []; outage := None |}.

(** The same, with a calendar service that answers six calls and then
    fails: the seventh call is the creation of the second session. *)
Definition failing_world : World := with_outage (Some 6) new_world.

(** A calendar "cal" that holds the event "ev1" of the first session,
    whose identifier cell is as a pass has written it; the second session
    is new. *)
Definition known_world : World :=
  {| props := {["calendarId" := "cal"]};
     calendars := {["cal" := {["ev1" := mkEvent (JStr "Old title") (on_day 1) (on_day 1)
                                            (JStr "Old room") true]}]};
     forms := ∅;
     sheet := [sample_header; sample_session "Keynote" 23 10 "ev1@google.com";
               sample_session "Workshop" 23 11 ""];
     ui := []; calls := []; outage := None |}.

(** The same calendar; the identifier cell of the first session holds the
    identifier without its '@google.com', as [Calendar.Events.insert]
    returns it. *)
Definition pasted_world : World :=
  with_sheet [sample_header; sample_session "Keynote" 23 10 "ev1"] known_world.

(** The same calendar; an empty row comes before the session. *)
Definition known_gap_world : World :=
  with_sheet [sample_header; replicate 6 (JStr "");
              sample_session "Keynote" 23 10 "ev1@google.com"] known_world.

(** A sheet with an empty row between its two sessions. *)
Definition gap_world : World :=
  with_sheet [sample_header; sample_session "Keynote" 23 10 "";
              replicate 6 (JStr ""); sample_session "Workshop" 23 11 ""] new_world.

(** A sheet without the column of the identifiers. *)
Definition narrow_world : World :=
  with_sheet [take 5 sample_header; take 5 (sample_session "Keynote" 23 10 "")] new_world.

(** A sheet with its header only. *)
Definition header_world : World := with_sheet [sample_header] new_world.

(** A calendar and a form, both stored in the script properties. *)
Definition linked_world : World :=
  {| props := {["calendarId" := "cal"; "formId" := "form"]};
     calendars := {["cal" := ∅]}; forms := {["form"]};
     sheet := [sample_header]; ui := []; calls := []; outage := None |}.

(** The stored form is gone. *)
Definition unlinked_world : World :=
  {| props := {["formId" := "form"]}; calendars := ∅; forms := ∅;
     sheet := [sample_header]; ui := []; calls := []; outage := None |}.

End Conference.

(** ** The conference script: registration form, triggers and invitations *)
Module Registration.
Import Conference.

Section Script.
Context {time_values : TimeValues} {dates : JsDates}.

(** *** The rest of the host platform

    Besides the world of the calendar pass, the script works on the items
    of the forms, on the triggers of the project, on the response sheets a
    form is linked to, and on the guests of the events.  [Logger.log] leaves
    no trace here. *)

Inductive ItemType := TEXT | MULTIPLE_CHOICE | SECTION_HEADER.

#[global] Instance ItemType_eq_dec : EqDecision ItemType.
Proof. solve_decision. Defined.

#[global] Instance FormItem_eq_dec : EqDecision FormItem.
Proof. solve_decision. Defined.

(** An item of a form: a text question, or an item [setUpForm_] makes of
    the sessions. *)
Inductive Item :=
| TextItem (title : string) (required : bool)
| SessionItem (item : FormItem).

#[global] Instance Item_eq_dec : EqDecision Item.
Proof. solve_decision. Defined.

Definition item_type (item : Item) : ItemType :=
  match item with
  | TextItem _ _ => TEXT
  | SessionItem (SectionHeaderItem _) => SECTION_HEADER
  | SessionItem (MultipleChoiceItem _ _) => MULTIPLE_CHOICE
  end.

Record Form := mkForm {
  form_title : string;
  form_items : list Item
}.

(** A trigger that calls [handler] when a form is submitted to the
    spreadsheet. *)
Record Trigger := mkTrigger {
  handler : string;
  trigger_spreadsheet : string
}.

#[global] Instance Trigger_eq_dec : EqDecision Trigger.
Proof. solve_decision. Defined.

Record Platform := mkPlatform {
  world : World;
  form_data : gmap string Form;                (* form id -> title and items *)
  triggers : list Trigger;                     (* the triggers of the project *)
  destinations : list (string * string);       (* response sheets: form, spreadsheet *)
  guests : gmap (string * string) (list JsVal) (* calendar id, event id -> attendees *)
}.

Definition with_world (w : World) (p : Platform) : Platform :=
  {| world := w; form_data := form_data p; triggers := triggers p;
     destinations := destinations p; guests := guests p |}.

Definition with_form_data (f : gmap string Form → gmap string Form) (p : Platform)
    : Platform :=
  {| world := world p; form_data := f (form_data p); triggers := triggers p;
     destinations := destinations p; guests := guests p |}.

Definition with_triggers (f : list Trigger → list Trigger) (p : Platform) : Platform :=
  {| world := world p; form_data := form_data p; triggers := f (triggers p);
     destinations := destinations p; guests := guests p |}.

Definition with_destinations (f : list (string * string) → list (string * string))
    (p : Platform) : Platform :=
  {| world := world p; form_data := form_data p; triggers := triggers p;
     destinations := f (destinations p); guests := guests p |}.

Definition with_guests
    (f : gmap (string * string) (list JsVal) → gmap (string * string) (list JsVal))
    (p : Platform) : Platform :=
  {| world := world p; form_data := form_data p; triggers := triggers p;
     destinations := destinations p; guests := f (guests p) |}.

Definition with_forms (f : gset string → gset string) (w : World) : World :=
  {| props := props w; calendars := calendars w; forms := f (forms w);
     sheet := sheet w; ui := ui w; calls := calls w; outage := outage w |}.

(** A script computation on the platform. *)
Definition Script (A : Type) : Type := Platform → (Exn + A) * Platform.

Definition sret {A} (a : A) : Script A := λ p, (inr a, p).
Definition sthrow {A} (e : Exn) : Script A := λ p, (inl e, p).
Definition sbind {A B} (c : Script A) (k : A → Script B) : Script B :=
  λ p, match c p with
       | (inl e, p') => (inl e, p')
       | (inr a, p') => k a p'
       end.

(** A computation on the world, as a computation on the platform. *)
Definition run {A} (c : Host A) : Script A :=
  λ p, ((c (world p)).1, with_world (c (world p)).2 p).

(** [try { c } catch (e) { h }] *)
Definition try_catch {A} (c : Script A) (h : Exn → Script A) : Script A :=
  λ p, match c p with
       | (inl e, p') => h e p'
       | (inr a, p') => (inr a, p')
       end.

Notation "'let+' x ':=' c 'in' k" := (sbind c (λ x, k))
  (at level 10, x name, c at level 100, k at level 200).
Notation "c '>>+' k" := (sbind c (λ _, k))
  (at level 100, k at level 200, right associativity).

(** [l.forEach(f)], and the [for] loops that call [f] on each element. *)
Fixpoint forEach {A} (l : list A) (f : A → Script unit) : Script unit :=
  match l with
  | [] => sret tt
  | a :: l' => f a >>+ forEach l' f
  end.

(** The list without the first of its elements equal to [a]. *)
Fixpoint remove_first {A} `{EqDecision A} (a : A) (l : list A) : list A :=
  match l with
  | [] => []
  | b :: l' => if decide (a = b) then l' else b :: remove_first a l'
  end.

Inductive Button := OK | CANCEL | CLOSE.

#[global] Instance Button_eq_dec : EqDecision Button.
Proof. solve_decision. Defined.

(** [ui.alert(prompt, ui.ButtonSet.OK_CANCEL)]: the user is shown the
    prompt and answers with a button, or closes the dialog. *)
Definition Ui_confirm (prompt : string) (answer : Button) : Host Button :=
  λ w, (inr answer, with_ui (λ l, (l ++ [Alert prompt])%list) w).

Definition PropertiesService_deleteProperty (k : string) : Host unit :=
  λ w, (inr tt, with_props (delete k) w).

Definition ScriptApp_getProjectTriggers : Script (list Trigger) :=
  λ p, (inr (triggers p), p).

Definition ScriptApp_deleteTrigger (t : Trigger) : Script unit :=
  λ p, (inr tt, with_triggers (remove_first t) p).

(** [ScriptApp.newTrigger(handler).forSpreadsheet(ss).onFormSubmit().create()] *)
Definition ScriptApp_newTrigger (handler : string) (ss : string) : Script unit :=
  λ p, (inr tt, with_triggers (λ l, (l ++ [mkTrigger handler ss])%list) p).

(** A form object is held by the id of its form. *)
Definition FormApp_create (title : string) : Script string :=
  λ p, let id := fresh (forms (world p)) in
       (inr id,
        with_form_data <[id := mkForm title []]>
          (with_world (with_forms (union {[id]}) (world p)) p)).

Definition Form_getId (form : string) : string := form.

Definition form_of (p : Platform) (form : string) : Form :=
  default (mkForm "" []) (form_data p !! form).

Definition Form_update (form : string) (f : list Item → list Item) : Script unit :=
  λ p, (inr tt,
        with_form_data
          <[form := mkForm (form_title (form_of p form)) (f (form_items (form_of p form)))]>
          p).

(** [form.addTextItem().setTitle(..).setRequired(..)] and the like: the
    item is added at the end of the form, and then given its title and its
    other settings; the model adds it as it is once set. *)
Definition Form_addItem (form : string) (item : Item) : Script unit :=
  Form_update form (λ items, (items ++ [item])%list).

Definition Form_getItems (form : string) (type : ItemType) : Script (list Item) :=
  λ p, (inr (filter (λ item, item_type item = type) (form_items (form_of p form))), p).

(** An item is known by what it holds: of two items that hold the same,
    it makes no difference to the form which one is deleted. *)
Definition Form_deleteItem (form : string) (item : Item) : Script unit :=
  Form_update form (remove_first item).

(** [form.setDestination(FormApp.DestinationType.SPREADSHEET, ss)]: a new
    sheet of [ss] receives the responses from now on. *)
Definition Form_setDestination (form ss : string) : Script unit :=
  λ p, (inr tt, with_destinations (λ l, (l ++ [(form, ss)])%list) p).

(** The event resource [Calendar.Events.get] returns, as far as the
    script reads it: the attendees, a field an event without guests
    lacks. *)
Definition Calendar_Events_get (calendarId : option string) (eventId : string)
    : Script (option (list JsVal)) :=
  run calendar_service >>+
  λ p, match calendarId with
       | None => (inl HostException, p)
       | Some c =>
           match calendars (world p) !! c with
           | None => (inl HostException, p)
           | Some events =>
               match find_event events (JStr eventId) with
               | None => (inl HostException, p)
               | Some id => (inr (guests p !! (c, id)), p)
               end
           end
       end.

(** [Calendar.Events.patch({attendees: attendees}, calendarId, eventId, ..)] *)
Definition Calendar_Events_patch (attendees : list JsVal) (calendarId : option string)
    (eventId : string) : Script unit :=
  run calendar_service >>+
  λ p, match calendarId with
       | None => (inl HostException, p)
       | Some c =>
           match calendars (world p) !! c with
           | None => (inl HostException, p)
           | Some events =>
               match find_event events (JStr eventId) with
               | None => (inl HostException, p)
               | Some id => (inr tt, with_guests <[(c, id) := attendees]> p)
               end
           end
       end.

(** *** JavaScript strings and arrays *)

Fixpoint strip_prefix (pattern s : string) : option string :=
  match pattern, s with
  | EmptyString, _ => Some s
  | String a pattern', String b s' =>
      if decide (a = b) then strip_prefix pattern' s' else None
  | String _ _, EmptyString => None
  end.

(** [s.replace(pattern, replacement)] for strings: the first occurrence of
    [pattern] is replaced. *)
Fixpoint String_replace (pattern replacement s : string) : string :=
  match strip_prefix pattern s with
  | Some rest => replacement ++ rest
  | None =>
      match s with
      | EmptyString => EmptyString
      | String a s' => String a (String_replace pattern replacement s')
      end
  end.

(** [a.indexOf(v) !== -1] on an array of strings: only a string is
    strictly equal to a string. *)
Definition includes (a : list string) (v : JsVal) : bool :=
  match v with
  | JStr s => bool_decide (s ∈ a)
  | _ => false
  end.

(** A double quote. *)
Definition dquote : string := String (ascii_of_nat 34) EmptyString.

(** *** The script *)

Definition resetConference_ (answer : Button) : Script unit :=
  let+ response :=
    run (Ui_confirm
           ("Are you sure you want to reset the conference registration? " ++
            "This will unlink any existing calendar and form, and cause a new " ++
            "calendar and form to be created next time you use " ++
            dquote ++ "Set up conference" ++ dquote ++ ".")
           answer) in
  if decide (response = CANCEL) then sret tt
  else
    run (PropertiesService_deleteProperty "calendarId") >>+
    run (PropertiesService_deleteProperty "formId") >>+
    let+ triggers := ScriptApp_getProjectTriggers in
    forEach triggers (λ trigger, ScriptApp_deleteTrigger trigger).

(** [setUpForm_(ss, values)]; [ss] is the spreadsheet, held by its id. *)
Definition setUpForm_ (ss : string) (values : list (list JsVal)) : Script unit :=
  let+ schedule := run (lift (setUpForm_schedule values)) in
  let+ formId := run (PropertiesService_getProperty "formId") in
  let+ form :=
    try_catch
      match formId with
      | Some formId => let+ form := run (FormApp_openById formId) in sret (Some form)
      | None => sret None
      end
      (λ e, sret None) in
  let+ form :=
    match form with
    | Some form => sret form
    | None =>
        let+ form := FormApp_create "LUMICKS Academy Registration" in
        let formId := Form_getId form in
        run (PropertiesService_setProperty "formId" formId) >>+
        Form_addItem form (TextItem "Name" true) >>+
        Form_addItem form (TextItem "Email" true) >>+
        ScriptApp_newTrigger "onFormSubmit" ss >>+
        sret form
    end in
  Form_setDestination form ss >>+
  (let+ items := Form_getItems form MULTIPLE_CHOICE in
   forEach items (λ item, Form_deleteItem form item)) >>+
  (let+ items := Form_getItems form SECTION_HEADER in
   forEach items (λ item, Form_deleteItem form item)) >>+
  forEach (Object_keys schedule) (λ day,
    Form_addItem form (SessionItem (SectionHeaderItem ("Sessions for " ++ day))) >>+
    forEach (Object_keys (default [] (obj_get schedule day))) (λ time,
      Form_addItem form
        (SessionItem
           (MultipleChoiceItem (time ++ " " ++ day)
              (default [] (obj_get (default [] (obj_get schedule day)) time)))))).

(** [setUpConference].  [setUpCalendar_] writes the identifiers into the
    array [values] and, as its last statement, writes [values] to the
    range: when it returns, the array that goes on to [setUpForm_] holds
    what the sheet holds. *)
Definition setUpConference (ss : string) : Script unit :=
  let+ values := run Range_getValues in
  run (setUpCalendar_ values) >>+
  let+ values := run Range_getValues in
  setUpForm_ ss values.

Record User := mkUser {
  user_name : JsVal;
  user_email : JsVal
}.

Definition addGuestAndSendEmail_ (calendarId : option string) (eventId newGuest : JsVal)
    : Script unit :=
  let+ calEventId :=
    match eventId with
    | JStr eventId => sret (String_replace "@google.com" "" eventId)
    | _ => sthrow TypeError
    end in
  let+ event := Calendar_Events_get calendarId calEventId in
  let attendees := default [] event in
  let attendees := (attendees ++ [newGuest])%list in
  Calendar_Events_patch attendees calendarId calEventId.

Definition sendInvites_ (user : User) (response : list (list JsVal)) : Script unit :=
  let+ calId := run (PropertiesService_getProperty "calendarId") in
  forEach response (λ session,
    addGuestAndSendEmail_ calId (js_index session 5) (user_email user)).

(** [e.namedValues[k][0]] *)
Definition first_value (namedValues : gmap string (list string)) (k : string)
    : Exn + JsVal :=
  match namedValues !! k with
  | None => inl TypeError
  | Some values => inr (default JUndefined (JStr <$> values !! 0))
  end.

(** One turn of the loop of [onFormSubmit]. *)
Definition onFormSubmit_session (namedValues : gmap string (list string))
    (response : list (list JsVal)) (session : list JsVal) : Exn + list (list JsVal) :=
  let title := js_index session 0 in
  match js_index session 1, js_index session 2 with
  | JDate d, JDate t =>
      let day := toLocaleDateString d in
      let time := toLocaleTimeString t in
      let timeslot := time ++ " " ++ day in
      match namedValues !! timeslot with
      | Some chosen =>
          if includes chosen title then inr (response ++ [session])%list else inr response
      | None => inr response
      end
  | _, _ => inl TypeError
  end.

Fixpoint onFormSubmit_loop (namedValues : gmap string (list string))
    (response : list (list JsVal)) (sessions : list (list JsVal))
    : Exn + list (list JsVal) :=
  match sessions with
  | [] => inr response
  | session :: rest =>
      match onFormSubmit_session namedValues response session with
      | inl e => inl e
      | inr response => onFormSubmit_loop namedValues response rest
      end
  end.

(** [onFormSubmit(e)], for the named values [e.namedValues] of the
    response. *)
Definition onFormSubmit (namedValues : gmap string (list string)) : Script unit :=
  let+ name := run (lift (first_value namedValues "Name")) in
  let+ email := run (lift (first_value namedValues "Email")) in
  let user := {| user_name := name; user_email := email |} in
  let+ values := run Range_getValues in
  let+ response := run (lift (onFormSubmit_loop namedValues [] (drop 1 values))) in
  sendInvites_ user response.

(** *** Notions used to state the properties *)

(** The session is among the choices of the response. *)
Definition selected (namedValues : gmap string (list string)) (session : list JsVal)
    : bool :=
  match session_slot session with
  | Some (day, time, title) =>
      match namedValues !! (time ++ " " ++ day) with
      | Some chosen => includes chosen title
      | None => false
      end
  | None => false
  end.

(** The event a session's identifier cell names for [Calendar.Events]. *)
Definition event_key (session : list JsVal) : option string :=
  match js_index session 5 with
  | JStr id => Some (String_replace "@google.com" "" id)
  | _ => None
  end.


(** The guests once [email] is invited to the event of [session] in
    calendar [c]. *)
Definition invite (c : string) (email : JsVal) (g : gmap (string * string) (list JsVal))
    (session : list JsVal) : gmap (string * string) (list JsVal) :=
  match event_key session with
  | Some k => <[(c, k) := (default [] (g !! (c, k)) ++ [email])%list]> g
  | None => g
  end.

(** From [p] to [p'] guests have been added to events and nothing else
    has happened: every event has the guests it had, in the order it had
    them, and the rest of the platform is as it was, but for the calls the
    calendar service still answers. *)
Definition guests_added (p p' : Platform) : Prop :=
  (∀ key l, guests p !! key = Some l → ∃ l', guests p' !! key = Some (l ++ l')%list) ∧
  form_data p' = form_data p ∧ triggers p' = triggers p ∧
  destinations p' = destinations p ∧
  props (world p') = props (world p) ∧ calendars (world p') = calendars (world p) ∧
  forms (world p') = forms (world p) ∧ sheet (world p') = sheet (world p) ∧
  ui (world p') = ui (world p) ∧ calls (world p') = calls (world p).

Definition inviting {A} (c : Script A) : Prop := ∀ p, guests_added p (c p).2.

End Script.

Notation "'let+' x ':=' c 'in' k" := (sbind c (λ x, k))
  (at level 10, x name, c at level 100, k at level 200).
Notation "c '>>+' k" := (sbind c (λ _, k))
  (at level 100, k at level 200, right associativity).

(** *** Sample data *)

#[local] Existing Instance Civil_TimeValues.
#[local] Existing Instance Civil_JsDates.

(** The platform of [w], with no form, trigger or guest. *)
Definition platform_of (w : World) : Platform :=
  {| world := w; form_data := ∅; triggers := []; destinations := []; guests := ∅ |}.

(** A response that chooses the keynote of [new_world]. *)
Definition sample_response : gmap string (list string) :=
  {[ "Name" := ["Ann"]; "Email" := ["ann@example.com"];
     "10:00:00 23/12/2019" := ["Keynote"] ]}.

(** A response that chooses nothing. *)
Definition empty_response : gmap string (list string) :=
  {[ "Name" := ["Ann"]; "Email" := ["ann@example.com"] ]}.

(** The schedule of [same_day_values]. *)
Definition same_day_schedule : list (string * list (string * list JsVal)) :=
  [("23/12/2019", [("10:00:00", [JStr "T1"; JStr "T2"]); ("11:00:00", [JStr "T3"])])].

(** A platform whose stored form holds questions of an earlier run. *)
Definition form_platform : Platform :=
  {| world := linked_world;
     form_data :=
       {["form" := mkForm "Registration"
                     [TextItem "Name" true;
                      SessionItem (SectionHeaderItem "Sessions for 22/12/2019");
                      SessionItem (MultipleChoiceItem "09:00:00 22/12/2019" [JStr "T0"]);
                      TextItem "Email" true]]};
     triggers := [mkTrigger "onFormSubmit" "ss"];
     destinations := [("form", "ss")];
     guests := ∅ |}.

End Registration.

(** ** The timesheet script *)
Module Timesheet.

(** *** JavaScript numbers

    The script adds and multiplies cell values.  The model is parametric in
    the numbers and their conversions, so what is proved of the arithmetic
    holds of IEEE doubles as of any other reading. *)
Class JsNumber := {
  num : Type;
  num_eq_dec :: EqDecision num;
  nzero : num;                       (* the literal 0 *)
  nadd : num → num → num;            (* number + number *)
  nmul : num → num → num;            (* number * number *)
  num_of_bool : bool → num;          (* ToNumber of a boolean *)
  num_to_string : num → string;      (* ToString of a number *)
  string_to_num : string → num       (* ToNumber of a string *)
}.

Section Script.
Context `{JsNumber}.

(** What [getValue] returns.  A [Date] is given by its rendering as a
    string and its time value, which is all that [+] and [*] use of it. *)
Inductive Cell :=
| CStr (s : string)
| CNum (n : num)
| CBool (b : bool)
| CDate (text : string) (time : num).

Definition to_string (c : Cell) : string :=
  match c with
  | CStr s => s
  | CNum n => num_to_string n
  | CBool true => "true"
  | CBool false => "false"
  | CDate text _ => text
  end.

Definition to_number (c : Cell) : num :=
  match c with
  | CStr s => string_to_num s
  | CNum n => n
  | CBool b => num_of_bool b
  | CDate _ time => time
  end.

(** The primitive of a value is a string for strings and dates. *)
Definition is_stringish (c : Cell) : bool :=
  match c with
  | CStr _ | CDate _ _ => true
  | CNum _ | CBool _ => false
  end.

(** [a + b]: concatenation as soon as one primitive is a string. *)
Definition js_add (a b : Cell) : Cell :=
  if is_stringish a || is_stringish b
  then CStr (to_string a ++ to_string b)
  else CNum (nadd (to_number a) (to_number b)).

(** [a * b] *)
Definition js_mul (a b : Cell) : Cell :=
  CNum (nmul (to_number a) (to_number b)).

(** [c == 'LITERAL'] for the four literals of the script, none of which
    reads as a number or as the rendering of a date: only the very string
    is equal to it. *)
Definition loose_eq (c : Cell) (literal : string) : bool :=
  match c with
  | CStr s => bool_decide (s = literal)
  | _ => false
  end.

(** *** The sheet: its non-empty cells by (row, column), from 1. *)

Definition getValue (sheet : gmap (nat * nat) Cell) (i j : nat) : Cell :=
  default (CStr "") (sheet !! (i, j)).

(** Writing the empty string empties the cell. *)
Definition setValue (i j : nat) (v : Cell) (sheet : gmap (nat * nat) Cell)
    : gmap (nat * nat) Cell :=
  match v with
  | CStr EmptyString => delete (i, j) sheet
  | _ => <[(i, j) := v]> sheet
  end.

Definition getLastRow (sheet : gmap (nat * nat) Cell) : nat :=
  max_list ((λ kv, kv.1.1) <$> map_to_list sheet).

Definition getLastColumn (sheet : gmap (nat * nat) Cell) : nat :=
  max_list ((λ kv, kv.1.2) <$> map_to_list sheet).

Definition shift_after (c : nat) (k : nat * nat) : nat * nat :=
  if decide (c < k.2) then (k.1, S k.2) else k.

(** The columns right of [c] move one place to the right. *)
Definition insertColumnAfter (c : nat) (sheet : gmap (nat * nat) Cell)
    : gmap (nat * nat) Cell :=
  kmap (shift_after c) sheet.

(** *** The script *)

Definition HRS_START : nat := 4.
Definition HRS_END : nat := 8.
Definition HRLY_PAY_COLUMN : nat := 9.
Definition APPROVAL_COLUMN : nat := 11.
Definition EMAIL_COLUMN : nat := 3.

(** A call of [MailApp.sendEmail(email, subject, message)].  [mail_row] is
    the row the loop is at; it labels the call and is no part of it.  A
    [var] that has not been assigned is [undefined], here [None]. *)
Record Mail := mkMail {
  mail_row : nat;
  mail_to : Cell;
  mail_subject : option string;
  mail_message : option string
}.

(** What [sendEmails] carries from one turn of its loop to the next: the
    sheet, the mails sent, and the function-scoped [message], [subject]. *)
Record SendState := mkSend {
  st_sheet : gmap (nat * nat) Cell;
  st_outbox : list Mail;
  st_message : option string;
  st_subject : option string
}.

(** One turn of the loop of [sendEmails], at row [i]. *)
Definition sendEmails_row (lastCol : nat) (st : SendState) (i : nat) : SendState :=
  let sheet := st_sheet st in
  let notifiedStatus := getValue sheet i lastCol in
  if loose_eq notifiedStatus "NOTIFIED" then st
  else
    let email := getValue sheet i 3 in
    let dropdownValue := getValue sheet i APPROVAL_COLUMN in
    let assigned :=
      if loose_eq dropdownValue "APPROVED"
      then Some (Some "Your timesheet has been approved", Some "TimeSheet Approval")
      else if loose_eq dropdownValue "NOT APPROVED"
      then Some (Some "NOT APPROVED", Some "TimeSheet not Approved")
      else if loose_eq dropdownValue "IN PROGRESS"
      then None
      else Some (st_message st, st_subject st) in
    match assigned with
    | None => st
    | Some (message, subject) =>
        {| st_sheet := setValue i lastCol (CStr "NOTIFIED") sheet;
           st_outbox := (st_outbox st ++ [mkMail i email subject message])%list;
           st_message := message;
           st_subject := subject |}
    end.

(** [sendEmails], from a sheet and the mails sent so far. *)
Definition sendEmails (sheet : gmap (nat * nat) Cell) (outbox : list Mail)
    : gmap (nat * nat) Cell * list Mail :=
  let lastRow := getLastRow sheet in
  let lastCol := getLastColumn sheet in
  let st := foldl (sendEmails_row lastCol) (mkSend sheet outbox None None)
              (seq 2 (lastRow - 1)) in
  (st_sheet st, st_outbox st).

(** One turn of the outer loop of [calculatePay], at row [i]. *)
Definition calculatePay_row (lastCol : nat) (sheet : gmap (nat * nat) Cell) (i : nat)
    : gmap (nat * nat) Cell :=
  let numHrs :=
    foldl (λ numHrs j, js_add numHrs (getValue sheet i j)) (CNum nzero)
      (seq HRS_START (HRS_END + 1 - HRS_START)) in
  let hrlyRate := getValue sheet i HRLY_PAY_COLUMN in
  let weeklyPay := js_mul numHrs hrlyRate in
  setValue i (lastCol + 1) weeklyPay sheet.

Definition calculatePay (sheet : gmap (nat * nat) Cell) : gmap (nat * nat) Cell :=
  let lastCol := getLastColumn sheet in
  let lastRow := getLastRow sheet in
  let sheet := insertColumnAfter lastCol sheet in
  let sheet := setValue 1 (lastCol + 1) (CStr "WEEKLY PAY") sheet in
  foldl (calculatePay_row lastCol) sheet (seq 2 (lastRow - 1)).

(** [addApprovalColumn].  The model keeps the values of the cells: the
    background colour and the data-validation rule the function gives the
    new cells are left out (the values it writes satisfy the rule). *)
Definition addApprovalColumn (sheet : gmap (nat * nat) Cell) : gmap (nat * nat) Cell :=
  let lastCol := getLastColumn sheet in
  let lastRow := getLastRow sheet in
  let sheet := insertColumnAfter lastCol sheet in
  let sheet := setValue 1 (lastCol + 1) (CStr "APPROVAL") sheet in
  let sheet :=
    foldl (λ sheet i, setValue i (lastCol + 1) (CStr "IN PROGRESS") sheet) sheet
      (seq 2 (lastRow - 1)) in
  let sheet := insertColumnAfter APPROVAL_COLUMN sheet in
  let sheet := setValue 1 (APPROVAL_COLUMN + 1) (CStr "NOTIFIED STATUS") sheet in
  foldl (λ sheet i, setValue i (APPROVAL_COLUMN + 1) (CStr "NOT NOTIFIED") sheet) sheet
    (seq 2 (lastRow - 1)).

(** *** Notions used to state the properties *)

(** The mails of a list that were sent at row [i]. *)
Definition mails_of_row (i : nat) (l : list Mail) : list Mail :=
  filter (λ m, mail_row m = i) l.

(** The value [calculatePay] computes for row [i]: [weeklyPay]. *)
Definition pay_of (sheet : gmap (nat * nat) Cell) (i : nat) : Cell :=
  js_mul
    (foldl (λ numHrs j, js_add numHrs (getValue sheet i j)) (CNum nzero)
       (seq HRS_START (HRS_END + 1 - HRS_START)))
    (getValue sheet i HRLY_PAY_COLUMN).

(** The amount a cell stands for in a sum: its number, and nothing for a
    cell that holds no number. *)
Definition cell_amount (c : Cell) : num :=
  match c with
  | CNum n => n
  | _ => nzero
  end.

(** Weekly pay as the specification words it: the sum of the hour cells
    times the hourly rate. *)
Definition weekly_pay_spec (sheet : gmap (nat * nat) Cell) (i : nat) : num :=
  nmul
    (foldl (λ acc j, nadd acc (cell_amount (getValue sheet i j))) nzero
       (seq HRS_START (HRS_END + 1 - HRS_START)))
    (cell_amount (getValue sheet i HRLY_PAY_COLUMN)).

(** A row the loop of [sendEmails] passes over: it is marked as notified,
    or its approval is in progress. *)
Definition quiet (lastCol : nat) (sheet : gmap (nat * nat) Cell) (i : nat) : Prop :=
  loose_eq (getValue sheet i lastCol) "NOTIFIED" = true ∨
  loose_eq (getValue sheet i APPROVAL_COLUMN) "IN PROGRESS" = true.

(** The sheet that holds the given rows, from cell (1, 1). *)
Definition sheet_of_rows (rows : list (list Cell)) : gmap (nat * nat) Cell :=
  foldr (λ c sheet, setValue c.1.1 c.1.2 c.2 sheet) ∅
    (concat (imap (λ i row, imap (λ j c, (S i, S j, c)) row) rows)).

End Script.

(** *** Integers as numbers, for worked examples

    Integer-valued numbers and NaN; of the numeric strings only signed
    decimal integers are read. *)
Inductive ZNum := ZFin (z : Z) | ZNaN.

#[global] Instance ZNum_eq_dec : EqDecision ZNum.
Proof. solve_decision. Defined.

Definition znum_add (a b : ZNum) : ZNum :=
  match a, b with
  | ZFin x, ZFin y => ZFin (x + y)
  | _, _ => ZNaN
  end.

Definition znum_mul (a b : ZNum) : ZNum :=
  match a, b with
  | ZFin x, ZFin y => ZFin (x * y)
  | _, _ => ZNaN
  end.

Definition znum_to_string (a : ZNum) : string :=
  match a with
  | ZFin x => pretty x
  | ZNaN => "NaN"
  end.

Fixpoint digits_to_Z (s : string) (acc : Z) : option Z :=
  match s with
  | EmptyString => Some acc
  | String a s' =>
      if Conference.is_digit a
      then digits_to_Z s' (10 * acc + (Z.of_nat (nat_of_ascii a) - 48))%Z
      else None
  end.

Definition znum_of_string (s : string) : ZNum :=
  match s with
  | EmptyString => ZFin 0
  | String "-" (String a s') =>
      match digits_to_Z (String a s') 0 with Some z => ZFin (- z) | None => ZNaN end
  | String "+" (String a s') =>
      match digits_to_Z (String a s') 0 with Some z => ZFin z | None => ZNaN end
  | _ => match digits_to_Z s 0 with Some z => ZFin z | None => ZNaN end
  end.

#[global] Instance ZNum_JsNumber : JsNumber := {|
  num := ZNum;
  nzero := ZFin 0;
  nadd := znum_add;
  nmul := znum_mul;
  num_of_bool := λ b, ZFin (if b then 1 else 0);
  num_to_string := znum_to_string;
  string_to_num := znum_of_string
|}.

(** *** Sample data *)

Definition hours_header : list Cell :=
  [CStr "Timestamp"; CStr "Name"; CStr "Email"; CStr "Mon"; CStr "Tue"; CStr "Wed";
   CStr "Thu"; CStr "Fri"; CStr "Rate"].

Definition hours_row (name : string) (tue : Cell) : list Cell :=
  [CStr "1 Jan"; CStr name; CStr (name ++ "@example.com"); CNum (ZFin 8); tue;
   CNum (ZFin 8); CNum (ZFin 8); CNum (ZFin 8); CNum (ZFin 10)].

(** Two employees; the second has left Tuesday blank. *)
Definition pay_sheet : gmap (nat * nat) Cell :=
  sheet_of_rows [hours_header; hours_row "ann" (CNum (ZFin 8)); hours_row "bob" (CStr "")].

Definition approval_row (name : string) (approval notified : string) : list Cell :=
  (hours_row name (CNum (ZFin 8)) ++ [CNum (ZFin 400); CStr approval; CStr notified])%list.

(** Approved and not yet notified; approval cell empty; approval cell
    with a text of its own; approval in progress; already notified. *)
Definition approval_sheet : gmap (nat * nat) Cell :=
  sheet_of_rows
    [(hours_header ++ [CStr "WEEKLY PAY"; CStr "APPROVAL"; CStr "NOTIFIED STATUS"])%list;
     approval_row "ann" "APPROVED" "NOT NOTIFIED";
     approval_row "bob" "" "NOT NOTIFIED";
     approval_row "cyd" "ON HOLD" "NOT NOTIFIED";
     approval_row "dee" "IN PROGRESS" "NOT NOTIFIED";
     approval_row "eve" "NOT APPROVED" "NOTIFIED"].

End Timesheet.

(** ** Properties of the conference script *)
Module ConferenceFacts.
Import Conference.
Local Open Scope list_scope.
Local Open Scope nat_scope.

(** Proves [sheet_ok] of a sheet given by its rows. *)
Ltac sheet_ok_now :=
  unfold sheet_ok; simpl;
  repeat (apply Forall_cons_2; [split; [split; [by eexists|simpl; lia]|by eexists]|]);
  apply Forall_nil_2.

Section Facts.
Context {time_values : TimeValues} {dates : JsDates}.

(** *** Worlds and computations *)

Lemma world_eq w w' :
  props w = props w' → calendars w = calendars w' → forms w = forms w' →
  sheet w = sheet w' → ui w = ui w' → calls w = calls w' → outage w = outage w' →
  w = w'.
Proof. destruct w, w'; simpl; congruence. Qed.

Lemma bind_ok {A B} (c : Host A) (k : A → Host B) w a w' :
  c w = (inr a, w') → bind c k w = k a w'.
Proof. unfold bind. by intros ->. Qed.

(** A run, by its result. *)
Lemma run_result {A} (c : Host A) (w : World) (r : Exn + A) :
  (c w).1 = r → c w = (r, (c w).2).
Proof. intros <-. by destruct (c w). Qed.

Lemma bind_inr {A B} (c : Host A) (k : A → Host B) w b w' :
  bind c k w = (inr b, w') → ∃ a w1, c w = (inr a, w1) ∧ k a w1 = (inr b, w').
Proof.
  unfold bind. destruct (c w) as [[e|a] w1]; [done|]. intros Hk. by exists a, w1.
Qed.

Lemma service_up {A} (f : Host A) w :
  outage w = None → (calendar_service >> f) w = f w.
Proof. unfold bind, calendar_service. by intros ->. Qed.

Lemma new_event_id_fresh events :
  new_event_id events ≠ "" ∧ events !! new_event_id events = None.
Proof.
  unfold new_event_id.
  pose proof (is_fresh ({[""]} ∪ dom events)) as Hf.
  split.
  - intros Heq. apply Hf. rewrite Heq. set_solver.
  - apply not_elem_of_dom. set_solver.
Qed.

Lemma find_event_Some events arg id :
  find_event events arg = Some id →
  arg = JStr id ∧ id ≠ "" ∧ is_Some (events !! id).
Proof.
  destruct arg as [|s| | |]; simpl; try done.
  case_decide; [done|].
  destruct (events !! s) eqn:He; [|done].
  intros [= <-]. by rewrite He.
Qed.

Lemma find_event_present events id :
  id ≠ "" → is_Some (events !! id) → find_event events (JStr id) = Some id.
Proof.
  intros Hne [e He]. simpl. rewrite decide_False by done. by rewrite He.
Qed.

(** *** The two identifiers of an event *)

Lemma append_cons a (s t : string) : String a s +:+ t = String a (s +:+ t).
Proof. reflexivity. Qed.

Lemma length_append (s t : string) :
  String.length (s +:+ t) = String.length s + String.length t.
Proof. induction s as [|a s IH]; [done|]. rewrite append_cons. simpl. by rewrite IH. Qed.

Lemma strip_suffix_Some suffix : ∀ s k, strip_suffix suffix s = Some k → s = k +:+ suffix.
Proof.
  induction s as [|a s IH]; intros k; simpl.
  - case_decide; [|done]. intros [= <-]. by subst.
  - case_decide as Heq; [intros [= <-]; by subst|].
    destruct (strip_suffix suffix s) as [k'|] eqn:Hs; [|done].
    simpl. intros [= <-]. rewrite append_cons. f_equal. by apply IH.
Qed.

Lemma strip_suffix_app suffix : ∀ k, strip_suffix suffix (k +:+ suffix) = Some k.
Proof.
  induction k as [|a k IH].
  - change ("" +:+ suffix) with suffix. destruct suffix; [done|].
    cbn [strip_suffix]. by rewrite decide_True.
  - rewrite append_cons. simpl. rewrite decide_False.
    + by rewrite IH.
    + intros Heq. apply (f_equal String.length) in Heq. simpl in Heq.
      rewrite length_append in Heq. lia.
Qed.

Lemma event_id_of_uid id : event_id_of (event_uid id) = id.
Proof. unfold event_id_of, event_uid. by rewrite strip_suffix_app. Qed.

Lemma event_uid_inj id1 id2 : event_uid id1 = event_uid id2 → id1 = id2.
Proof. intros Heq. by rewrite <- (event_id_of_uid id1), Heq, event_id_of_uid. Qed.

(** An identifier either is the id of its event or ends in [@google.com]. *)
Lemma event_id_of_cases s : event_id_of s = s ∨ s = event_uid (event_id_of s).
Proof.
  unfold event_id_of. destruct (strip_suffix "@google.com" s) as [k|] eqn:Hs; [|by left].
  right. by apply strip_suffix_Some in Hs.
Qed.

Lemma fresh_string_pretty (xs : list string) : ∃ n : nat, infinite_fresh xs = pretty n.
Proof.
  unfold infinite_fresh, string_infinite, search_infinite.
  cut (∀ n (a : Acc (λ n1 n2 : nat, n2 < n1 ∧ pretty (n1 - 1) ∈ xs) n),
         ∃ m : nat, Fix_F (λ _, string) (search_infinite_go pretty xs) a = pretty m).
  { intros Hcut. apply Hcut. }
  fix FIX 2. intros n [acc]. cbn [Fix_F]. unfold search_infinite_go at 1.
  destruct (decide _); [apply FIX|by exists n].
Qed.

Lemma last_char_app (s : string) a t : last_char (s +:+ String a t) = last_char (String a t).
Proof.
  induction s as [|b s IH]; [done|].
  rewrite append_cons. cbn [last_char]. by rewrite IH.
Qed.

Lemma pretty_N_go_last x : ∀ a s,
  last_char (pretty_N_go x (String a s)) = last_char (String a s).
Proof.
  induction (N.lt_wf_0 x) as [x _ IH]. intros a s.
  destruct (decide (x = 0)%N) as [->|Hx].
  - by rewrite pretty_N_go_0.
  - rewrite pretty_N_go_step by lia.
    by rewrite IH by (apply N.div_lt; lia).
Qed.

Lemma pretty_nat_last (n : nat) :
  ∃ d, (d < 10)%N ∧ last_char (pretty n) = Some (pretty_N_char d).
Proof.
  unfold pretty, pretty_nat, pretty, pretty_N.
  case_decide as Hn.
  - by exists 0%N.
  - rewrite pretty_N_go_step by lia.
    rewrite pretty_N_go_last. eexists. split; [|done]. by apply N.mod_lt.
Qed.

Lemma pretty_N_char_not_m d : (d < 10)%N → pretty_N_char d ≠ "m"%char.
Proof.
  intros Hd. destruct d as [|p]; [done|].
  do 4 (try (destruct p as [p|p|]; try done; try lia)).
Qed.

(** The ids the service issues are decimal numbers: none ends in
    [@google.com]. *)
Lemma fresh_plain (X : gset string) : strip_suffix "@google.com" (fresh X) = None.
Proof.
  destruct (strip_suffix "@google.com" (fresh X)) as [k|] eqn:Hs; [|done].
  apply strip_suffix_Some in Hs.
  destruct (fresh_string_pretty (elements X)) as [n Hn].
  change (fresh X) with (infinite_fresh (elements X)) in Hs. rewrite Hn in Hs.
  destruct (pretty_nat_last n) as (d & Hd & Hlast).
  rewrite Hs in Hlast.
  rewrite (last_char_app k "@" "google.com") in Hlast.
  injection Hlast as Hm. by destruct (pretty_N_char_not_m d Hd).
Qed.

Lemma new_event_id_plain events : event_id_of (new_event_id events) = new_event_id events.
Proof. unfold event_id_of, new_event_id. by rewrite fresh_plain. Qed.

Lemma resolve_event_Some events arg id :
  resolve_event events arg = Some id →
  ∃ s, arg = JStr s ∧ event_id_of s = id ∧ id ≠ "" ∧ is_Some (events !! id).
Proof.
  destruct arg as [|s| | |]; try done. unfold resolve_event.
  intros Hf. apply find_event_Some in Hf as (Heq & Hne & Hin).
  injection Heq as Heq. by exists s.
Qed.

Lemma resolve_event_present events s :
  event_id_of s ≠ "" → is_Some (events !! event_id_of s) →
  resolve_event events (JStr s) = Some (event_id_of s).
Proof. intros Hne Hin. unfold resolve_event. by apply find_event_present. Qed.

Lemma resolve_event_uid events id :
  id ≠ "" → is_Some (events !! id) → resolve_event events (JStr (event_uid id)) = Some id.
Proof.
  intros Hne Hin. rewrite <- (event_id_of_uid id) at 2.
  apply resolve_event_present; by rewrite event_id_of_uid.
Qed.

Lemma resolve_event_new events e :
  resolve_event (<[new_event_id events := e]> events) (JStr (new_event_id events))
    = Some (new_event_id events).
Proof.
  rewrite <- (new_event_id_plain events) at 3.
  apply resolve_event_present; rewrite new_event_id_plain.
  - apply new_event_id_fresh.
  - by rewrite lookup_insert_eq.
Qed.

Lemma resolve_event_empty events : resolve_event events (JStr "") = None.
Proof. done. Qed.

(** *** The script when no call fails *)

Lemma getEventById_up w c events i arg :
  outage w = None → calendars w !! c = Some events →
  Calendar_getEventById (Some c) i arg w =
    (inr (pair c <$> resolve_event events arg),
     with_call (GetEventById i arg (resolve_event events arg)) w).
Proof.
  intros Ho Hc. unfold Calendar_getEventById.
  rewrite service_up by done. by rewrite Hc.
Qed.

Lemma insert_up w c events i p :
  outage w = None → calendars w !! c = Some events →
  Calendar_Events_insert i p c w =
    (inr (new_event_id events),
     with_call (EventsInsert i p c (new_event_id events))
       (with_calendars <[c := <[new_event_id events := event_of_payload p]> events]> w)).
Proof.
  intros Ho Hc. unfold Calendar_Events_insert.
  rewrite service_up by done. by rewrite Hc.
Qed.

Lemma event_update_up w c id events e f call :
  outage w = None → calendars w !! c = Some events → events !! id = Some e →
  event_update (c, id) f call w =
    (inr tt, with_call call (with_calendars <[c := <[id := f e]> events]> w)).
Proof.
  intros Ho Hc He. unfold event_update.
  rewrite service_up by done. simpl. by rewrite Hc, He.
Qed.

Lemma row_payload_casts session p :
  row_payload session = Some p →
  joinDateAndTime_ (js_index session 1) (js_index session 2)
    = inr (Some (start_dateTime p)) ∧
  joinDateAndTime_ (js_index session 1) (js_index session 3)
    = inr (Some (end_dateTime p)) ∧
  summary p = js_index session 0 ∧ payload_location p = js_index session 4.
Proof.
  unfold row_payload.
  destruct (joinDateAndTime_ _ (js_index session 2)) as [|[start|]]; [done| |done].
  destruct (joinDateAndTime_ _ (js_index session 3)) as [|[finish|]]; [done| |done].
  by intros [= <-].
Qed.

(** One turn of the loop is one step of [reconcile]. *)
Lemma setUpCalendar_session_up w calId events i session p :
  outage w = None → calendars w !! calId = Some events →
  row_payload session = Some p →
  setUpCalendar_session (Some calId) calId i session w =
    (inr (js_array_set session 5 (JStr (event_uid (reconciled_id events session)))),
     advance calId (<[reconciled_id events session := event_of_payload p]> events)
       (reconcile_calls calId i session p events) w).
Proof.
  intros Ho Hc Hp.
  destruct (row_payload_casts _ _ Hp) as (Hs & Hf & Ht & Hl).
  destruct p as [title start finish location]; simpl in Hs, Hf, Ht, Hl; subst title location.
  unfold setUpCalendar_session, reconciled_id, reconcile_calls.
  cbv zeta. rewrite Hs, Hf.
  do 2 (erewrite bind_ok by reflexivity).
  erewrite bind_ok by (by apply getEventById_up).
  destruct (resolve_event events (js_index session 5)) as [id|] eqn:Hfind;
    cbn [fmap option_fmap option_map]; cbv beta iota.
  - destruct (resolve_event_Some _ _ _ Hfind) as (u & _ & _ & _ & [e He]).
    erewrite bind_ok; last first.
    { erewrite bind_ok; last by (eapply event_update_up; [done|done|exact He]).
      erewrite bind_ok; last first.
      { eapply event_update_up; [done| |]; simpl.
        - apply lookup_insert_eq.
        - apply lookup_insert_eq. }
      erewrite bind_ok; last first.
      { eapply event_update_up; [done| |]; simpl.
        - apply lookup_insert_eq.
        - apply lookup_insert_eq. }
      reflexivity. }
    cbv beta iota.
    erewrite bind_ok; last first.
    { eapply event_update_up; [done| |]; simpl.
      - apply lookup_insert_eq.
      - apply lookup_insert_eq. }
    unfold ret, advance, update_calls. f_equal.
    apply world_eq; simpl; try done.
    + by rewrite !insert_insert_eq.
    + by rewrite <- !app_assoc.
  - destruct (new_event_id_fresh events) as [Hne Hnew].
    erewrite bind_ok; last first.
    { do 2 (erewrite bind_ok by reflexivity).
      erewrite bind_ok by (by apply insert_up).
      eapply getEventById_up; [done|]. simpl. apply lookup_insert_eq. }
    rewrite resolve_event_new.
    cbn [fmap option_fmap option_map]. cbv beta iota.
    erewrite bind_ok; last first.
    { eapply event_update_up; [done| |]; simpl.
      - apply lookup_insert_eq.
      - apply lookup_insert_eq. }
    unfold ret, advance, create_calls. f_equal.
    apply world_eq; simpl; try done.
    + by rewrite !insert_insert_eq.
    + by rewrite <- !app_assoc.
Qed.

Lemma advance_same w calId events :
  calendars w !! calId = Some events → advance calId events [] w = w.
Proof.
  intros Hc. destruct w as [pr cals fm sh u cs o]; unfold advance; simpl in *.
  by rewrite insert_id, app_nil_r.
Qed.

Lemma advance_advance w calId events1 events2 cs1 cs2 :
  advance calId events2 cs2 (advance calId events1 cs1 w) =
  advance calId events2 (cs1 ++ cs2) w.
Proof.
  unfold advance; simpl. by rewrite insert_insert_eq, app_assoc.
Qed.

Lemma reconcile_cons calId i s rest events rows' events' cs :
  reconcile calId i (s :: rest) events = Some (rows', events', cs) →
  ∃ p rest' cs',
    row_payload s = Some p ∧
    reconcile calId (S i) rest (<[reconciled_id events s := event_of_payload p]> events)
      = Some (rest', events', cs') ∧
    rows' = js_array_set s 5 (JStr (event_uid (reconciled_id events s))) :: rest' ∧
    cs = (reconcile_calls calId i s p events ++ cs')%list.
Proof.
  simpl. destruct (row_payload s) as [p|]; [|done]. simpl.
  destruct (reconcile calId (S i) rest _) as [[[rest' ev'] cs']|] eqn:Hr; [|done].
  simpl. intros [= <- <- <-]. by exists p, rest', cs'.
Qed.

(** The loop of [setUpCalendar_] computes [reconcile]. *)
Lemma setUpCalendar_loop_up sessions : ∀ w calId events i rows' events' cs,
  outage w = None → calendars w !! calId = Some events →
  reconcile calId i sessions events = Some (rows', events', cs) →
  setUpCalendar_loop (Some calId) calId i sessions w =
    (inr rows', advance calId events' cs w).
Proof.
  induction sessions as [|s rest IH]; intros w calId events i rows' events' cs Ho Hc Hr.
  - simpl in Hr. injection Hr as <- <- <-. simpl. unfold ret.
    by rewrite advance_same.
  - apply reconcile_cons in Hr as (p & rest' & cs' & Hp & Hr & -> & ->).
    cbn [setUpCalendar_loop].
    erewrite bind_ok by (by eapply setUpCalendar_session_up).
    erewrite bind_ok; last first.
    { eapply IH; [done| |exact Hr]. simpl. apply lookup_insert_eq. }
    unfold ret. by rewrite advance_advance.
Qed.

Lemma calendar_choice_cases w :
  (∃ calId events, props w !! "calendarId" = Some calId ∧
      calendars w !! calId = Some events ∧ calendar_choice w = (calId, events, [])) ∨
  ((props w !! "calendarId" = None ∨
    ∃ calId, props w !! "calendarId" = Some calId ∧ calendars w !! calId = None) ∧
   calendar_choice w =
     (fresh (dom (calendars w)), ∅,
      [CreateCalendar "LUMICKS Academy Calendar" (fresh (dom (calendars w)))])).
Proof.
  unfold calendar_choice.
  destruct (props w !! "calendarId") as [c|] eqn:Hp; [|right; eauto].
  destruct (calendars w !! c) as [evs|] eqn:Hc; [left|right]; eauto.
Qed.

(** [setUpCalendar_] on the values of the sheet, when no call fails and
    the data it writes back has the shape of the range. *)
Lemma syncCalendar_up w rows' events' cs :
  outage w = None →
  reconcile (calendar_choice w).1.1 1 (drop 1 (sheet w)) (calendar_choice w).1.2
    = Some (rows', events', cs) →
  length <$> rows' = length <$> drop 1 (sheet w) →
  syncCalendar w =
    (inr tt,
     with_sheet (take 1 (sheet w) ++ rows')
       (advance (calendar_choice w).1.1 events' ((calendar_choice w).2 ++ cs)
          (with_props <["calendarId" := (calendar_choice w).1.1]> w))).
Proof.
  intros Ho Hr Hlen.
  assert (Hshape : length <$> (take 1 (sheet w) ++ rows') = length <$> sheet w).
  { rewrite fmap_app, Hlen, <- fmap_app. by rewrite take_drop. }
  unfold syncCalendar, setUpCalendar_.
  erewrite bind_ok by reflexivity.
  erewrite bind_ok by reflexivity.
  destruct (calendar_choice_cases w) as
    [(calId & events & Hp & Hc & Hch)|[Hnone Hch]]; rewrite Hch in *; simpl in Hr |- *.
  - rewrite Hp.
    assert (Hget : CalendarApp_getCalendarById calId w = (inr (Some calId), w)).
    { unfold CalendarApp_getCalendarById. rewrite service_up by done. by rewrite Hc. }
    erewrite bind_ok by exact Hget.
    erewrite bind_ok; last first.
    { erewrite bind_ok by exact Hget. reflexivity. }
    simpl.
    erewrite bind_ok by (by eapply setUpCalendar_loop_up).
    unfold Range_setValues.
    rewrite decide_True by (by simpl).
    f_equal. destruct w as [pr cals fm sh u cs0 o]; unfold with_sheet, advance, with_props;
      simpl in *. f_equal. by rewrite insert_id.
  - set (id := fresh (dom (calendars w))) in *.
    assert (Hnew : CalendarApp_createCalendar "LUMICKS Academy Calendar" w =
              (inr id, with_call (CreateCalendar "LUMICKS Academy Calendar" id)
                         (with_calendars <[id := ∅]> w))).
    { unfold CalendarApp_createCalendar. by rewrite service_up. }
    assert (Hcreate :
      (let* calId := CalendarApp_createCalendar "LUMICKS Academy Calendar" in
       PropertiesService_setProperty "calendarId" calId >> ret (Some calId, calId)) w =
      (inr (Some id, id),
       with_props <["calendarId" := id]>
         (with_call (CreateCalendar "LUMICKS Academy Calendar" id)
            (with_calendars <[id := ∅]> w)))).
    { erewrite bind_ok by exact Hnew. reflexivity. }
    assert (Hbranch :
      (props w !! "calendarId" = None ∨
       ∃ calId, props w !! "calendarId" = Some calId ∧ calendars w !! calId = None) →
      (match props w !! "calendarId" with
       | Some calId => CalendarApp_getCalendarById calId
       | None => ret None
       end) w = (inr None, w)).
    { intros [Hp|(c & Hp & Hc)]; rewrite Hp; [done|].
      unfold CalendarApp_getCalendarById. rewrite service_up by done. by rewrite Hc. }
    erewrite bind_ok by (by apply Hbranch).
    erewrite bind_ok; last first.
    { destruct (props w !! "calendarId"); exact Hcreate. }
    simpl.
    erewrite bind_ok; last first.
    { eapply setUpCalendar_loop_up; [done| |exact Hr]. simpl. apply lookup_insert_eq. }
    unfold Range_setValues.
    rewrite decide_True by (by simpl).
    f_equal. destruct w as [pr cals fm sh u cs0 o];
      unfold with_sheet, advance, with_props, with_call, with_calendars; simpl in *.
    f_equal.
    + by rewrite insert_insert_eq.
    + by rewrite <- app_assoc.
Qed.

(** *** Arrays and payloads *)

Lemma js_array_set_length s v : 5 < length s → length (js_array_set s 5 v) = length s.
Proof. intros Hlen. unfold js_array_set. rewrite decide_True by done. apply length_insert. Qed.

Lemma js_array_set_in_range s v : 5 < length s → js_array_set s 5 v = <[5 := v]> s.
Proof. intros Hlen. unfold js_array_set. by rewrite decide_True. Qed.

Lemma js_index_set_eq s v : 5 < length s → js_index (js_array_set s 5 v) 5 = v.
Proof.
  intros Hlen. unfold js_index. rewrite js_array_set_in_range by done.
  by rewrite list_lookup_insert_eq.
Qed.

Lemma js_index_set_ne s v k : 5 < length s → k ≠ 5 →
  js_index (js_array_set s 5 v) k = js_index s k.
Proof.
  intros Hlen Hk. unfold js_index. rewrite js_array_set_in_range by done.
  by rewrite list_lookup_insert_ne.
Qed.

Lemma js_array_set_same s v : 5 < length s → js_index s 5 = v → js_array_set s 5 v = s.
Proof.
  intros Hlen Hv. rewrite js_array_set_in_range by done.
  apply list_insert_id. unfold js_index in Hv.
  destruct (s !! 5) as [x|] eqn:Hx; [by simpl in Hv; subst|].
  apply lookup_ge_None in Hx. lia.
Qed.

Lemma row_payload_set s v : 5 < length s → row_payload (js_array_set s 5 v) = row_payload s.
Proof. intros Hlen. unfold row_payload. by rewrite !js_index_set_ne. Qed.

Lemma row_ok_set s v : row_ok s → row_ok (js_array_set s 5 v).
Proof.
  intros [Hp Hlen]. split.
  - by rewrite row_payload_set.
  - by rewrite js_array_set_length.
Qed.

Lemma session_ok_set s v : session_ok s → session_ok (js_array_set s 5 v).
Proof.
  intros [Hrow [d Hd]]. split; [by apply row_ok_set|].
  exists d. rewrite js_index_set_ne; [done|apply Hrow|done].
Qed.

Lemma sheet_ok_rows values : sheet_ok values → Forall row_ok (drop 1 values).
Proof. intros Hok. eapply Forall_impl; [exact Hok|]. by intros s [Hrow _]. Qed.

(** *** The loop as a function of the calendar *)

Lemma reconciled_id_present events s :
  reconciled_id events s ≠ "" ∧
  ∀ e, reconciled_id events s ∈ dom (<[reconciled_id events s := e]> events).
Proof.
  split; [|intros e; set_solver].
  unfold reconciled_id.
  destruct (resolve_event events (js_index s 5)) as [id|] eqn:Hf.
  - by apply resolve_event_Some in Hf as (u & _ & _ & ? & _).
  - apply new_event_id_fresh.
Qed.

Lemma reconcile_total calId sessions : ∀ i events,
  Forall row_ok sessions → is_Some (reconcile calId i sessions events).
Proof.
  induction sessions as [|s rest IH]; intros i events Hok; [by eexists|].
  apply Forall_cons in Hok as [[[p Hp] _] Hrest]. simpl. rewrite Hp. simpl.
  destruct (IH (S i) (<[reconciled_id events s := event_of_payload p]> events) Hrest)
    as [r Hr].
  rewrite Hr. by eexists.
Qed.

(** After the loop every row names an event of the calendar; the loop
    changes nothing of a row but its identifier cell, and no event is
    lost. *)
Lemma reconcile_settles calId sessions : ∀ i events rows' events' cs,
  Forall row_ok sessions →
  reconcile calId i sessions events = Some (rows', events', cs) →
  settled events' rows' ∧ dom events ⊆ dom events' ∧
  Forall row_ok rows' ∧
  length <$> rows' = length <$> sessions ∧
  sends_from i rows' = sends_from i sessions.
Proof.
  induction sessions as [|s rest IH]; intros i events rows' events' cs Hok Hr.
  - simpl in Hr. injection Hr as <- <- <-. repeat split; try done. constructor.
  - apply Forall_cons in Hok as [Hs Hrest].
    apply reconcile_cons in Hr as (p & rest' & cs' & Hp & Hr & -> & ->).
    destruct (IH _ _ _ _ _ Hrest Hr) as (Hset & Hdom & Hok' & Hlen & Hsends).
    destruct (reconciled_id_present events s) as [Hne Hin].
    pose proof Hs as [Hsp Hslen].
    split; [|split; [|split; [|split]]].
    + constructor; [|done].
      exists (reconciled_id events s). split; [by apply js_index_set_eq|].
      split; [done|]. specialize (Hin (event_of_payload p)). set_solver.
    + etrans; [|exact Hdom]. rewrite dom_insert. set_solver.
    + constructor; [by apply row_ok_set|done].
    + by rewrite !fmap_cons, js_array_set_length, Hlen.
    + simpl. by rewrite row_payload_set, Hsends.
Qed.

Lemma sent_app cs1 cs2 : sent (cs1 ++ cs2) = (sent cs1 ++ sent cs2)%list.
Proof. unfold sent. apply bind_app. Qed.

(** Created or updated, a row sends its payload. *)
Lemma reconcile_sent calId sessions : ∀ i events rows' events' cs,
  reconcile calId i sessions events = Some (rows', events', cs) →
  sent cs = sends_from i sessions.
Proof.
  induction sessions as [|s rest IH]; intros i events rows' events' cs Hr.
  - simpl in Hr. by injection Hr as <- <- <-.
  - apply reconcile_cons in Hr as (p & rest' & cs' & Hp & Hr & -> & ->).
    rewrite sent_app. simpl. rewrite Hp, (IH _ _ _ _ _ Hr). f_equal.
    unfold reconcile_calls. by destruct (resolve_event events (js_index s 5)).
Qed.

(** On rows that all name an event of the calendar the loop only updates:
    the rows stay as they are, and the trace is [steady_calls]. *)
Lemma reconcile_steady calId sessions : ∀ i events,
  Forall row_ok sessions → settled events sessions →
  ∃ events', reconcile calId i sessions events = Some (sessions, events', steady_calls i sessions)
             ∧ dom events' = dom events.
Proof.
  induction sessions as [|s rest IH]; intros i events Hok Hset; [by eexists|].
  apply Forall_cons in Hok as [[[p Hp] Hlen] Hrest].
  apply Forall_cons in Hset as [(id & Hid & Hne & Hin) Hset].
  assert (Hfind : resolve_event events (js_index s 5) = Some id).
  { rewrite Hid. apply resolve_event_uid; [done|]. by apply elem_of_dom. }
  assert (Hdom : dom (<[id := event_of_payload p]> events) = dom events).
  { rewrite dom_insert_L. set_solver. }
  destruct (IH (S i) (<[id := event_of_payload p]> events) Hrest) as (events' & Hr & Hd).
  { unfold settled in *. by rewrite Hdom. }
  exists events'. split; [|by rewrite Hd].
  simpl. rewrite Hp. simpl. unfold reconciled_id, reconcile_calls. rewrite Hfind, Hr. simpl.
  rewrite Hid, event_id_of_uid. by rewrite js_array_set_same.
Qed.

(** *** The trace of one row *)

Lemma calls_of_row_all i cs :
  Forall (λ c, call_row c = Some i) cs → calls_of_row i cs = cs.
Proof.
  unfold calls_of_row. induction 1 as [|c cs Hc _ IH]; [done|].
  rewrite filter_cons_True by done. by rewrite IH.
Qed.

Lemma calls_of_row_none i cs :
  Forall (λ c, call_row c ≠ Some i) cs → calls_of_row i cs = [].
Proof.
  unfold calls_of_row. induction 1 as [|c cs Hc _ IH]; [done|].
  by rewrite filter_cons_False.
Qed.

Lemma calls_of_row_app i cs1 cs2 :
  calls_of_row i (cs1 ++ cs2) = calls_of_row i cs1 ++ calls_of_row i cs2.
Proof. apply filter_app. Qed.

Lemma reconcile_calls_row calId i s p events :
  Forall (λ c, call_row c = Some i) (reconcile_calls calId i s p events).
Proof.
  unfold reconcile_calls, update_calls, create_calls.
  destruct (resolve_event events (js_index s 5)); repeat constructor.
Qed.

Lemma reconcile_rows_from calId sessions : ∀ i events rows' events' cs,
  reconcile calId i sessions events = Some (rows', events', cs) →
  Forall (λ c, ∃ k, call_row c = Some k ∧ i ≤ k) cs.
Proof.
  induction sessions as [|s rest IH]; intros i events rows' events' cs Hr.
  - simpl in Hr. injection Hr as <- <- <-. constructor.
  - apply reconcile_cons in Hr as (p & rest' & cs' & Hp & Hr & -> & ->).
    apply Forall_app. split.
    + eapply Forall_impl; [apply reconcile_calls_row|]. simpl. eauto.
    + eapply Forall_impl; [exact (IH _ _ _ _ _ Hr)|].
      simpl. intros c (k & Hk & Hle). exists k. split; [done|lia].
Qed.

Lemma reconcile_dom calId sessions : ∀ i events rows' events' cs,
  reconcile calId i sessions events = Some (rows', events', cs) →
  dom events ⊆ dom events'.
Proof.
  induction sessions as [|s rest IH]; intros i events rows' events' cs Hr.
  - simpl in Hr. by injection Hr as <- <- <-.
  - apply reconcile_cons in Hr as (p & rest' & cs' & Hp & Hr & -> & ->).
    etrans; [|exact (IH _ _ _ _ _ Hr)]. rewrite dom_insert. set_solver.
Qed.

(** What the loop does for the row at place [j]: the trace and the new
    row are those of one step of [reconcile], taken on the events
    [events_j] the calendar holds when the loop reaches the row. *)
Lemma reconcile_row calId sessions : ∀ i events rows' events' cs j s,
  reconcile calId i sessions events = Some (rows', events', cs) →
  sessions !! j = Some s →
  ∃ p events_j,
    row_payload s = Some p ∧ dom events ⊆ dom events_j ∧
    calls_of_row (i + j) cs = reconcile_calls calId (i + j) s p events_j ∧
    rows' !! j = Some (js_array_set s 5 (JStr (event_uid (reconciled_id events_j s)))) ∧
    reconciled_id events_j s ∈ dom events' ∧
    ∀ id, id ∈ dom events_j →
      id ∈ dom events ∨ ∃ k q, EventsInsert k q calId id ∈ cs.
Proof.
  induction sessions as [|s0 rest IH]; intros i events rows' events' cs j s Hr Hj;
    [done|].
  apply reconcile_cons in Hr as (p & rest' & cs' & Hp & Hr & -> & ->).
  pose proof (reconcile_rows_from _ _ _ _ _ _ _ Hr) as Hfrom.
  pose proof (reconcile_dom _ _ _ _ _ _ _ Hr) as Hdom.
  rewrite calls_of_row_app.
  destruct j as [|j]; simpl in Hj.
  - injection Hj as ->. exists p, events.
    rewrite Nat.add_0_r. repeat split; try done.
    + rewrite calls_of_row_all by apply reconcile_calls_row.
      rewrite calls_of_row_none; [by rewrite app_nil_r|].
      eapply Forall_impl; [exact Hfrom|]. simpl.
      intros c (k & Hk & Hle). rewrite Hk. intros [= ->]. lia.
    + apply Hdom. rewrite dom_insert. set_solver.
    + by left.
  - destruct (IH _ _ _ _ _ _ _ Hr Hj)
      as (q & events_j & Hq & Hsub & Hcalls & Hrow & Hin & Hfrom_j).
    exists q, events_j.
    replace (i + S j) with (S i + j) by lia.
    repeat split; try done.
    + etrans; [|exact Hsub]. rewrite dom_insert. set_solver.
    + rewrite calls_of_row_none; [done|].
      eapply Forall_impl; [apply reconcile_calls_row|]. simpl.
      intros c Hc. rewrite Hc. intros [= ?]. lia.
    + intros id Hid. destruct (Hfrom_j id Hid) as [Hold|(k & q' & Hins)].
      * rewrite dom_insert in Hold. apply elem_of_union in Hold as [Hnew|Hold]; [|by left].
        apply elem_of_singleton in Hnew as ->.
        unfold reconciled_id, reconcile_calls.
        destruct (resolve_event events (js_index s0 5)) as [id0|] eqn:Hf.
        -- left. apply resolve_event_Some in Hf as (u & _ & _ & _ & Hin0).
           by apply elem_of_dom.
        -- right. exists i, p. apply elem_of_app. left. unfold create_calls.
           apply list_elem_of_further, list_elem_of_here.
      * right. exists k, q'. apply elem_of_app. by right.
Qed.

Lemma resolve_event_mono events events' arg id :
  dom events ⊆ dom events' → resolve_event events arg = Some id →
  resolve_event events' arg = Some id.
Proof.
  intros Hsub Hf. apply resolve_event_Some in Hf as (u & -> & <- & Hne & Hin).
  apply resolve_event_present; [done|].
  apply elem_of_dom, Hsub, elem_of_dom, Hin.
Qed.

(** *** Nothing is deleted, and an aborted pass writes nothing *)

Lemma calendar_grows_refl w : calendar_grows w w.
Proof.
  split.
  - intros c events Hc. by exists events.
  - exists []. by rewrite app_nil_r.
Qed.

Lemma calendar_grows_trans w1 w2 w3 :
  calendar_grows w1 w2 → calendar_grows w2 w3 → calendar_grows w1 w3.
Proof.
  intros [Hc12 (cs12 & Hcs12 & Hd12)] [Hc23 (cs23 & Hcs23 & Hd23)]. split.
  - intros c events Hc.
    destruct (Hc12 _ _ Hc) as (events2 & Hc2 & Hsub2).
    destruct (Hc23 _ _ Hc2) as (events3 & Hc3 & Hsub3).
    exists events3. split; [done|]. by etrans.
  - exists (cs12 ++ cs23). split.
    + by rewrite Hcs23, Hcs12, app_assoc.
    + by apply Forall_app.
Qed.

Lemma harmless_abort_safe {A} (c : Host A) : harmless c → abort_safe c.
Proof. intros Hc w. destruct (Hc w) as [Hg Hs]. by split. Qed.

Lemma harmless_ret {A} (a : A) : harmless (ret a).
Proof. intros w. split; [apply calendar_grows_refl|done]. Qed.

Lemma harmless_throw {A} e : harmless (throw (A:=A) e).
Proof. intros w. split; [apply calendar_grows_refl|done]. Qed.

Lemma harmless_lift {A} (r : Exn + A) : harmless (lift r).
Proof. intros w. split; [apply calendar_grows_refl|done]. Qed.

Lemma harmless_bind {A B} (c : Host A) (k : A → Host B) :
  harmless c → (∀ a, harmless (k a)) → harmless (bind c k).
Proof.
  intros Hc Hk w. unfold bind.
  destruct (Hc w) as [Hg Hs].
  destruct (c w) as [[e|a] w'] eqn:Hcw; simpl in *; [done|].
  destruct (Hk a w') as [Hg' Hs']. split.
  - by eapply calendar_grows_trans.
  - by rewrite Hs'.
Qed.

Lemma abort_safe_bind {A B} (c : Host A) (k : A → Host B) :
  harmless c → (∀ a, abort_safe (k a)) → abort_safe (bind c k).
Proof.
  intros Hc Hk w. unfold bind.
  destruct (Hc w) as [Hg Hs].
  destruct (c w) as [[e|a] w'] eqn:Hcw; simpl in *; [by split|].
  destruct (Hk a w') as [Hg' Hs']. split.
  - by eapply calendar_grows_trans.
  - intros e He. by rewrite (Hs' e He).
Qed.

(** A step that keeps the calendars as they are, and adds no call. *)
Lemma grows_same w w' :
  calendars w' = calendars w → calls w' = calls w → calendar_grows w w'.
Proof.
  intros Hc Hcs. split.
  - intros c events H. exists events. by rewrite Hc.
  - exists []. by rewrite app_nil_r.
Qed.

Lemma harmless_service : harmless calendar_service.
Proof.
  intros w. unfold calendar_service.
  destruct (outage w) as [[|n]|]; simpl; (split; [by apply grows_same|done]).
Qed.

Lemma harmless_getProperty k : harmless (PropertiesService_getProperty k).
Proof. intros w. split; [apply calendar_grows_refl|done]. Qed.

Lemma harmless_setProperty k v : harmless (PropertiesService_setProperty k v).
Proof. intros w. split; [by apply grows_same|done]. Qed.

Lemma harmless_getCalendarById id : harmless (CalendarApp_getCalendarById id).
Proof.
  apply harmless_bind; [apply harmless_service|].
  intros _ w. split; [apply calendar_grows_refl|done].
Qed.

Lemma harmless_createCalendar name : harmless (CalendarApp_createCalendar name).
Proof.
  apply harmless_bind; [apply harmless_service|].
  intros _ w. simpl. split; [|done]. split.
  - intros c events Hc. exists events. split; [|done]. simpl.
    rewrite lookup_insert_ne; [done|].
    intros <-. apply (is_fresh (dom (calendars w))), elem_of_dom. by eexists.
  - eexists [_]. split; [done|]. by repeat constructor.
Qed.

(** A step on one calendar that keeps its events' identifiers and adds
    one call, which is no deletion. *)
Lemma grows_calendar w c events events' call :
  calendars w !! c = Some events → dom events ⊆ dom events' →
  is_delete call = false →
  calendar_grows w (with_call call (with_calendars <[c := events']> w)).
Proof.
  intros Hc Hsub Hcall. split.
  - intros c0 events0 Hc0. simpl.
    destruct (decide (c = c0)) as [<-|Hne].
    + rewrite lookup_insert_eq. exists events'. split; [done|].
      rewrite Hc in Hc0. by injection Hc0 as <-.
    + rewrite lookup_insert_ne by done. by exists events0.
  - exists [call]. split; [done|]. by repeat constructor.
Qed.

Lemma harmless_getEventById cal i arg : harmless (Calendar_getEventById cal i arg).
Proof.
  destruct cal as [c|]; [|apply harmless_throw].
  apply harmless_bind; [apply harmless_service|].
  intros _ w. destruct (calendars w !! c) as [events|] eqn:Hc; simpl.
  - split; [|done]. split.
    + intros c0 events0 Hc0. by exists events0.
    + eexists [_]. split; [done|]. by repeat constructor.
  - split; [apply calendar_grows_refl|done].
Qed.

Lemma harmless_insert i p calId : harmless (Calendar_Events_insert i p calId).
Proof.
  apply harmless_bind; [apply harmless_service|].
  intros _ w. destruct (calendars w !! calId) as [events|] eqn:Hc; simpl.
  - split; [|done]. eapply grows_calendar; [done| |done].
    rewrite dom_insert. set_solver.
  - split; [apply calendar_grows_refl|done].
Qed.

Lemma harmless_event_update ev f call :
  is_delete call = false → harmless (event_update ev f call).
Proof.
  intros Hcall. apply harmless_bind; [apply harmless_service|].
  intros _ w. destruct (calendars w !! ev.1) as [events|] eqn:Hc; simpl;
    [|split; [apply calendar_grows_refl|done]].
  destruct (events !! ev.2) as [e|] eqn:He; simpl;
    [|split; [apply calendar_grows_refl|done]].
  split; [|done]. eapply grows_calendar; [done| |done].
  rewrite dom_insert. set_solver.
Qed.

Lemma harmless_setTime i ev start finish :
  harmless (CalendarEvent_setTime i ev start finish).
Proof.
  unfold CalendarEvent_setTime.
  destruct start, finish; try apply harmless_throw. by apply harmless_event_update.
Qed.

Lemma harmless_session cal calId i session :
  harmless (setUpCalendar_session cal calId i session).
Proof.
  unfold setUpCalendar_session.
  apply harmless_bind; [apply harmless_lift|]. intros start.
  apply harmless_bind; [apply harmless_lift|]. intros finish.
  apply harmless_bind; [apply harmless_getEventById|]. intros event.
  apply harmless_bind.
  - destruct event as [event|].
    + apply harmless_bind; [by apply harmless_event_update|]; intros _.
      apply harmless_bind; [apply harmless_setTime|]; intros _.
      apply harmless_bind; [by apply harmless_event_update|]; intros _.
      apply harmless_ret.
    + apply harmless_bind; [apply harmless_lift|]. intros start'.
      apply harmless_bind; [apply harmless_lift|]. intros finish'.
      apply harmless_bind; [apply harmless_insert|]. intros id.
      apply harmless_getEventById.
  - intros [event'|]; [|apply harmless_throw].
    apply harmless_bind; [by apply harmless_event_update|]. intros _.
    apply harmless_ret.
Qed.

Lemma harmless_loop cal calId sessions : ∀ i,
  harmless (setUpCalendar_loop cal calId i sessions).
Proof.
  induction sessions as [|s rest IH]; intros i; simpl; [apply harmless_ret|].
  apply harmless_bind; [apply harmless_session|]. intros s'.
  apply harmless_bind; [apply IH|]. intros rest'. apply harmless_ret.
Qed.

Lemma abort_safe_setValues values : abort_safe (Range_setValues values).
Proof.
  intros w. unfold Range_setValues.
  case_decide; simpl; (split; [by apply grows_same|done]).
Qed.

Lemma abort_safe_setUpCalendar_ values : abort_safe (setUpCalendar_ values).
Proof.
  unfold setUpCalendar_.
  apply abort_safe_bind; [apply harmless_getProperty|]. intros calId.
  apply abort_safe_bind.
  { destruct calId; [apply harmless_getCalendarById|apply harmless_ret]. }
  intros known.
  assert (Hnew : harmless
    (let* calId := CalendarApp_createCalendar "LUMICKS Academy Calendar" in
     PropertiesService_setProperty "calendarId" calId >> ret (Some calId, calId))).
  { apply harmless_bind; [apply harmless_createCalendar|]. intros c.
    apply harmless_bind; [apply harmless_setProperty|]. intros _. apply harmless_ret. }
  apply abort_safe_bind.
  { destruct calId as [c|]; [|exact Hnew]. destruct known; [|exact Hnew].
    apply harmless_bind; [apply harmless_getCalendarById|]. intros cal.
    apply harmless_ret. }
  intros cal_calId.
  apply abort_safe_bind; [apply harmless_loop|]. intros sessions.
  apply abort_safe_setValues.
Qed.

Lemma abort_safe_syncCalendar : abort_safe syncCalendar.
Proof.
  unfold syncCalendar. apply abort_safe_bind.
  - intros w. split; [apply calendar_grows_refl|done].
  - intros values. apply abort_safe_setUpCalendar_.
Qed.

(** *** The calls of the pass, one by one

    The calendar service answers the calls it can afford and then fails.
    What the pass does is the same whatever the service can afford, up to
    the call that fails. *)


Lemma bind_assoc {A B C} (c : Host A) (k1 : A → Host B) (k2 : B → Host C) w :
  bind (bind c k1) k2 w = bind c (λ a, bind (k1 a) k2) w.
Proof. unfold bind. by destruct (c w) as [[e|a] w1]. Qed.

Lemma with_outage_same w : with_outage (outage w) w = w.
Proof. by destruct w. Qed.

Lemma spend_None m w : outage w = None → spend m w = w.
Proof. intros Ho. unfold spend. rewrite Ho. simpl. rewrite <- Ho. apply with_outage_same. Qed.

Lemma affords_None m w : outage w = None → affords m w.
Proof. unfold affords. by intros ->. Qed.

Lemma affords_le m k w : affords m w → k ≤ m → affords k w.
Proof. unfold affords. destruct (outage w); [lia|done]. Qed.

Lemma spend_0 w : spend 0 w = w.
Proof.
  unfold spend. destruct w as [pr cals fm sh u cs [n|]]; simpl; [|done].
  by rewrite Nat.sub_0_r.
Qed.


Lemma service_served {A} (f : Host A) w :
  affords 1 w → (calendar_service >> f) w = f (spend 1 w).
Proof.
  unfold affords, bind, calendar_service, spend.
  destruct (outage w) as [[|n]|] eqn:Ho; simpl; [lia| |].
  - intros _. by rewrite Nat.sub_0_r.
  - intros _. f_equal. rewrite <- Ho. symmetry. apply with_outage_same.
Qed.




Lemma performed_outage calId acts w : outage (performed calId acts w) = outage w.
Proof. revert w. induction acts as [|act acts IH]; intros w; [done|]. simpl. by rewrite IH. Qed.

Lemma performed_with_outage calId acts o : ∀ w,
  performed calId acts (with_outage o w) = with_outage o (performed calId acts w).
Proof. induction acts as [|act acts IH]; intros w; [done|]. simpl. by rewrite <- IH. Qed.


(** The calls the service can afford are all answered. *)
Lemma perform_served {A} calId acts (a : A) : ∀ w,
  affords (length acts) w →
  perform calId acts a w = (inr a, spend (length acts) (performed calId acts w)).
Proof.
  induction acts as [|act acts IH]; intros w Ha.
  - simpl. by rewrite spend_0.
  - cbn [perform]. rewrite service_served by (eapply affords_le; [done|simpl; lia]).
    rewrite IH.
    + f_equal. unfold spend. rewrite !performed_outage.
      change (advance calId act.1 [act.2] (with_outage ?o w))
        with (with_outage o (advance calId act.1 [act.2] w)).
      rewrite performed_with_outage. cbn [performed foldl outage with_outage advance].
      destruct (outage w) as [n|]; simpl; [|done].
      unfold with_outage. simpl. do 2 f_equal. lia.
    + unfold affords, spend in *. simpl in *. destruct (outage w); simpl; [lia|done].
Qed.

















Lemma spend_spend m k w : spend k (spend m w) = spend (m + k) w.
Proof.
  unfold spend. destruct w as [pr cals fm sh u cs [n|]]; simpl; [|done].
  unfold with_outage. simpl. do 2 f_equal. lia.
Qed.

Lemma affords_spend m k w : affords (m + k) w → affords k (spend m w).
Proof. unfold affords, spend. simpl. destruct (outage w); simpl; [lia|done]. Qed.

Lemma getCalendarById_served w c :
  affords 1 w →
  CalendarApp_getCalendarById c w =
    (inr (if calendars w !! c is Some _ then Some c else None), spend 1 w).
Proof. intros Ha. unfold CalendarApp_getCalendarById. by rewrite service_served. Qed.

(** The world when the loop of [setUpCalendar_] starts: the calendar is
    chosen, made if need be, and its identifier stored. *)
Lemma setUpCalendar_start_served values w :
  affords (lookups w + length (calendar_choice w).2) w →
  setUpCalendar_ values w =
    (let* sessions :=
       setUpCalendar_loop (Some (calendar_choice w).1.1) (calendar_choice w).1.1 1
         (drop 1 values) in
     Range_setValues (take 1 values ++ sessions))
      (spend (lookups w + length (calendar_choice w).2)
         (advance (calendar_choice w).1.1 (calendar_choice w).1.2 (calendar_choice w).2
            (with_props <["calendarId" := (calendar_choice w).1.1]> w))).
Proof.
  intros Ha. unfold setUpCalendar_.
  erewrite bind_ok by reflexivity.
  assert (Hnew : ∀ m, affords (m + 1) w →
    (let* calId := CalendarApp_createCalendar "LUMICKS Academy Calendar" in
     PropertiesService_setProperty "calendarId" calId >> ret (Some calId, calId)) (spend m w) =
    (inr (Some (fresh (dom (calendars w))), fresh (dom (calendars w))),
     spend (m + 1)
       (advance (fresh (dom (calendars w))) ∅
          [CreateCalendar "LUMICKS Academy Calendar" (fresh (dom (calendars w)))]
          (with_props <["calendarId" := fresh (dom (calendars w))]> w)))).
  { intros m Hm. unfold CalendarApp_createCalendar.
    rewrite bind_assoc, service_served by (by apply affords_spend).
    rewrite spend_spend. unfold bind. simpl. f_equal. }
  unfold lookups, calendar_choice in *.
  destruct (props w !! "calendarId") as [calId|] eqn:Hp.
  - destruct (calendars w !! calId) as [events|] eqn:Hc; simpl in Ha |- *.
    + erewrite bind_ok; last first.
      { rewrite getCalendarById_served by (eapply affords_le; [done|lia]). by rewrite Hc. }
      erewrite bind_ok; last first.
      { erewrite bind_ok; [reflexivity|].
        rewrite getCalendarById_served by (apply (affords_spend 1 1); eapply affords_le; [done|lia]).
        simpl. by rewrite Hc, spend_spend. }
      simpl. f_equal. apply world_eq; simpl; try done.
      * by rewrite insert_id.
      * by rewrite insert_id.
      * by rewrite app_nil_r.
    + erewrite bind_ok; last first.
      { rewrite getCalendarById_served by (eapply affords_le; [done|lia]). by rewrite Hc. }
      erewrite bind_ok by (by apply (Hnew 1)). done.
    - simpl in Ha |- *. erewrite bind_ok by reflexivity.
      rewrite <- (spend_0 w) at 1. erewrite bind_ok by (by apply (Hnew 0)). done.
Qed.

Lemma setUpCalendar_start values w :
  outage w = None →
  setUpCalendar_ values w =
    (let* sessions :=
       setUpCalendar_loop (Some (calendar_choice w).1.1) (calendar_choice w).1.1 1
         (drop 1 values) in
     Range_setValues (take 1 values ++ sessions))
      (advance (calendar_choice w).1.1 (calendar_choice w).1.2 (calendar_choice w).2
         (with_props <["calendarId" := (calendar_choice w).1.1]> w)).
Proof.
  intros Ho. rewrite setUpCalendar_start_served by (by apply affords_None).
  by rewrite spend_None.
Qed.

Lemma start_world w :
  let w0 := advance (calendar_choice w).1.1 (calendar_choice w).1.2 (calendar_choice w).2
              (with_props <["calendarId" := (calendar_choice w).1.1]> w) in
  outage w0 = outage w ∧ sheet w0 = sheet w ∧
  calendars w0 !! (calendar_choice w).1.1 = Some (calendar_choice w).1.2.
Proof. simpl. repeat split. apply lookup_insert_eq. Qed.

(** *** A pass that runs to its end

    What the calendar service can afford makes no difference to a pass
    that runs to its end. *)

Lemma steady_ret {A} (a : A) : steady (ret a).
Proof. by intros w a' w' [= <- <-]. Qed.

Lemma steady_throw {A} e : steady (throw (A:=A) e).
Proof. by intros w a w'. Qed.

Lemma steady_lift {A} (r : Exn + A) : steady (lift r).
Proof. intros w a w'. unfold lift. by intros [= -> <-]. Qed.

Lemma steady_bind {A B} (c : Host A) (k : A → Host B) :
  steady c → (∀ a, steady (k a)) → steady (bind c k).
Proof.
  intros Hc Hk w b w' Hrun. apply bind_inr in Hrun as (a & w1 & Hcw & Hkw).
  erewrite bind_ok by (by apply Hc). by apply Hk.
Qed.

Lemma steady_service : steady calendar_service.
Proof.
  intros w a w'. unfold calendar_service.
  destruct (outage w) as [[|n]|] eqn:Ho; [done| |]; by intros [= <- <-].
Qed.

(** A computation that does not ask what the service can afford. *)
Lemma steady_blind {A} (c : Host A) :
  (∀ w, c (with_outage None w) = ((c w).1, with_outage None (c w).2)) → steady c.
Proof. intros Hb w a w' Hrun. by rewrite Hb, Hrun. Qed.

Lemma steady_served {A} (f : Host A) :
  (∀ w, f (with_outage None w) = ((f w).1, with_outage None (f w).2)) →
  steady (calendar_service >> f).
Proof.
  intros Hf. apply steady_bind; [apply steady_service|]. intros _. by apply steady_blind.
Qed.

Lemma steady_getEventById cal i arg : steady (Calendar_getEventById cal i arg).
Proof.
  destruct cal as [c|]; [|apply steady_throw].
  apply steady_served. intros w. simpl. by destruct (calendars w !! c).
Qed.

Lemma steady_insert i p calId : steady (Calendar_Events_insert i p calId).
Proof. apply steady_served. intros w. simpl. by destruct (calendars w !! calId). Qed.

Lemma steady_event_update ev f call : steady (event_update ev f call).
Proof.
  apply steady_served. intros w. simpl.
  destruct (calendars w !! ev.1) as [events|]; [|done]. by destruct (events !! ev.2).
Qed.

Lemma steady_setTime i ev start finish : steady (CalendarEvent_setTime i ev start finish).
Proof.
  unfold CalendarEvent_setTime.
  destruct start, finish; try apply steady_throw. apply steady_event_update.
Qed.

Lemma steady_session cal calId i session :
  steady (setUpCalendar_session cal calId i session).
Proof.
  unfold setUpCalendar_session.
  apply steady_bind; [apply steady_lift|]. intros start.
  apply steady_bind; [apply steady_lift|]. intros finish.
  apply steady_bind; [apply steady_getEventById|]. intros event.
  apply steady_bind.
  - destruct event as [event|].
    + apply steady_bind; [apply steady_event_update|]; intros _.
      apply steady_bind; [apply steady_setTime|]; intros _.
      apply steady_bind; [apply steady_event_update|]; intros _.
      apply steady_ret.
    + apply steady_bind; [apply steady_lift|]. intros start'.
      apply steady_bind; [apply steady_lift|]. intros finish'.
      apply steady_bind; [apply steady_insert|]. intros id.
      apply steady_getEventById.
  - intros [event'|]; [|apply steady_throw].
    apply steady_bind; [apply steady_event_update|]. intros _.
    apply steady_ret.
Qed.

Lemma steady_loop cal calId sessions : ∀ i,
  steady (setUpCalendar_loop cal calId i sessions).
Proof.
  induction sessions as [|s rest IH]; intros i; simpl; [apply steady_ret|].
  apply steady_bind; [apply steady_session|]. intros s'.
  apply steady_bind; [apply IH|]. intros rest'. apply steady_ret.
Qed.

Lemma steady_getCalendarById id : steady (CalendarApp_getCalendarById id).
Proof. by apply steady_served. Qed.

Lemma steady_setUpCalendar_ values : steady (setUpCalendar_ values).
Proof.
  unfold setUpCalendar_.
  apply steady_bind; [by apply steady_blind|]. intros calId.
  apply steady_bind.
  { destruct calId; [apply steady_getCalendarById|apply steady_ret]. }
  intros known.
  assert (Hnew : steady
    (let* calId := CalendarApp_createCalendar "LUMICKS Academy Calendar" in
     PropertiesService_setProperty "calendarId" calId >> ret (Some calId, calId))).
  { apply steady_bind; [by apply steady_served|]. intros c.
    apply steady_bind; [by apply steady_blind|]. intros _. apply steady_ret. }
  apply steady_bind.
  { destruct calId as [c|]; [|exact Hnew]. destruct known; [|exact Hnew].
    apply steady_bind; [apply steady_getCalendarById|]. intros cal.
    apply steady_ret. }
  intros cal_calId.
  apply steady_bind; [apply steady_loop|]. intros sessions.
  apply steady_blind. intros w. unfold Range_setValues. simpl. by case_decide.
Qed.

Lemma steady_syncCalendar : steady syncCalendar.
Proof.
  unfold syncCalendar. apply steady_bind; [by apply steady_blind|].
  intros values. apply steady_setUpCalendar_.
Qed.

(** A turn of the loop that ends well hands back its row with the
    identifier cell assigned. *)
Lemma setUpCalendar_session_row cal calId i session w s' w' :
  setUpCalendar_session cal calId i session w = (inr s', w') →
  ∃ v, s' = js_array_set session 5 v.
Proof.
  unfold setUpCalendar_session. intros Hrun.
  apply bind_inr in Hrun as (start & w1 & _ & Hrun).
  apply bind_inr in Hrun as (finish & w2 & _ & Hrun).
  apply bind_inr in Hrun as (event & w3 & _ & Hrun).
  apply bind_inr in Hrun as ([event'|] & w4 & _ & Hrun); [|done].
  apply bind_inr in Hrun as ([] & w5 & _ & Hrun).
  injection Hrun as <- _. by eexists.
Qed.

Lemma setUpCalendar_loop_rows cal calId sessions : ∀ i w rows' w',
  setUpCalendar_loop cal calId i sessions w = (inr rows', w') →
  Forall2 (λ s s', ∃ v, s' = js_array_set s 5 v) sessions rows'.
Proof.
  induction sessions as [|s rest IH]; intros i w rows' w' Hrun; simpl in Hrun.
  - injection Hrun as <- _. constructor.
  - apply bind_inr in Hrun as (s' & w1 & Hs & Hrun).
    apply bind_inr in Hrun as (rest' & w2 & Hrest & Hrun).
    injection Hrun as <- _. constructor.
    + by eapply setUpCalendar_session_row.
    + by eapply IH.
Qed.

Lemma short_row_grows s v : length s ≤ 5 → length (js_array_set s 5 v) = 6.
Proof.
  intros Hlen. unfold js_array_set. rewrite decide_False by lia.
  rewrite !length_app, length_replicate. simpl. lia.
Qed.

(** A turn of the loop ends well only on a row from which the script
    derives a payload. *)
Lemma setUpCalendar_session_payload cal calId i session w s' w' :
  setUpCalendar_session cal calId i session w = (inr s', w') →
  is_Some (row_payload session).
Proof.
  unfold setUpCalendar_session, row_payload. intros Hrun.
  apply bind_inr in Hrun as (start & w1 & Hstart & Hrun).
  apply bind_inr in Hrun as (finish & w2 & Hfinish & Hrun).
  unfold lift in Hstart, Hfinish.
  injection Hstart as Hstart _. injection Hfinish as Hfinish _.
  rewrite Hstart, Hfinish.
  apply bind_inr in Hrun as (event & w3 & _ & Hrun).
  apply bind_inr in Hrun as (event' & w4 & Hrun & _).
  destruct event as [event|].
  - apply bind_inr in Hrun as ([] & w5 & _ & Hrun).
    apply bind_inr in Hrun as ([] & w6 & Hrun & _).
    unfold CalendarEvent_setTime in Hrun.
    by destruct start as [start|], finish as [finish|].
  - apply bind_inr in Hrun as (start' & w5 & Hrun1 & Hrun).
    apply bind_inr in Hrun as (finish' & w6 & Hrun2 & _).
    by destruct start as [start|], finish as [finish|].
Qed.

Lemma setUpCalendar_loop_payloads cal calId sessions : ∀ i w rows' w',
  setUpCalendar_loop cal calId i sessions w = (inr rows', w') →
  Forall (λ s, is_Some (row_payload s)) sessions.
Proof.
  induction sessions as [|s rest IH]; intros i w rows' w' Hrun; simpl in Hrun.
  - constructor.
  - apply bind_inr in Hrun as (s' & w1 & Hs & Hrun).
    apply bind_inr in Hrun as (rest' & w2 & Hrest & Hrun).
    constructor; [by eapply setUpCalendar_session_payload|by eapply IH].
Qed.

(** What the script derives a payload from: a date for the day, as
    [new Date] reads the date cell, and dates in the start and end cells;
    the start is the day with the hours and the minutes of the start cell,
    as [setHours] and [setMinutes] compute them, and the end likewise. *)
Lemma row_payload_derived s p :
  row_payload s = Some p →
  ∃ d ts te,
    Date_new (js_index s 1) = Some d ∧
    js_index s 2 = JDate ts ∧ js_index s 3 = JDate te ∧
    (setHours d (getHours ts) ≫= λ d', setMinutes d' (getMinutes ts))
      = Some (start_dateTime p) ∧
    (setHours d (getHours te) ≫= λ d', setMinutes d' (getMinutes te))
      = Some (end_dateTime p) ∧
    summary p = js_index s 0 ∧ payload_location p = js_index s 4.
Proof.
  unfold row_payload, joinDateAndTime_, Date_setHours, Date_setMinutes.
  destruct (js_index s 2) as [| | | |ts]; try done.
  destruct (js_index s 3) as [| | | |te]; try by destruct (_ ≫= _).
  destruct (Date_new (js_index s 1)) as [d|]; [|done]. simpl.
  destruct (setHours d (getHours ts) ≫= _) as [start|] eqn:Hstart; [|done].
  destruct (setHours d (getHours te) ≫= _) as [finish|] eqn:Hfinish; [|done].
  intros [= <-]. by exists d, ts, te.
Qed.

(** A pass that runs to its end has found every row in order, and runs
    to the same end when the service can afford every call. *)
Lemma syncCalendar_done w w' :
  syncCalendar w = (inr tt, w') →
  Forall row_ok (drop 1 (sheet w)) ∧
  syncCalendar (with_outage None w) = (inr tt, with_outage None w').
Proof.
  intros Hrun. apply steady_syncCalendar in Hrun. split; [|done].
  unfold syncCalendar in Hrun. erewrite bind_ok in Hrun by reflexivity.
  rewrite setUpCalendar_start in Hrun by done.
  apply bind_inr in Hrun as (rows' & w1 & Hloop & Hset).
  pose proof (setUpCalendar_loop_payloads _ _ _ _ _ _ _ Hloop) as Hpay.
  pose proof (setUpCalendar_loop_rows _ _ _ _ _ _ _ Hloop) as Hrows.
  destruct (harmless_loop (Some (calendar_choice (with_outage None w)).1.1)
              (calendar_choice (with_outage None w)).1.1 (drop 1 (sheet w)) 1
              (advance (calendar_choice (with_outage None w)).1.1
                 (calendar_choice (with_outage None w)).1.2
                 (calendar_choice (with_outage None w)).2
                 (with_props <["calendarId" := (calendar_choice (with_outage None w)).1.1]>
                    (with_outage None w)))) as [_ Hsheet].
  simpl in Hloop. rewrite Hloop in Hsheet. simpl in Hsheet.
  unfold Range_setValues in Hset. case_decide as Hshape; [|done].
  rewrite Hsheet in Hshape. simpl in Hshape, Hpay, Hrows.
  rewrite <- (take_drop 1 (sheet w)) in Hshape at 2.
  rewrite !fmap_app in Hshape. apply app_inv_head in Hshape.
  clear Hloop Hset Hsheet.
  induction Hrows as [|s s' rest rest' [v ->] _ IH]; [constructor|].
  apply Forall_cons in Hpay as [Hp Hpay]. simpl in Hshape.
  injection Hshape as Hlen Hshape. constructor; [|by apply IH].
  split; [done|]. destruct (decide (5 < length s)); [done|].
  rewrite short_row_grows in Hlen by lia. lia.
Qed.

(** *** The pass on a well-formed sheet *)

Lemma syncCalendar_ok w :
  Forall row_ok (drop 1 (sheet w)) → outage w = None →
  ∃ rows' events' cs,
    reconcile (calendar_choice w).1.1 1 (drop 1 (sheet w)) (calendar_choice w).1.2
      = Some (rows', events', cs) ∧
    syncCalendar w =
      (inr tt,
       with_sheet (take 1 (sheet w) ++ rows')
         (advance (calendar_choice w).1.1 events' ((calendar_choice w).2 ++ cs)
            (with_props <["calendarId" := (calendar_choice w).1.1]> w))).
Proof.
  intros Hok Ho.
  destruct (reconcile_total (calendar_choice w).1.1 (drop 1 (sheet w)) 1
              (calendar_choice w).1.2 Hok) as [[[rows' events'] cs] Hr].
  exists rows', events', cs. split; [done|].
  apply syncCalendar_up; [done|done|].
  by destruct (reconcile_settles _ _ _ _ _ _ _ Hok Hr) as (_ & _ & _ & Hlen & _).
Qed.

Lemma new_calls_advance w calId events cs values pr :
  new_calls w (with_sheet values (advance calId events cs (with_props pr w))) = cs.
Proof. unfold new_calls. simpl. by rewrite drop_app_length. Qed.

Lemma calendar_choice_calls w :
  (calendar_choice w).2 = [] ∨
  ∃ id, (calendar_choice w).2 = [CreateCalendar "LUMICKS Academy Calendar" id].
Proof.
  destruct (calendar_choice_cases w) as [(c & ev & _ & _ & ->)|[_ ->]]; simpl; eauto.
Qed.

Lemma calls_of_row_choice w i cs :
  calls_of_row i ((calendar_choice w).2 ++ cs) = calls_of_row i cs.
Proof.
  rewrite calls_of_row_app.
  by destruct (calendar_choice_calls w) as [->|[id ->]].
Qed.

Lemma sheet_row_below (values : list (list JsVal)) i s :
  1 ≤ i → values !! i = Some s → drop 1 values !! (i - 1) = Some s.
Proof.
  intros Hi Hs. rewrite lookup_drop. by replace (1 + (i - 1)) with i by lia.
Qed.

Lemma sheet_row_after (values rows' : list (list JsVal)) i s :
  1 ≤ i → values !! i = Some s →
  (take 1 values ++ rows') !! i = rows' !! (i - 1).
Proof.
  intros Hi Hs. apply lookup_lt_Some in Hs.
  rewrite lookup_app_r; rewrite length_take; [|lia].
  by replace (1 `min` length values) with 1 by lia.
Qed.

Lemma drop_header_rows (values rows' : list (list JsVal)) :
  length <$> rows' = length <$> drop 1 values →
  drop 1 (take 1 values ++ rows') = rows'.
Proof.
  intros Hlen. destruct values as [|h t]; simpl in *.
  - by destruct rows'.
  - by rewrite drop_0.
Qed.

(** What the pass does for one row, when the service affords every
    call. *)
Lemma syncCalendar_row w :
  Forall row_ok (drop 1 (sheet w)) → outage w = None →
  ∃ w' calId events',
    syncCalendar w = (inr tt, w') ∧
    props w' !! "calendarId" = Some calId ∧ calendars w' !! calId = Some events' ∧
    dom (calendar_choice w).1.2 ⊆ dom events' ∧
    ∀ i s, 1 ≤ i → sheet w !! i = Some s →
      ∃ p events_i,
        row_payload s = Some p ∧ dom (calendar_choice w).1.2 ⊆ dom events_i ∧
        calls_of_row i (new_calls w w') = reconcile_calls calId i s p events_i ∧
        sheet w' !! i = Some (<[5 := JStr (event_uid (reconciled_id events_i s))]> s) ∧
        reconciled_id events_i s ≠ "" ∧
        reconciled_id events_i s ∈ dom events' ∧
        ∀ id, id ∈ dom events_i →
          id ∈ dom (calendar_choice w).1.2 ∨
          ∃ k q, EventsInsert k q calId id ∈ new_calls w w'.
Proof.
  intros Hok Ho.
  destruct (syncCalendar_ok w Hok Ho) as (rows' & events' & cs & Hr & Hrun).
  eexists _, (calendar_choice w).1.1, events'. split; [exact Hrun|].
  split; [simpl; apply lookup_insert_eq|].
  split; [simpl; apply lookup_insert_eq|].
  split; [by eapply reconcile_dom|].
  intros i s Hi Hs.
  destruct (reconcile_row _ _ _ _ _ _ _ (i - 1) s Hr (sheet_row_below _ _ _ Hi Hs))
    as (p & events_i & Hp & Hsub & Hcalls & Hrow & Hin & Hfrom).
  replace (1 + (i - 1)) with i in Hcalls by lia.
  exists p, events_i. rewrite new_calls_advance, calls_of_row_choice.
  repeat split; try done.
  - simpl. rewrite (sheet_row_after _ _ _ _ Hi Hs), Hrow. f_equal.
    apply js_array_set_in_range.
    rewrite Forall_lookup in Hok.
    by destruct (Hok _ _ (sheet_row_below _ _ _ Hi Hs)).
  - apply reconciled_id_present.
  - intros id Hid. destruct (Hfrom id Hid) as [Hold|(k & q & Hins)]; [by left|].
    right. exists k, q. apply elem_of_app. by right.
Qed.

Lemma calendar_choice_blind o w : calendar_choice (with_outage o w) = calendar_choice w.
Proof. done. Qed.

(** The same of any pass that runs to its end, whatever the service
    affords. *)
Lemma syncCalendar_rows w w' :
  syncCalendar w = (inr tt, w') →
  ∃ calId events',
    props w' !! "calendarId" = Some calId ∧ calendars w' !! calId = Some events' ∧
    dom (calendar_choice w).1.2 ⊆ dom events' ∧
    ∀ i s, 1 ≤ i → sheet w !! i = Some s →
      ∃ p events_i,
        row_payload s = Some p ∧ dom (calendar_choice w).1.2 ⊆ dom events_i ∧
        calls_of_row i (new_calls w w') = reconcile_calls calId i s p events_i ∧
        sheet w' !! i = Some (<[5 := JStr (event_uid (reconciled_id events_i s))]> s) ∧
        reconciled_id events_i s ≠ "" ∧
        reconciled_id events_i s ∈ dom events' ∧
        ∀ id, id ∈ dom events_i →
          id ∈ dom (calendar_choice w).1.2 ∨
          ∃ k q, EventsInsert k q calId id ∈ new_calls w w'.
Proof.
  intros Hrun. apply syncCalendar_done in Hrun as [Hok Hrun].
  destruct (syncCalendar_row (with_outage None w) Hok eq_refl)
    as (w'' & calId & events' & Hrun' & Hprops & Hcal & Hdom & Hrows).
  rewrite Hrun in Hrun'. injection Hrun' as <-.
  by exists calId, events'.
Qed.

(** C1 (as amended): in a pass that runs to its end, every data row whose
    identifier cell is empty, or whose stored identifier does not resolve
    to an event of the calendar, gets exactly one create call.  Its payload
    is derived from the row: the title and the location are those of the
    row; the start is the date of the row ([new Date] of the date cell)
    with the hours and the minutes of the start cell, as [setHours] and
    [setMinutes] compute them, and the end likewise with the end cell.
    The identifier cell of the row then holds the identifier of the new
    event as the calendar reports it: the identifier the create returned,
    followed by [@google.com].  "Does not resolve" is read in two ways, and
    the statement holds for both: the lookup the pass makes for the row
    returns null; or the identifier names no event of the calendar before
    the pass, and is not the identifier the service gives to an event the
    pass creates. *)
Theorem C1_unresolved_row_is_created (w w' : World) :
  syncCalendar w = (inr tt, w') →
  ∃ calId,
    props w' !! "calendarId" = Some calId ∧
    ∀ i session,
      1 ≤ i → sheet w !! i = Some session →
      js_index session 5 = JStr "" ∨
      head (calls_of_row i (new_calls w w'))
        = Some (GetEventById i (js_index session 5) None) ∨
      (resolve_event (calendar_choice w).1.2 (js_index session 5) = None ∧
       ∀ u k q c,
         js_index session 5 = JStr u →
         EventsInsert k q c (event_id_of u) ∉ new_calls w w') →
      ∃ d ts te start finish id,
        Date_new (js_index session 1) = Some d ∧
        js_index session 2 = JDate ts ∧ js_index session 3 = JDate te ∧
        (setHours d (getHours ts) ≫= λ d', setMinutes d' (getMinutes ts)) = Some start ∧
        (setHours d (getHours te) ≫= λ d', setMinutes d' (getMinutes te)) = Some finish ∧
        let p := {| summary := js_index session 0; start_dateTime := start;
                    end_dateTime := finish; payload_location := js_index session 4 |} in
        calls_of_row i (new_calls w w') = create_calls i p calId id (js_index session 5) ∧
        filter (λ c, is_create c = true) (calls_of_row i (new_calls w w'))
          = [EventsInsert i p calId id] ∧
        sheet w' !! i = Some (<[5 := JStr (event_uid id)]> session) ∧
        id ≠ "" ∧
        ∃ events, calendars w' !! calId = Some events ∧ id ∈ dom events.
Proof.
  intros Hrun.
  destruct (syncCalendar_rows w w' Hrun) as (calId & events' & Hprop & Hcal & _ & Hrows).
  exists calId. split; [done|]. intros i s Hi Hs Hcase.
  destruct (Hrows i s Hi Hs)
    as (p & events_i & Hp & _ & Hcalls & Hrow & Hne & Hin & Hfrom).
  assert (Hnone : resolve_event events_i (js_index s 5) = None).
  { destruct Hcase as [Hempty|[Hhead|[Hbefore Hissued]]].
    - by rewrite Hempty.
    - rewrite Hcalls in Hhead. unfold reconcile_calls in Hhead.
      by destruct (resolve_event events_i (js_index s 5)).
    - destruct (resolve_event events_i (js_index s 5)) as [id|] eqn:Hf; [|done].
      apply resolve_event_Some in Hf as (u & Harg & Hu & Hid & Hin_i). exfalso.
      destruct (Hfrom id) as [Hold|(k & q & Hins)]; [by apply elem_of_dom| |].
      + rewrite Harg, resolve_event_present in Hbefore; [done|by rewrite Hu|].
        rewrite Hu. by apply elem_of_dom.
      + apply (Hissued u k q calId Harg). by rewrite Hu. }
  unfold reconcile_calls, reconciled_id in *. rewrite Hnone in *.
  destruct (row_payload_derived _ _ Hp) as (d & ts & te & Hd & Hts & Hte & Hstart & Hend & Ht & Hl).
  exists d, ts, te, (start_dateTime p), (end_dateTime p), (new_event_id events_i).
  destruct p as [title start finish location]; simpl in *; subst title location.
  repeat split; try done.
  - by rewrite Hcalls.
  - by exists events'.
Qed.

(** C2 (as amended): in a pass that runs to its end, every data row whose
    stored identifier resolves to an event of the calendar gets the calls
    of an update and no create: the event's title, start and end time and
    location are set from the row (the times derived as for C1), and guests
    may see guests.  The identifier cell of the row then holds the
    identifier of that event as the calendar reports it (its id followed
    by [@google.com]); the row is as before the pass when its cell held the
    identifier in that form, which is how a pass writes it. *)
Theorem C2_resolved_row_is_updated (w w' : World) :
  syncCalendar w = (inr tt, w') →
  ∀ i session id,
    1 ≤ i → sheet w !! i = Some session →
    (∃ calId events,
       props w !! "calendarId" = Some calId ∧ calendars w !! calId = Some events ∧
       resolve_event events (js_index session 5) = Some id) ∨
    head (calls_of_row i (new_calls w w'))
      = Some (GetEventById i (js_index session 5) (Some id)) →
    ∃ d ts te start finish,
      Date_new (js_index session 1) = Some d ∧
      js_index session 2 = JDate ts ∧ js_index session 3 = JDate te ∧
      (setHours d (getHours ts) ≫= λ d', setMinutes d' (getMinutes ts)) = Some start ∧
      (setHours d (getHours te) ≫= λ d', setMinutes d' (getMinutes te)) = Some finish ∧
      let p := {| summary := js_index session 0; start_dateTime := start;
                  end_dateTime := finish; payload_location := js_index session 4 |} in
      calls_of_row i (new_calls w w') = update_calls i p id (js_index session 5) ∧
      filter (λ c, is_create c = true) (calls_of_row i (new_calls w w')) = [] ∧
      (∃ u, js_index session 5 = JStr u ∧ event_id_of u = id) ∧
      sheet w' !! i = Some (<[5 := JStr (event_uid id)]> session) ∧
      (js_index session 5 = JStr (event_uid id) → sheet w' !! i = Some session).
Proof.
  intros Hrun i s id Hi Hs Hcase.
  destruct (syncCalendar_rows w w' Hrun) as (calId & events' & Hprop & Hcal & _ & Hrows).
  destruct (Hrows i s Hi Hs) as (p & events_i & Hp & Hsub & Hcalls & Hrow & Hne & Hin & _).
  assert (Hfound : resolve_event events_i (js_index s 5) = Some id).
  { destruct Hcase as [(c & events & Hpc & Hcc & Hf)|Hhead].
    - eapply resolve_event_mono; [|exact Hf].
      unfold calendar_choice in Hsub. by rewrite Hpc, Hcc in Hsub.
    - rewrite Hcalls in Hhead. unfold reconcile_calls in Hhead.
      destruct (resolve_event events_i (js_index s 5)); [|done].
      simpl in Hhead. by injection Hhead as ->. }
  destruct (resolve_event_Some _ _ _ Hfound) as (u & Harg & Hu & _ & _).
  unfold reconcile_calls, reconciled_id in *. rewrite Hfound in *.
  destruct (row_payload_derived _ _ Hp) as (d & ts & te & Hd & Hts & Hte & Hstart & Hend & Ht & Hl).
  exists d, ts, te, (start_dateTime p), (end_dateTime p).
  destruct p as [title start finish location]; simpl in *; subst title location.
  repeat split; try done.
  - by rewrite Hcalls.
  - by exists u.
  - intros Hsame. rewrite Hrow. f_equal. apply list_insert_id.
    unfold js_index in Hsame. destruct (s !! 5) as [v|] eqn:Hv; [|done].
    simpl in Hsame. by subst v.
Qed.

Lemma steady_calls_no_create sessions : ∀ i,
  Forall (λ c, is_create c = false) (steady_calls i sessions).
Proof.
  induction sessions as [|s rest IH]; intros i; simpl; [constructor|].
  apply Forall_app. split; [|apply IH].
  destruct (row_payload s); [|constructor].
  destruct (js_index s 5); repeat constructor.
Qed.

Lemma sent_steady sessions : ∀ i events,
  Forall row_ok sessions → settled events sessions →
  sent (steady_calls i sessions) = sends_from i sessions.
Proof.
  induction sessions as [|s rest IH]; intros i events Hok Hset; [done|].
  apply Forall_cons in Hok as [[[p Hp] _] Hrest].
  apply Forall_cons in Hset as [(id & Hid & _) Hset].
  simpl. rewrite sent_app, Hp, Hid, (IH _ events) by done. done.
Qed.

Lemma sent_choice w cs : sent ((calendar_choice w).2 ++ cs) = sent cs.
Proof.
  rewrite sent_app. by destruct (calendar_choice_calls w) as [->|[id ->]].
Qed.

(** The second of two passes, when the service affords every call. *)
Lemma syncCalendar_again w :
  Forall row_ok (drop 1 (sheet w)) → outage w = None →
  ∃ w1 w2,
    syncCalendar w = (inr tt, w1) ∧
    syncCalendar w1 = (inr tt, w2) ∧
    Forall (λ c, is_create c = false) (new_calls w1 w2) ∧
    sent (new_calls w1 w2) = sent (new_calls w w1) ∧
    sheet w2 = sheet w1.
Proof.
  intros Hok Ho.
  destruct (syncCalendar_ok w Hok Ho) as (rows1 & events1 & cs1 & Hr1 & Hrun1).
  destruct (reconcile_settles _ _ _ _ _ _ _ Hok Hr1)
    as (Hset1 & _ & Hok1 & Hlen1 & Hsends1).
  set (calId := (calendar_choice w).1.1) in *.
  set (w1 := with_sheet (take 1 (sheet w) ++ rows1)
               (advance calId events1 ((calendar_choice w).2 ++ cs1)
                  (with_props <["calendarId" := calId]> w))) in *.
  assert (Hdrop : drop 1 (sheet w1) = rows1) by (by apply drop_header_rows).
  assert (Hchoice : calendar_choice w1 = (calId, events1, [])).
  { unfold calendar_choice. simpl. by rewrite !lookup_insert_eq. }
  destruct (reconcile_steady calId rows1 1 events1 Hok1 Hset1) as (events2 & Hr2 & _).
  assert (Hrun2 : syncCalendar w1 =
            (inr tt, with_sheet (take 1 (sheet w1) ++ rows1)
                       (advance calId events2 ([] ++ steady_calls 1 rows1)
                          (with_props <["calendarId" := calId]> w1)))).
  { pose proof (syncCalendar_up w1 rows1 events2 (steady_calls 1 rows1)) as Hup.
    rewrite Hchoice, Hdrop in Hup. simpl in Hup. by apply Hup. }
  assert (Hnew1 : new_calls w w1 = (calendar_choice w).2 ++ cs1)
    by apply new_calls_advance.
  eexists w1, _. split; [exact Hrun1|]. split; [exact Hrun2|].
  rewrite new_calls_advance, Hnew1, app_nil_l.
  split; [apply steady_calls_no_create|].
  split; [by rewrite sent_choice, (sent_steady _ _ events1), Hsends1,
                     (reconcile_sent _ _ _ _ _ _ _ Hr1)|].
  transitivity (take 1 (sheet w1) ++ drop 1 (sheet w1)); [by rewrite Hdrop|].
  apply take_drop.
Qed.

(** C3 (as amended): when the pass runs to its end twice, with the rows
    unchanged in between, the second run makes no create call, and it
    sends for every row, by update, the title, times and location the
    first run sent for that row (by create or by update).  The second run
    leaves the sheet as the first left it.  What the calendar service can
    afford may differ between the two runs. *)
Theorem C3_second_pass_creates_nothing (w w1 w2 : World) (o : option nat) :
  syncCalendar w = (inr tt, w1) →
  syncCalendar (with_outage o w1) = (inr tt, w2) →
  Forall (λ c, is_create c = false) (new_calls w1 w2) ∧
  sent (new_calls w1 w2) = sent (new_calls w w1) ∧
  sheet w2 = sheet w1.
Proof.
  intros Hrun1 Hrun2.
  apply syncCalendar_done in Hrun1 as [Hok Hrun1].
  apply syncCalendar_done in Hrun2 as [_ Hrun2].
  destruct (syncCalendar_again (with_outage None w) Hok eq_refl)
    as (w1' & w2' & Hrun1' & Hrun2' & Hnone & Hsent & Hsheet).
  rewrite Hrun1 in Hrun1'. injection Hrun1' as <-.
  change (with_outage None (with_outage o w1)) with (with_outage None w1) in Hrun2.
  rewrite Hrun2 in Hrun2'. injection Hrun2' as <-.
  done.
Qed.

Lemma reconcile_rows_within calId sessions : ∀ i events rows' events' cs,
  reconcile calId i sessions events = Some (rows', events', cs) →
  Forall (λ c, ∃ k, call_row c = Some k ∧ i ≤ k < i + length sessions) cs.
Proof.
  induction sessions as [|s rest IH]; intros i events rows' events' cs Hr.
  - simpl in Hr. injection Hr as <- <- <-. constructor.
  - apply reconcile_cons in Hr as (p & rest' & cs' & Hp & Hr & -> & ->).
    apply Forall_app. split.
    + eapply Forall_impl; [apply reconcile_calls_row|]. simpl.
      intros c Hc. exists i. split; [done|lia].
    + eapply Forall_impl; [exact (IH _ _ _ _ _ Hr)|].
      simpl. intros c (k & Hk & Hle). exists k. split; [done|lia].
Qed.

(** *** A pass that a failing call aborts *)






(** C5: whatever the rows, the pass issues no delete call, and every
    event of every calendar is still there when the pass ends, also when
    it aborts.  In particular, when a row is removed from the table
    between two runs, the second run deletes nothing: the event the first
    run created for that row stays. *)
Theorem C5_pass_never_deletes (values : list (list JsVal)) (w : World) (j : nat) :
  calendar_grows w (setUpCalendar_ values w).2 ∧
  calendar_grows (syncCalendar w).2
    (syncCalendar (with_sheet (delete j (sheet (syncCalendar w).2)) (syncCalendar w).2)).2.
Proof.
  split.
  - apply abort_safe_setUpCalendar_.
  - apply (abort_safe_syncCalendar
             (with_sheet (delete j (sheet (syncCalendar w).2)) (syncCalendar w).2)).
Qed.

(** C7: when no form identifier (no calendar identifier) is stored,
    opening the form (the calendar) shows the user one alert and returns:
    no dialog is opened, nothing is retried, nothing else changes. *)
Theorem C7_open_without_identifier_alerts (w : World) :
  (props w !! "formId" = None →
   openForm_ w =
     (inr tt, with_ui (λ l, l ++ [Alert "No registration form has been set up yet."]) w)) ∧
  (props w !! "calendarId" = None →
   openCalendar_ w =
     (inr tt, with_ui (λ l, l ++ [Alert "No calendar has been set up yet."]) w)).
Proof.
  split; intros Hnone.
  - unfold openForm_. erewrite bind_ok by reflexivity. by rewrite Hnone.
  - unfold openCalendar_. erewrite bind_ok by reflexivity. by rewrite Hnone.
Qed.

(** *** The grouping of [setUpForm_] *)

Lemma first_seen_elem {A} `{EqDecision A} (l : list A) x : x ∈ first_seen l ↔ x ∈ l.
Proof.
  induction l as [|a l IH]; simpl; [done|].
  rewrite !elem_of_cons, list_elem_of_filter, IH.
  destruct (decide (x = a)); naive_solver.
Qed.

Lemma first_seen_NoDup {A} `{EqDecision A} (l : list A) : NoDup (first_seen l).
Proof.
  induction l as [|a l IH]; simpl; constructor.
  - rewrite list_elem_of_filter. naive_solver.
  - by apply NoDup_filter.
Qed.

Lemma first_seen_snoc {A} `{EqDecision A} (l : list A) x :
  first_seen (l ++ [x]) = if decide (x ∈ l) then first_seen l else first_seen l ++ [x].
Proof.
  induction l as [|a l IH]; simpl.
  - done.
  - rewrite IH. destruct (decide (x = a)) as [->|Hne].
    + rewrite (decide_True (P := a ∈ a :: l)) by apply list_elem_of_here.
      case_decide; [done|].
      rewrite filter_app, filter_cons_False, filter_nil, app_nil_r; naive_solver.
    + destruct (decide (x ∈ l)) as [Hin|Hnin].
      * rewrite decide_True; [done|]. by apply list_elem_of_further.
      * rewrite decide_False by (rewrite elem_of_cons; naive_solver).
        rewrite filter_app, filter_cons_True, filter_nil; naive_solver.
Qed.

Lemma obj_get_cons {V} (o : list (string * V)) k' v k :
  obj_get ((k', v) :: o) k = if decide (k' = k) then Some v else obj_get o k.
Proof. done. Qed.

Lemma obj_set_cons {V} (o : list (string * V)) k' v' k v :
  obj_set ((k', v') :: o) k v =
  if decide (k' = k) then (k, v) :: o else (k', v') :: obj_set o k v.
Proof. done. Qed.

Lemma tabulate_cons {V} (f : string → V) a ks :
  tabulate f (a :: ks) = (a, f a) :: tabulate f ks.
Proof. done. Qed.

Lemma tabulate_snoc {V} (f : string → V) ks a :
  tabulate f (ks ++ [a]) = tabulate f ks ++ [(a, f a)].
Proof. unfold tabulate. by rewrite fmap_app. Qed.

Lemma obj_get_tabulate {V} (f : string → V) ks k :
  obj_get (tabulate f ks) k = if decide (k ∈ ks) then Some (f k) else None.
Proof.
  induction ks as [|a ks IH].
  - rewrite decide_False; [done|]. apply not_elem_of_nil.
  - rewrite tabulate_cons, obj_get_cons. destruct (decide (a = k)) as [->|Hne].
    + rewrite decide_True; [done|]. apply list_elem_of_here.
    + rewrite IH. destruct (decide (k ∈ ks)) as [Hin|Hnin].
      * rewrite decide_True; [done|]. by apply list_elem_of_further.
      * rewrite decide_False; [done|]. rewrite elem_of_cons. naive_solver.
Qed.

Lemma tabulate_ext {V} (f g : string → V) ks :
  (∀ k, k ∈ ks → f k = g k) → tabulate f ks = tabulate g ks.
Proof.
  intros Hfg. unfold tabulate. apply list_fmap_ext.
  intros i k Hk. f_equal. apply Hfg. by eapply list_elem_of_lookup_2.
Qed.

Lemma obj_set_snoc {V} (o : list (string * V)) k v :
  obj_get o k = None → obj_set o k v = o ++ [(k, v)].
Proof.
  induction o as [|[k' v'] o IH]; [done|].
  rewrite obj_get_cons, obj_set_cons. case_decide; [done|].
  intros Hnone. by rewrite IH.
Qed.

Lemma obj_get_snoc {V} (o : list (string * V)) k v :
  obj_get o k = None → obj_get (o ++ [(k, v)]) k = Some v.
Proof.
  induction o as [|[k' v'] o IH]; intros Hnone.
  - simpl. by rewrite decide_True.
  - rewrite obj_get_cons in Hnone. rewrite <- app_comm_cons, obj_get_cons.
    case_decide; [done|]. by apply IH.
Qed.

Lemma obj_set_last {V} (o : list (string * V)) k v v' :
  obj_get o k = None → obj_set (o ++ [(k, v)]) k v' = o ++ [(k, v')].
Proof.
  induction o as [|[k0 v0] o IH]; intros Hnone.
  - simpl. by rewrite decide_True.
  - rewrite obj_get_cons in Hnone. rewrite <- !app_comm_cons, obj_set_cons.
    case_decide; [done|]. by rewrite IH.
Qed.

Lemma obj_get_tabulate_None {V} (f : string → V) ks k :
  k ∉ ks → obj_get (tabulate f ks) k = None.
Proof. intros Hk. by rewrite obj_get_tabulate, decide_False. Qed.

Lemma obj_set_tabulate_old {V} (f g : string → V) ks k v :
  k ∈ ks → NoDup ks → g k = v → (∀ k', k' ≠ k → g k' = f k') →
  obj_set (tabulate f ks) k v = tabulate g ks.
Proof.
  intros Hk Hnd Hgk Hg.
  induction ks as [|a ks IH]; [by apply elem_of_nil in Hk|].
  apply NoDup_cons in Hnd as [Ha Hnd].
  rewrite !tabulate_cons, obj_set_cons.
  destruct (decide (a = k)) as [->|Hne].
  - rewrite Hgk. f_equal. apply tabulate_ext. intros k' Hk'.
    symmetry. apply Hg. by intros ->.
  - rewrite Hg by done. f_equal. apply IH; [|done].
    apply elem_of_cons in Hk as [->|Hk]; done.
Qed.

Lemma titles_of_snoc key rows r :
  titles_of key (rows ++ [r]) =
  titles_of key rows ++ (if decide (r.1 = key) then [r.2] else []).
Proof.
  unfold titles_of. rewrite filter_app, fmap_app. f_equal.
  case_decide.
  - by rewrite filter_cons_True.
  - by rewrite filter_cons_False.
Qed.

Lemma times_of_snoc day rows r :
  times_of day (rows ++ [r]) =
  times_of day rows ++ (if decide (r.1.1 = day) then [r.1.2] else []).
Proof.
  unfold times_of. rewrite filter_app, fmap_app. f_equal.
  case_decide.
  - by rewrite filter_cons_True.
  - by rewrite filter_cons_False.
Qed.

Lemma titles_of_none day time rows :
  time ∉ times_of day rows → titles_of (day, time) rows = [].
Proof.
  unfold titles_of, times_of. induction rows as [|[[d t] v] rows IH]; [done|].
  intros Hnot. destruct (decide (d = day)) as [->|Hne].
  - rewrite (filter_cons_True (λ r, r.1.1 = day)) in Hnot by done.
    rewrite fmap_cons, not_elem_of_cons in Hnot. destruct Hnot as [Ht Hnot].
    rewrite filter_cons_False; [by apply IH|]. simpl. naive_solver.
  - rewrite (filter_cons_False (λ r, r.1.1 = day)) in Hnot by done.
    rewrite filter_cons_False; [by apply IH|]. simpl. naive_solver.
Qed.

Lemma times_of_none day rows : day ∉ days_of rows → times_of day rows = [].
Proof.
  unfold times_of, days_of. induction rows as [|r rows IH]; [done|].
  rewrite fmap_cons, not_elem_of_cons. intros [Hne Hnot].
  rewrite filter_cons_False by done. by apply IH.
Qed.

Lemma days_of_snoc rows r : days_of (rows ++ [r]) = days_of rows ++ [r.1.1].
Proof. unfold days_of. by rewrite fmap_app. Qed.

(** One turn of the loop adds the row's title to the group of the row's
    day and time, creating day and time where they are new. *)
Lemma setUpForm_session_step rows session day time title :
  session_slot session = Some (day, time, title) →
  setUpForm_session (schedule_of rows) session
    = inr (schedule_of (rows ++ [(day, time, title)])).
Proof.
  unfold session_slot, setUpForm_session.
  destruct (js_index session 1) as [| | | |d]; try done.
  destruct (js_index session 2) as [| | | |t]; try done.
  intros [= <- <- <-]. f_equal.
  set (day := toLocaleDateString d). set (time := toLocaleTimeString t).
  set (title := js_index session 0).
  set (inner := λ rows day, tabulate (λ time, titles_of (day, time) rows)
                              (first_seen (times_of day rows))).
  assert (Hother : ∀ day', day' ≠ day →
            inner (rows ++ [(day, time, title)]) day' = inner rows day').
  { intros day' Hne. unfold inner. rewrite times_of_snoc, decide_False, app_nil_r by done.
    apply tabulate_ext. intros time' _.
    rewrite titles_of_snoc, decide_False, app_nil_r; [done|]. simpl. naive_solver. }
  unfold schedule_of. fold (inner rows). fold (inner (rows ++ [(day, time, title)])).
  rewrite days_of_snoc, first_seen_snoc. cbn [fst snd].
  destruct (decide (day ∈ days_of rows)) as [Hday|Hday].
  - assert (Hget : obj_get (tabulate (inner rows) (first_seen (days_of rows))) day
                   = Some (inner rows day)).
    { rewrite obj_get_tabulate, decide_True; [done|]. by apply first_seen_elem. }
    rewrite !Hget. cbn [default from_option id].
    apply obj_set_tabulate_old;
      [by apply first_seen_elem|apply first_seen_NoDup| |by intros; apply Hother].
    unfold inner. rewrite times_of_snoc, decide_True by done.
    rewrite first_seen_snoc. cbn [fst snd].
    destruct (decide (time ∈ times_of day rows)) as [Htime|Htime].
    + assert (Hget' : obj_get (tabulate (λ time0, titles_of (day, time0) rows)
                                 (first_seen (times_of day rows))) time
                      = Some (titles_of (day, time) rows)).
      { rewrite obj_get_tabulate, decide_True; [done|]. by apply first_seen_elem. }
      rewrite !Hget'. cbn [default from_option id].
      symmetry. apply obj_set_tabulate_old;
        [by apply first_seen_elem|apply first_seen_NoDup| |].
      * by rewrite titles_of_snoc, decide_True.
      * intros time' Hne. rewrite titles_of_snoc, decide_False, app_nil_r; [done|].
        simpl. naive_solver.
    + assert (Hnew : obj_get (tabulate (λ time0, titles_of (day, time0) rows)
                                (first_seen (times_of day rows))) time = None).
      { apply obj_get_tabulate_None. by rewrite first_seen_elem. }
      rewrite !Hnew. rewrite (obj_set_snoc _ _ _ Hnew), (obj_get_snoc _ _ _ Hnew).
      cbn [default from_option id].
      rewrite (obj_set_last _ _ _ _ Hnew), tabulate_snoc. f_equal.
      * apply tabulate_ext. intros time' Htime'.
        rewrite titles_of_snoc, decide_False, app_nil_r; [done|]. simpl.
        intros [= ->]. by apply Htime, first_seen_elem.
      * by rewrite titles_of_snoc, decide_True, titles_of_none.
  - assert (Hnew : obj_get (tabulate (inner rows) (first_seen (days_of rows))) day = None).
    { apply obj_get_tabulate_None. by rewrite first_seen_elem. }
    rewrite !Hnew. rewrite (obj_set_snoc _ _ _ Hnew), (obj_get_snoc _ _ _ Hnew).
    cbn [default from_option id obj_get obj_set].
    rewrite decide_True by done. cbn [default from_option id app].
    rewrite (obj_set_last _ _ _ _ Hnew), tabulate_snoc. f_equal.
    + apply tabulate_ext. intros day' Hday'. symmetry. apply Hother.
      intros ->. by apply Hday, first_seen_elem.
    + f_equal. f_equal. unfold inner.
      rewrite times_of_snoc, times_of_none by done. cbn [fst snd app].
      rewrite !decide_True by done. unfold tabulate. simpl.
      rewrite titles_of_snoc, decide_True, titles_of_none; [done| |done].
      rewrite times_of_none by done. apply not_elem_of_nil.
Qed.

Lemma setUpForm_loop_steps sessions : ∀ pre rows,
  mapM session_slot sessions = Some rows →
  setUpForm_loop (schedule_of pre) sessions = inr (schedule_of (pre ++ rows)).
Proof.
  induction sessions as [|s rest IH]; intros pre rows Hrows.
  - apply mapM_Some in Hrows. apply Forall2_nil_inv_l in Hrows as ->.
    by rewrite app_nil_r.
  - apply mapM_Some in Hrows.
    apply Forall2_cons_inv_l in Hrows as ([[day time] title] & rows' & Hs & Hrest & ->).
    simpl. rewrite (setUpForm_session_step _ _ _ _ _ Hs).
    rewrite (IH (pre ++ [(day, time, title)]) rows') by (by apply mapM_Some).
    by rewrite <- app_assoc.
Qed.

(** The keys of [schedule] are no array indices: they hold a [/] or a [:]. *)
Lemma digits_value_nondigit s1 c s2 : ∀ acc,
  is_digit c = false → digits_value (s1 ++ String c s2)%string acc = None.
Proof.
  induction s1 as [|a s1 IH]; intros acc Hc; simpl.
  - by rewrite Hc.
  - destruct (is_digit a); [by apply IH|done].
Qed.

Lemma array_index_nondigit s1 c s2 :
  is_digit c = false → array_index (s1 ++ String c s2)%string = None.
Proof.
  intros Hc. unfold array_index.
  destruct (s1 ++ String c s2)%string as [|a rest] eqn:Hs; [done|].
  case_decide; [done|].
  by rewrite <- Hs, digits_value_nondigit.
Qed.

Lemma session_slot_named session day time title :
  session_slot session = Some (day, time, title) →
  array_index day = None ∧ array_index time = None.
Proof.
  unfold session_slot.
  destruct (js_index session 1) as [| | | |d]; try done.
  destruct (js_index session 2) as [| | | |t]; try done.
  intros [= <- <- <-]. split.
  - apply (array_index_nondigit (pad2 (getDate d)) "/"%char). done.
  - apply (array_index_nondigit (pad2 (getHours t)) ":"%char). done.
Qed.

Lemma Object_keys_named {V} (o : list (string * V)) :
  Forall (λ kv, array_index kv.1 = None) o → Object_keys o = o.*1.
Proof.
  intros Hnamed. unfold Object_keys.
  assert (Hboth :
    omap (λ kv : string * V, (λ n, (n, kv.1)) <$> array_index kv.1) o = [] ∧
    filter (λ kv : string * V, array_index kv.1 = None) o = o).
  { induction Hnamed as [|kv o Hkv _ [IH1 IH2]]; [done|]. split.
    - simpl. by rewrite Hkv.
    - rewrite filter_cons_True by done. by rewrite IH2. }
  destruct Hboth as [-> ->]. done.
Qed.

Lemma Object_keys_tabulate {V} (f : string → V) ks :
  Forall (λ k, array_index k = None) ks → Object_keys (tabulate f ks) = ks.
Proof.
  intros Hks. rewrite Object_keys_named.
  - unfold tabulate. rewrite <- list_fmap_compose. apply list_fmap_id.
  - unfold tabulate. by apply Forall_fmap.
Qed.

Lemma bind_ext_in {A B} (f g : A → list B) (l : list A) :
  (∀ x, x ∈ l → f x = g x) → l ≫= f = l ≫= g.
Proof.
  induction l as [|a l IH]; intros Hfg; [done|].
  rewrite !bind_cons, IH, (Hfg a).
  - done.
  - apply list_elem_of_here.
  - intros x Hx. apply Hfg. by apply list_elem_of_further.
Qed.

(** Read in the order of [Object.keys], the schedule is the grouping by
    day and, within a day, by time. *)
Lemma schedule_of_read rows (entry : string → string → list JsVal → FormItem) :
  Forall (λ r, array_index r.1.1 = None ∧ array_index r.1.2 = None) rows →
  Object_keys (schedule_of rows) = first_seen (days_of rows) ∧
  ∀ day, day ∈ first_seen (days_of rows) →
    Object_keys (default [] (obj_get (schedule_of rows) day))
      = first_seen (times_of day rows) ∧
    ∀ time, time ∈ first_seen (times_of day rows) →
      default [] (obj_get (default [] (obj_get (schedule_of rows) day)) time)
        = titles_of (day, time) rows.
Proof.
  intros Hnamed.
  assert (Hdays : Forall (λ k, array_index k = None) (first_seen (days_of rows))).
  { apply Forall_forall. intros day Hday.
    apply first_seen_elem, list_elem_of_fmap in Hday as (r & -> & Hr).
    rewrite Forall_forall in Hnamed. by apply Hnamed. }
  split; [by apply Object_keys_tabulate|].
  intros day Hday. unfold schedule_of.
  rewrite obj_get_tabulate, decide_True by done. cbn [default from_option id].
  assert (Htimes : Forall (λ k, array_index k = None) (first_seen (times_of day rows))).
  { apply Forall_forall. intros time Htime.
    apply first_seen_elem, list_elem_of_fmap in Htime as (r & -> & Hr).
    apply list_elem_of_filter in Hr as [_ Hr].
    rewrite Forall_forall in Hnamed. by apply Hnamed. }
  split; [by apply Object_keys_tabulate|].
  intros time Htime. by rewrite obj_get_tabulate, decide_True.
Qed.

Lemma setUpForm_groups_by_day rows :
  Forall (λ r, array_index r.1.1 = None ∧ array_index r.1.2 = None) rows →
  setUpForm_groups (schedule_of rows) = groups_by_day rows ∧
  setUpForm_items (schedule_of rows) = items_by_day rows.
Proof.
  intros Hnamed.
  destruct (schedule_of_read rows (λ _ _ _, SectionHeaderItem "") Hnamed) as [Hkeys Hday].
  unfold setUpForm_groups, setUpForm_items, groups_by_day, items_by_day.
  rewrite !Hkeys. split.
  - apply bind_ext_in. intros day Hin. destruct (Hday day Hin) as [Htimes Htitles].
    rewrite Htimes. apply list_fmap_ext. intros i time Htime.
    rewrite Htitles; [done|]. by eapply list_elem_of_lookup_2.
  - apply bind_ext_in. intros day Hin. destruct (Hday day Hin) as [Htimes Htitles].
    rewrite Htimes. f_equal. apply list_fmap_ext. intros i time Htime.
    rewrite Htitles; [done|]. by eapply list_elem_of_lookup_2.
Qed.

(** C6 (as amended): the grouping orders the groups by day, in first-seen
    order of the day, and within one day by time, in first-seen order of
    the time, so that the groups of one day stand together; within each
    group the choice values are the titles of the group's rows in the
    order of the rows.  The form gets one section header per day, followed
    by one multiple-choice question per group of that day. *)
Theorem C6_groups_by_day_then_time
    (values : list (list JsVal)) (rows : list (string * string * JsVal)) :
  mapM session_slot (drop 1 values) = Some rows →
  ∃ schedule,
    setUpForm_schedule values = inr schedule ∧
    setUpForm_groups schedule = groups_by_day rows ∧
    setUpForm_items schedule = items_by_day rows.
Proof.
  intros Hrows. exists (schedule_of rows).
  split; [exact (setUpForm_loop_steps _ [] rows Hrows)|].
  apply setUpForm_groups_by_day.
  apply mapM_Some in Hrows. apply Forall_forall. intros [[day time] title] Hr.
  apply list_elem_of_lookup in Hr as [i Hr].
  destruct (Forall2_lookup_r _ _ _ _ _ Hrows Hr) as (s & _ & Hs).
  by apply session_slot_named in Hs.
Qed.

(** *** The pass, whatever the rows *)

Lemma reconcile_defined calId sessions : ∀ i events,
  Forall (λ s, is_Some (row_payload s)) sessions →
  is_Some (reconcile calId i sessions events).
Proof.
  induction sessions as [|s rest IH]; intros i events Hok; [by eexists|].
  apply Forall_cons in Hok as [[p Hp] Hrest]. simpl. rewrite Hp. simpl.
  destruct (IH (S i) (<[reconciled_id events s := event_of_payload p]> events) Hrest)
    as [r Hr].
  rewrite Hr. by eexists.
Qed.

(** A row without a time in its start or end cell stops the loop before
    any call is made for it: [time.getHours] is no function. *)
Lemma setUpCalendar_session_bad cal calId i session w :
  (∀ t, js_index session 2 ≠ JDate t) ∨ (∀ t, js_index session 3 ≠ JDate t) →
  setUpCalendar_session cal calId i session w = (inl TypeError, w).
Proof.
  unfold setUpCalendar_session, joinDateAndTime_. intros [Hp|Hp].
  - destruct (js_index session 2) as [| | | |t]; try done. by destruct (Hp t).
  - destruct (js_index session 2) as [| | | |t]; try done.
    destruct (js_index session 3) as [| | | |t']; try done. by destruct (Hp t').
Qed.

Lemma setUpCalendar_loop_stops pre : ∀ w calId events i rows' events' cs bad rest,
  outage w = None → calendars w !! calId = Some events →
  reconcile calId i pre events = Some (rows', events', cs) →
  (∀ t, js_index bad 2 ≠ JDate t) ∨ (∀ t, js_index bad 3 ≠ JDate t) →
  setUpCalendar_loop (Some calId) calId i (pre ++ bad :: rest) w =
    (inl TypeError, advance calId events' cs w).
Proof.
  induction pre as [|s pre IH]; intros w calId events i rows' events' cs bad rest Ho Hc Hr Hbad.
  - simpl in Hr. injection Hr as <- <- <-. simpl. unfold bind.
    rewrite setUpCalendar_session_bad by done. by rewrite advance_same.
  - apply reconcile_cons in Hr as (p & rest' & cs' & Hp & Hr & -> & ->).
    rewrite <- app_comm_cons. cbn [setUpCalendar_loop].
    erewrite bind_ok by (by eapply setUpCalendar_session_up).
    unfold bind at 1. erewrite IH; [|done| |exact Hr|done].
    + by rewrite advance_advance.
    + simpl. apply lookup_insert_eq.
Qed.



Lemma new_calls_started w calId events events' cs cs' pr :
  new_calls w (advance calId events' cs' (advance calId events cs (with_props pr w)))
    = cs ++ cs'.
Proof.
  unfold new_calls. simpl. by rewrite <- app_assoc, drop_app_length.
Qed.

(** X4: a data row whose start cell or end cell holds no [Date] (an empty
    row, say) aborts the pass with a [TypeError] when the loop reaches it.
    No call is made for that row or for a later one; the rows before it
    have had their calls, so that an event has been created for each of
    them whose identifier cell was empty; and the sheet is as before the
    pass, without those identifiers. *)
Theorem X4_malformed_row_aborts_pass (w : World) (k : nat) (bad : list JsVal) :
  outage w = None → 1 ≤ k → sheet w !! k = Some bad →
  (∀ t, js_index bad 2 ≠ JDate t) ∨ (∀ t, js_index bad 3 ≠ JDate t) →
  (∀ i s, 1 ≤ i < k → sheet w !! i = Some s → is_Some (row_payload s)) →
  ∃ w',
    syncCalendar w = (inl TypeError, w') ∧
    sheet w' = sheet w ∧
    (∀ i, k ≤ i → calls_of_row i (new_calls w w') = []) ∧
    ∀ i s, 1 ≤ i < k → sheet w !! i = Some s → js_index s 5 = JStr "" →
      ∃ p calId id events,
        row_payload s = Some p ∧
        calls_of_row i (new_calls w w') = create_calls i p calId id (JStr "") ∧
        calendars w' !! calId = Some events ∧ id ∈ dom events.
Proof.
  intros Ho Hk Hbad Hnone Hpre.
  pose proof (take_drop_middle (drop 1 (sheet w)) (k - 1) bad
                (sheet_row_below _ _ _ Hk Hbad)) as Hsplit.
  set (pre := take (k - 1) (drop 1 (sheet w))) in *.
  set (rest := drop (S (k - 1)) (drop 1 (sheet w))) in *.
  assert (Hpre_at : ∀ j s, pre !! j = Some s → j < k - 1 ∧ sheet w !! (1 + j) = Some s).
  { intros j s Hj. unfold pre in Hj. apply lookup_take_Some in Hj as [Hj Hlt].
    split; [done|]. by rewrite lookup_drop in Hj. }
  assert (Hok : Forall (λ s, is_Some (row_payload s)) pre).
  { apply Forall_lookup. intros j s Hj. destruct (Hpre_at j s Hj) as [Hlt Hs].
    apply (Hpre (1 + j) s); [lia|done]. }
  assert (Hlen : length pre = k - 1).
  { unfold pre. rewrite length_take. apply lookup_lt_Some in Hbad.
    rewrite length_drop. lia. }
  set (calId := (calendar_choice w).1.1).
  destruct (reconcile_defined calId pre 1 (calendar_choice w).1.2 Hok)
    as [[[rows' events'] cs] Hr].
  destruct (start_world w) as (Ho0 & Hs0 & Hc0).
  eexists. split.
  { unfold syncCalendar. erewrite bind_ok by reflexivity.
    rewrite setUpCalendar_start by done. unfold bind at 1.
    rewrite <- Hsplit.
    erewrite setUpCalendar_loop_stops; [reflexivity| |exact Hc0|exact Hr|done].
    by rewrite Ho0. }
  split; [done|].
  rewrite new_calls_started.
  pose proof (reconcile_rows_within _ _ _ _ _ _ _ Hr) as Hwithin.
  split.
  - intros i Hi. rewrite calls_of_row_choice. apply calls_of_row_none.
    eapply Forall_impl; [exact Hwithin|]. simpl.
    intros c (r & Hc & Hle). rewrite Hc. intros [= ->]. lia.
  - intros i s Hi Hs Hempty.
    assert (Hj : pre !! (i - 1) = Some s).
    { unfold pre. rewrite lookup_take_lt by lia. apply sheet_row_below; [lia|done]. }
    destruct (reconcile_row _ _ _ _ _ _ _ (i - 1) s Hr Hj)
      as (p & events_i & Hp & _ & Hcalls & _ & Hin & _).
    replace (1 + (i - 1)) with i in Hcalls by lia.
    unfold reconcile_calls, reconciled_id in *. rewrite Hempty in *. simpl in *.
    exists p, calId, (new_event_id events_i), events'.
    split; [done|]. split; [by rewrite calls_of_row_choice|].
    split; [|done]. simpl. apply lookup_insert_eq.
Qed.



(** X5: a sheet without the column of the identifiers.  When a data row
    has five cells or fewer, the loop runs to its end, creating an event
    for every such row, whose new identifier makes the row six cells long;
    [setValues] then refuses the data, and the pass ends with the host's
    exception and the sheet as it was. *)
Theorem X5_table_without_identifier_column (w : World) :
  outage w = None →
  Forall (λ s, is_Some (row_payload s)) (drop 1 (sheet w)) →
  (∃ k s, 1 ≤ k ∧ sheet w !! k = Some s ∧ length s ≤ 5) →
  ∃ w',
    syncCalendar w = (inl HostException, w') ∧
    sheet w' = sheet w ∧
    ∀ i s, 1 ≤ i → sheet w !! i = Some s → length s ≤ 5 →
      ∃ p calId id events,
        row_payload s = Some p ∧
        calls_of_row i (new_calls w w') = create_calls i p calId id JUndefined ∧
        calendars w' !! calId = Some events ∧ id ∈ dom events.
Proof.
  intros Ho Hok (k & short & Hk & Hshort & Hlen).
  set (calId := (calendar_choice w).1.1).
  destruct (reconcile_defined calId (drop 1 (sheet w)) 1 (calendar_choice w).1.2 Hok)
    as [[[rows' events'] cs] Hr].
  destruct (start_world w) as (Ho0 & Hs0 & Hc0).
  assert (Hshape : length <$> (take 1 (sheet w) ++ rows') ≠ length <$> sheet w).
  { intros Heq. apply (f_equal (λ l, l !! k)) in Heq.
    rewrite !list_lookup_fmap, Hshort in Heq.
    rewrite (sheet_row_after _ _ _ _ Hk Hshort) in Heq.
    destruct (reconcile_row _ _ _ _ _ _ _ (k - 1) short Hr (sheet_row_below _ _ _ Hk Hshort))
      as (p & events_k & _ & _ & _ & Hrow & _).
    rewrite Hrow in Heq. simpl in Heq. injection Heq as Heq.
    rewrite short_row_grows in Heq by done. lia. }
  eexists. split.
  { unfold syncCalendar. erewrite bind_ok by reflexivity.
    rewrite setUpCalendar_start by done.
    erewrite bind_ok; last first.
    { eapply setUpCalendar_loop_up; [by rewrite Ho0|exact Hc0|exact Hr]. }
    unfold Range_setValues. rewrite decide_False; [reflexivity|]. exact Hshape. }
  split; [done|].
  intros i s Hi Hs Hsl. rewrite new_calls_started, calls_of_row_choice.
  destruct (reconcile_row _ _ _ _ _ _ _ (i - 1) s Hr (sheet_row_below _ _ _ Hi Hs))
    as (p & events_i & Hp & _ & Hcalls & _ & Hin & _).
  replace (1 + (i - 1)) with i in Hcalls by lia.
  assert (Hcell : js_index s 5 = JUndefined).
  { unfold js_index. by rewrite lookup_ge_None_2. }
  unfold reconcile_calls, reconciled_id in *. rewrite Hcell in *. simpl in *.
  exists p, calId, (new_event_id events_i), events'.
  split; [done|]. split; [done|]. split; [|done]. simpl. apply lookup_insert_eq.
Qed.



(** X6: on a sheet with no data row (a header alone, or nothing) the
    pass ends well: it makes the calendar when there is none, makes no
    call for any row, writes the sheet back as it is, and leaves the
    identifier of an existing calendar in the script properties. *)
Theorem X6_pass_without_sessions (w : World) :
  outage w = None → drop 1 (sheet w) = [] →
  ∃ w',
    syncCalendar w = (inr tt, w') ∧
    sheet w' = sheet w ∧
    Forall (λ c, call_row c = None) (new_calls w w') ∧
    length (new_calls w w') ≤ 1 ∧
    ∃ calId events, props w' !! "calendarId" = Some calId ∧
                    calendars w' !! calId = Some events.
Proof.
  intros Ho Hrows.
  pose proof (syncCalendar_up w [] (calendar_choice w).1.2 [] Ho) as Hrun.
  rewrite Hrows in Hrun. specialize (Hrun eq_refl eq_refl).
  eexists. split; [exact Hrun|]. rewrite new_calls_advance, !app_nil_r. simpl.
  split.
  { rewrite <- (take_drop 1 (sheet w)) at 2. by rewrite Hrows, app_nil_r. }
  split; [|split].
  - destruct (calendar_choice_calls w) as [->|[id ->]]; repeat constructor.
  - destruct (calendar_choice_calls w) as [->|[id ->]]; simpl; lia.
  - exists (calendar_choice w).1.1, (calendar_choice w).1.2.
    by rewrite !lookup_insert_eq.
Qed.

(** *** The calendar after the pass *)

Lemma reconcile_untouched calId sessions : ∀ i events rows' events' cs id,
  Forall session_ok sessions →
  reconcile calId i sessions events = Some (rows', events', cs) →
  (∀ s', s' ∈ rows' → js_index s' 5 ≠ JStr (event_uid id)) →
  events' !! id = events !! id.
Proof.
  induction sessions as [|s rest IH]; intros i events rows' events' cs id Hok Hr Hnot.
  - simpl in Hr. by injection Hr as <- <- <-.
  - apply Forall_cons in Hok as [[[_ Hlen] _] Hrest].
    apply reconcile_cons in Hr as (p & rest' & cs' & Hp & Hr & -> & ->).
    rewrite (IH _ _ _ _ _ id Hrest Hr).
    + apply lookup_insert_ne. intros Heq.
      apply (Hnot _ (list_elem_of_here _ _)). by rewrite js_index_set_eq, Heq.
    + intros s' Hs'. apply Hnot. by apply list_elem_of_further.
Qed.

Lemma reconcile_grows calId sessions : ∀ i events rows' events' cs,
  reconcile calId i sessions events = Some (rows', events', cs) →
  dom events ⊆ dom events'.
Proof.
  induction sessions as [|s rest IH]; intros i events rows' events' cs Hr.
  - simpl in Hr. by injection Hr as <- <- <-.
  - apply reconcile_cons in Hr as (p & rest' & cs' & Hp & Hr & -> & ->).
    apply IH in Hr. rewrite dom_insert in Hr. set_solver.
Qed.

Lemma reconcile_event calId sessions : ∀ i events rows' events' cs j s',
  Forall session_ok sessions →
  reconcile calId i sessions events = Some (rows', events', cs) →
  rows' !! j = Some s' →
  ∃ id p,
    js_index s' 5 = JStr (event_uid id) ∧ row_payload s' = Some p ∧ id ∈ dom events' ∧
    ((∀ k s'', j < k → rows' !! k = Some s'' → js_index s'' 5 ≠ JStr (event_uid id)) →
     events' !! id = Some (event_of_payload p)).
Proof.
  induction sessions as [|s rest IH]; intros i events rows' events' cs j s' Hok Hr Hj.
  - simpl in Hr. injection Hr as <- <- <-. done.
  - apply Forall_cons in Hok as [[[_ Hlen] _] Hrest].
    apply reconcile_cons in Hr as (p & rest' & cs' & Hp & Hr & -> & ->).
    destruct j as [|j]; simpl in Hj.
    + injection Hj as <-. exists (reconciled_id events s), p.
      split; [by apply js_index_set_eq|]. split; [by rewrite row_payload_set|].
      split.
      { apply (reconcile_grows _ _ _ _ _ _ _ Hr). rewrite dom_insert. set_solver. }
      intros Hlater.
      rewrite (reconcile_untouched _ _ _ _ _ _ _ (reconciled_id events s) Hrest Hr).
      * apply lookup_insert_eq.
      * intros s'' Hin. apply list_elem_of_lookup in Hin as [k Hk].
        apply (Hlater (S k)); [lia|done].
    + destruct (IH _ _ _ _ _ j s' Hrest Hr Hj) as (id & q & Hid & Hq & Hdom & Hev).
      exists id, q. split; [done|]. split; [done|]. split; [done|].
      intros Hlater. apply Hev. intros k s'' Hk Hs''.
      apply (Hlater (S k)); [lia|done].
Qed.

(** X2: after a pass that ends well, the identifier cell of every data
    row holds the identifier of an event of the calendar, followed by
    '@google.com'.  The row has a date and two times, and setting the
    hours and then the minutes of that date to those of the start time
    gives a date, as it does for the end time: when no later row holds the
    same identifier, the event has the title of the row, those two dates
    as its start and its end, and the location of the row, and lets guests
    see guests.  What setting the hours to an hour that does not exist on
    that day gives is the host's to say. *)
Theorem X2_calendar_holds_the_rows (w : World) :
  sheet_ok (sheet w) → outage w = None →
  ∃ w' calId events',
    syncCalendar w = (inr tt, w') ∧
    props w' !! "calendarId" = Some calId ∧
    calendars w' !! calId = Some events' ∧
    ∀ i s', 1 ≤ i → sheet w' !! i = Some s' →
      ∃ id d ts te start finish,
        js_index s' 5 = JStr (event_uid id) ∧ id ∈ dom events' ∧
        Date_new (js_index s' 1) = Some d ∧
        js_index s' 2 = JDate ts ∧ js_index s' 3 = JDate te ∧
        (setHours d (getHours ts) ≫= λ d', setMinutes d' (getMinutes ts)) = Some start ∧
        (setHours d (getHours te) ≫= λ d', setMinutes d' (getMinutes te)) = Some finish ∧
        ((∀ k s'', i < k → sheet w' !! k = Some s'' →
            js_index s'' 5 ≠ JStr (event_uid id)) →
         events' !! id =
           Some (event_of_payload
                   {| summary := js_index s' 0; start_dateTime := start;
                      end_dateTime := finish; payload_location := js_index s' 4 |})).
Proof.
  intros Hok Ho.
  destruct (syncCalendar_ok w (sheet_ok_rows _ Hok) Ho) as (rows' & events' & cs & Hr & Hrun).
  eexists _, (calendar_choice w).1.1, events'. split; [exact Hrun|]. simpl.
  split; [apply lookup_insert_eq|]. split; [apply lookup_insert_eq|].
  assert (Hat : ∀ i, 1 ≤ i → (take 1 (sheet w) ++ rows') !! i = rows' !! (i - 1)).
  { intros i Hi. destruct (sheet w) as [|h t] eqn:Hsh.
    - simpl in Hr. injection Hr as <- _ _. simpl. by rewrite !lookup_nil.
    - simpl. destruct i as [|i]; [lia|]. simpl.
      by rewrite Nat.sub_0_r. }
  intros i s' Hi Hs'. rewrite Hat in Hs' by done.
  destruct (reconcile_event _ _ _ _ _ _ _ (i - 1) s' Hok Hr Hs')
    as (id & p & Hid & Hp & Hdom & Hev).
  destruct (row_payload_derived _ _ Hp)
    as (d & ts & te & Hd & Hts & Hte & Hstart & Hfinish & Htitle & Hloc).
  exists id, d, ts, te, (start_dateTime p), (end_dateTime p).
  do 7 (split; [done|]).
  intros Hlater. rewrite <- Htitle, <- Hloc.
  replace {| summary := summary p; start_dateTime := start_dateTime p;
             end_dateTime := end_dateTime p; payload_location := payload_location p |}
    with p by (by destruct p).
  apply Hev. intros k s'' Hk Hs''.
  apply (Hlater (S k)); [lia|]. rewrite Hat by lia. simpl. by rewrite Nat.sub_0_r.
Qed.


(** *** What the pass leaves alone *)

Lemma keeps_rest_refl w : keeps_rest w w.
Proof. done. Qed.

Lemma keeps_rest_trans w1 w2 w3 : keeps_rest w1 w2 → keeps_rest w2 w3 → keeps_rest w1 w3.
Proof.
  intros (Hf12 & Hu12 & Hp12) (Hf23 & Hu23 & Hp23). repeat split; try congruence.
  intros k Hk. by rewrite Hp23, Hp12.
Qed.

Lemma discreet_bind {A B} (c : Host A) (k : A → Host B) :
  discreet c → (∀ a, discreet (k a)) → discreet (bind c k).
Proof.
  intros Hc Hk w. unfold bind. specialize (Hc w).
  destruct (c w) as [[e|a] w']; simpl in *; [done|].
  eapply keeps_rest_trans; [exact Hc|apply Hk].
Qed.

Lemma discreet_ret {A} (a : A) : discreet (ret a).
Proof. intros w. apply keeps_rest_refl. Qed.

Lemma discreet_throw {A} e : discreet (throw (A:=A) e).
Proof. intros w. apply keeps_rest_refl. Qed.

Lemma discreet_lift {A} (r : Exn + A) : discreet (lift r).
Proof. intros w. apply keeps_rest_refl. Qed.

Lemma discreet_service : discreet calendar_service.
Proof. intros w. unfold calendar_service. by destruct (outage w) as [[|n]|]. Qed.

(** A step of the calendar service: it may change calendars and trace. *)
Lemma discreet_calendar {A} (f : Host A) :
  (∀ w, keeps_rest w (f w).2) → discreet (calendar_service >> f).
Proof. intros Hf. apply discreet_bind; [apply discreet_service|]. by intros _. Qed.

Lemma discreet_getEventById cal i arg : discreet (Calendar_getEventById cal i arg).
Proof.
  destruct cal as [c|]; [|apply discreet_throw].
  apply discreet_calendar. intros w. by destruct (calendars w !! c).
Qed.

Lemma discreet_insert i p calId : discreet (Calendar_Events_insert i p calId).
Proof. apply discreet_calendar. intros w. by destruct (calendars w !! calId). Qed.

Lemma discreet_event_update ev f call : discreet (event_update ev f call).
Proof.
  apply discreet_calendar. intros w.
  destruct (calendars w !! ev.1) as [events|]; [|done].
  by destruct (events !! ev.2).
Qed.

Lemma discreet_setTime i ev start finish :
  discreet (CalendarEvent_setTime i ev start finish).
Proof.
  unfold CalendarEvent_setTime.
  destruct start, finish; try apply discreet_throw. by apply discreet_event_update.
Qed.

Lemma discreet_session cal calId i session :
  discreet (setUpCalendar_session cal calId i session).
Proof.
  unfold setUpCalendar_session.
  apply discreet_bind; [apply discreet_lift|]. intros start.
  apply discreet_bind; [apply discreet_lift|]. intros finish.
  apply discreet_bind; [apply discreet_getEventById|]. intros event.
  apply discreet_bind.
  - destruct event as [event|].
    + apply discreet_bind; [by apply discreet_event_update|]; intros _.
      apply discreet_bind; [apply discreet_setTime|]; intros _.
      apply discreet_bind; [by apply discreet_event_update|]; intros _.
      apply discreet_ret.
    + apply discreet_bind; [apply discreet_lift|]. intros start'.
      apply discreet_bind; [apply discreet_lift|]. intros finish'.
      apply discreet_bind; [apply discreet_insert|]. intros id.
      apply discreet_getEventById.
  - intros [event'|]; [|apply discreet_throw].
    apply discreet_bind; [by apply discreet_event_update|]. intros _.
    apply discreet_ret.
Qed.

Lemma discreet_loop cal calId sessions : ∀ i,
  discreet (setUpCalendar_loop cal calId i sessions).
Proof.
  induction sessions as [|s rest IH]; intros i; simpl; [apply discreet_ret|].
  apply discreet_bind; [apply discreet_session|]. intros s'.
  apply discreet_bind; [apply IH|]. intros rest'. apply discreet_ret.
Qed.

Lemma discreet_getCalendarById id : discreet (CalendarApp_getCalendarById id).
Proof. by apply discreet_calendar. Qed.

Lemma discreet_setUpCalendar_ values : discreet (setUpCalendar_ values).
Proof.
  unfold setUpCalendar_.
  apply discreet_bind; [by intros w|]. intros calId.
  apply discreet_bind.
  { destruct calId; [apply discreet_getCalendarById|apply discreet_ret]. }
  intros known.
  assert (Hnew : discreet
    (let* calId := CalendarApp_createCalendar "LUMICKS Academy Calendar" in
     PropertiesService_setProperty "calendarId" calId >> ret (Some calId, calId))).
  { apply discreet_bind; [by apply discreet_calendar|]. intros c.
    apply discreet_bind; [|intros _; apply discreet_ret].
    intros w. repeat split. intros k Hk. simpl. by rewrite lookup_insert_ne. }
  apply discreet_bind.
  { destruct calId as [c|]; [|exact Hnew]. destruct known; [|exact Hnew].
    apply discreet_bind; [apply discreet_getCalendarById|]. intros cal.
    apply discreet_ret. }
  intros cal_calId.
  apply discreet_bind; [apply discreet_loop|]. intros sessions.
  intros w. unfold Range_setValues. by case_decide.
Qed.

Lemma js_array_set_cells s v :
  length (js_array_set s 5 v) = length s →
  ∀ k, k ≠ 5 → js_array_set s 5 v !! k = s !! k.
Proof.
  intros Hlen k Hk. unfold js_array_set in *. case_decide as Hin.
  - by apply list_lookup_insert_ne.
  - rewrite !length_app, length_replicate in Hlen. simpl in Hlen. lia.
Qed.

(** X3: however the pass ends, it leaves alone the forms, what the user
    has been shown and every script property but the calendar's; the sheet
    keeps its number of rows and its header, every row keeps its length,
    and no cell changes but the identifier cells (index 5). *)
Theorem X3_pass_touches_identifier_cells_only (w : World) :
  keeps_rest w (syncCalendar w).2 ∧
  length (sheet (syncCalendar w).2) = length (sheet w) ∧
  sheet (syncCalendar w).2 !! 0 = sheet w !! 0 ∧
  ∀ i s s', sheet w !! i = Some s → sheet (syncCalendar w).2 !! i = Some s' →
    length s' = length s ∧ ∀ k, k ≠ 5 → s' !! k = s !! k.
Proof.
  split.
  { unfold syncCalendar. apply discreet_bind; [by intros w0|]. intros values.
    apply discreet_setUpCalendar_. }
  destruct (syncCalendar w) as [[e|[]] w'] eqn:Hrun.
  { destruct (abort_safe_syncCalendar w) as [_ Hsheet].
    rewrite Hrun in Hsheet. simpl in *. rewrite (Hsheet e eq_refl).
    split; [done|]. split; [done|]. intros i s s' Hs Hs'.
    rewrite Hs in Hs'. by injection Hs' as <-. }
  simpl. unfold syncCalendar in Hrun.
  apply bind_inr in Hrun as (values & w0 & Hget & Hrun).
  injection Hget as <- <-. unfold setUpCalendar_ in Hrun.
  assert (Hstep : ∀ A (c : Host A) w1 a w2,
            harmless c → c w1 = (inr a, w2) → sheet w2 = sheet w1).
  { intros A c w1 a w2 Hc Hcw. destruct (Hc w1) as [_ Hs]. by rewrite Hcw in Hs. }
  apply bind_inr in Hrun as (calId & w1 & Hs1 & Hrun).
  apply Hstep in Hs1; [|apply harmless_getProperty].
  apply bind_inr in Hrun as (known & w2 & Hs2 & Hrun).
  apply Hstep in Hs2;
    [|destruct calId; [apply harmless_getCalendarById|apply harmless_ret]].
  apply bind_inr in Hrun as (cal_calId & w3 & Hs3 & Hrun).
  apply Hstep in Hs3; last first.
  { assert (Hnew : harmless
      (let* calId := CalendarApp_createCalendar "LUMICKS Academy Calendar" in
       PropertiesService_setProperty "calendarId" calId >> ret (Some calId, calId))).
    { apply harmless_bind; [apply harmless_createCalendar|]. intros c.
      apply harmless_bind; [apply harmless_setProperty|]. intros _. apply harmless_ret. }
    destruct calId as [c|]; [|exact Hnew]. destruct known; [|exact Hnew].
    apply harmless_bind; [apply harmless_getCalendarById|]. intros cal.
    apply harmless_ret. }
  apply bind_inr in Hrun as (rows' & w4 & Hloop & Hrun).
  pose proof (Hstep _ _ _ _ _ (harmless_loop _ _ _ _) Hloop) as Hs4.
  apply setUpCalendar_loop_rows in Hloop.
  unfold Range_setValues in Hrun. case_decide as Hshape; [|done].
  injection Hrun as <-. simpl.
  rewrite Hs4, Hs3, Hs2, Hs1 in Hshape.
  split; [by rewrite <- (length_fmap length), Hshape, length_fmap|].
  split.
  { destruct (sheet w) as [|h t] eqn:Hsh; [|done]. simpl in *.
    apply Forall2_nil_inv_l in Hloop as ->. done. }
  intros i s s' Hs Hs'.
  assert (Hsame : length s' = length s).
  { apply (f_equal (λ l, l !! i)) in Hshape.
    rewrite !list_lookup_fmap, Hs, Hs' in Hshape. by injection Hshape. }
  split; [done|].
  destruct (sheet w) as [|h t]; [done|]. simpl in *.
  destruct i as [|i]; simpl in *; [congruence|].
  rewrite drop_0 in Hloop.
  destruct (Forall2_lookup_l _ _ _ _ _ Hloop Hs) as (s'' & Hs'' & [v Hv]).
  rewrite Hs' in Hs''. injection Hs'' as <-. subst s'.
  by apply js_array_set_cells.
Qed.


(** *** Opening the form and the calendar *)

(** X7: with a stored calendar identifier [openCalendar_] shows the
    dialog that opens the calendar's address, without asking the calendar
    service whether the calendar exists.  With a stored form identifier
    [openForm_] shows the dialog that opens the form's edit address when
    the form exists, and passes on the host's exception, showing nothing,
    when it does not. *)
Theorem X7_open_with_stored_identifier (w : World) (id : string) :
  (props w !! "calendarId" = Some id →
   openCalendar_ w =
     (inr tt,
      with_ui (λ l, l ++ [ModalDialog
                 ("<script>window.open('"
                  ++ ("https://calendar.google.com/calendar/?cid=" ++ id)
                  ++ "', '_blank'); google.script.host.close();</script>")
                 "Now loading."]) w)) ∧
  (props w !! "formId" = Some id → id ∈ forms w →
   openForm_ w =
     (inr tt,
      with_ui (λ l, l ++ [ModalDialog
                 ("<script>window.open('"
                  ++ ("https://docs.google.com/forms/d/" ++ id ++ "/edit")
                  ++ "', '_blank'); google.script.host.close();</script>")
                 "Now loading."]) w)) ∧
  (props w !! "formId" = Some id → id ∉ forms w →
   openForm_ w = (inl HostException, w)).
Proof.
  split; [|split].
  - intros Hp. unfold openCalendar_. erewrite bind_ok by reflexivity. by rewrite Hp.
  - intros Hp Hin. unfold openForm_. erewrite bind_ok by reflexivity. rewrite Hp.
    unfold bind, FormApp_openById. rewrite decide_True by done.
    reflexivity.
  - intros Hp Hin. unfold openForm_. erewrite bind_ok by reflexivity. rewrite Hp.
    unfold bind, FormApp_openById. by rewrite decide_False.
Qed.

End Facts.

(** *** The properties on sample data *)

#[local] Existing Instance Civil_TimeValues.
#[local] Existing Instance Civil_JsDates.

(** C1, as the claim states it, fails.  On [gap_world] the first session
    has an empty identifier cell and is created, as event "0", and yet its
    identifier cell is still empty after the pass, which the empty row
    below it has aborted before the table is written; the third row, whose
    identifier cell is empty too, gets no call at all.  On [new_world],
    where the pass runs to its end, the create of the first session returns
    "0" and the cell holds "0@google.com". *)
Lemma C1_counterexample :
  (js_index (sample_session "Keynote" 23 10 "") 5 = JStr "" ∧
   sheet gap_world !! 1 = Some (sample_session "Keynote" 23 10 "") ∧
   sheet gap_world !! 3 = Some (sample_session "Workshop" 23 11 "") ∧
   (syncCalendar gap_world).1 = inl TypeError ∧
   filter (λ c, is_create c = true)
     (calls_of_row 1 (new_calls gap_world (syncCalendar gap_world).2))
     = [EventsInsert 1 (sample_payload "Keynote" 23 10) "0" "0"] ∧
   sheet (syncCalendar gap_world).2 !! 1 = Some (sample_session "Keynote" 23 10 "") ∧
   calls_of_row 3 (new_calls gap_world (syncCalendar gap_world).2) = []) ∧
  ((syncCalendar new_world).1 = inr tt ∧
   filter (λ c, is_create c = true)
     (calls_of_row 1 (new_calls new_world (syncCalendar new_world).2))
     = [EventsInsert 1 (sample_payload "Keynote" 23 10) "0" "0"] ∧
   js_index (default [] (sheet (syncCalendar new_world).2 !! 1)) 5 = JStr "0@google.com").
Proof. repeat split; by vm_compute. Qed.

(** C1 (as amended) on [new_world]: the first session, whose identifier
    cell is empty, is created. *)
Lemma C1_created_witness :
  ∃ w' calId start finish id,
    syncCalendar new_world = (inr tt, w') ∧
    props w' !! "calendarId" = Some calId ∧
    setHours (on_day 23) (getHours (at_hour 10))
      ≫= (λ d', setMinutes d' (getMinutes (at_hour 10))) = Some start ∧
    setHours (on_day 23) (getHours (at_hour 11))
      ≫= (λ d', setMinutes d' (getMinutes (at_hour 11))) = Some finish ∧
    let p := {| summary := JStr "Keynote"; start_dateTime := start;
                end_dateTime := finish; payload_location := JStr "Room 1" |} in
    calls_of_row 1 (new_calls new_world w') = create_calls 1 p calId id (JStr "") ∧
    filter (λ c, is_create c = true) (calls_of_row 1 (new_calls new_world w'))
      = [EventsInsert 1 p calId id] ∧
    sheet w' !! 1 = Some (sample_session "Keynote" 23 10 (event_uid id)) ∧
    id ≠ "" ∧
    ∃ events, calendars w' !! calId = Some events ∧ id ∈ dom events.
Proof.
  assert (Hrun : syncCalendar new_world = (inr tt, (syncCalendar new_world).2))
    by (apply run_result; by vm_compute).
  destruct (C1_unresolved_row_is_created _ _ Hrun) as (calId & Hprop & Hrows).
  destruct (Hrows 1 (sample_session "Keynote" 23 10 "") (le_n 1) eq_refl
              (or_introl eq_refl))
    as (d & ts & te & start & finish & id & Hd & Hts & Hte & Hstart & Hfinish & Hrow).
  injection Hd as <-. injection Hts as <-. injection Hte as <-.
  exists (syncCalendar new_world).2, calId, start, finish, id.
  split; [exact Hrun|]. split; [exact Hprop|]. split; [exact Hstart|].
  split; [exact Hfinish|]. exact Hrow.
Defined.

(** C2, as the claim states it, fails.  On [known_gap_world] the
    identifier of the session resolves to the event "ev1", and the pass
    makes no call for the session: the empty row above it has aborted the
    pass.  On [pasted_world], where the pass runs to its end, the session
    is updated and its identifier cell, which held "ev1", holds
    "ev1@google.com" after the pass. *)
Lemma C2_counterexample :
  (sheet known_gap_world !! 2 = Some (sample_session "Keynote" 23 10 "ev1@google.com") ∧
   props known_gap_world !! "calendarId" = Some "cal" ∧
   resolve_event (default ∅ (calendars known_gap_world !! "cal"))
     (JStr "ev1@google.com") = Some "ev1" ∧
   (syncCalendar known_gap_world).1 = inl TypeError ∧
   new_calls known_gap_world (syncCalendar known_gap_world).2 = []) ∧
  (sheet pasted_world !! 1 = Some (sample_session "Keynote" 23 10 "ev1") ∧
   (syncCalendar pasted_world).1 = inr tt ∧
   calls_of_row 1 (new_calls pasted_world (syncCalendar pasted_world).2)
     = update_calls 1 (sample_payload "Keynote" 23 10) "ev1" (JStr "ev1") ∧
   sheet (syncCalendar pasted_world).2 !! 1
     = Some (sample_session "Keynote" 23 10 "ev1@google.com")).
Proof. repeat split; by vm_compute. Qed.

(** C2 (as amended) on [known_world]: the first session, whose identifier
    resolves, is updated and keeps its identifier. *)
Lemma C2_updated_witness :
  ∃ w' start finish,
    syncCalendar known_world = (inr tt, w') ∧
    setHours (on_day 23) (getHours (at_hour 10))
      ≫= (λ d', setMinutes d' (getMinutes (at_hour 10))) = Some start ∧
    setHours (on_day 23) (getHours (at_hour 11))
      ≫= (λ d', setMinutes d' (getMinutes (at_hour 11))) = Some finish ∧
    let p := {| summary := JStr "Keynote"; start_dateTime := start;
                end_dateTime := finish; payload_location := JStr "Room 1" |} in
    calls_of_row 1 (new_calls known_world w')
      = update_calls 1 p "ev1" (JStr "ev1@google.com") ∧
    filter (λ c, is_create c = true) (calls_of_row 1 (new_calls known_world w')) = [] ∧
    sheet w' !! 1 = Some (sample_session "Keynote" 23 10 "ev1@google.com").
Proof.
  assert (Hrun : syncCalendar known_world = (inr tt, (syncCalendar known_world).2))
    by (apply run_result; by vm_compute).
  destruct (C2_resolved_row_is_updated _ _ Hrun 1
              (sample_session "Keynote" 23 10 "ev1@google.com") "ev1" (le_n 1) eq_refl)
    as (d & ts & te & start & finish & Hd & Hts & Hte & Hstart & Hfinish
        & Hcalls & Hnone & _ & _ & Hsame).
  { left. eexists _, _. split; [reflexivity|]. split; reflexivity. }
  injection Hd as <-. injection Hts as <-. injection Hte as <-.
  exists (syncCalendar known_world).2, start, finish.
  split; [exact Hrun|]. split; [exact Hstart|]. split; [exact Hfinish|].
  split; [exact Hcalls|]. split; [exact Hnone|]. apply Hsame. reflexivity.
Defined.

(** C3, as the claim states it, fails on the rows of [gap_world]: the
    first run creates the first session and is aborted by the empty row
    before the table is written; the second run, on the same rows, creates
    the first session again, as event "1". *)
Lemma C3_counterexample :
  (syncCalendar gap_world).1 = inl TypeError ∧
  sheet (syncCalendar gap_world).2 = sheet gap_world ∧
  filter (λ c, is_create c = true)
    (new_calls gap_world (syncCalendar gap_world).2)
    = [CreateCalendar "LUMICKS Academy Calendar" "0";
       EventsInsert 1 (sample_payload "Keynote" 23 10) "0" "0"] ∧
  filter (λ c, is_create c = true)
    (new_calls (syncCalendar gap_world).2
       (syncCalendar (syncCalendar gap_world).2).2)
    = [EventsInsert 1 (sample_payload "Keynote" 23 10) "0" "1"].
Proof. repeat split; by vm_compute. Qed.

(** C3 (as amended) on [new_world]. *)
Lemma C3_twice_witness :
  ∃ w1 w2,
    syncCalendar new_world = (inr tt, w1) ∧
    syncCalendar (with_outage None w1) = (inr tt, w2) ∧
    Forall (λ c, is_create c = false) (new_calls w1 w2) ∧
    sent (new_calls w1 w2) = sent (new_calls new_world w1) ∧
    sheet w2 = sheet w1.
Proof.
  assert (Hrun1 : syncCalendar new_world = (inr tt, (syncCalendar new_world).2))
    by (apply run_result; by vm_compute).
  assert (Hrun2 : syncCalendar (with_outage None (syncCalendar new_world).2)
                  = (inr tt, (syncCalendar (with_outage None (syncCalendar new_world).2)).2))
    by (apply run_result; by vm_compute).
  eexists _, _. split; [exact Hrun1|]. split; [exact Hrun2|].
  exact (C3_second_pass_creates_nothing _ _ _ None Hrun1 Hrun2).
Defined.



(** C7 on [new_world], where neither identifier is stored. *)
Lemma C7_alert_witness :
  openForm_ new_world =
    (inr tt, with_ui (λ l, l ++ [Alert "No registration form has been set up yet."])
               new_world) ∧
  openCalendar_ new_world =
    (inr tt, with_ui (λ l, l ++ [Alert "No calendar has been set up yet."]) new_world).
Proof.
  split.
  - apply (proj1 (C7_open_without_identifier_alerts new_world)). reflexivity.
  - apply (proj2 (C7_open_without_identifier_alerts new_world)). reflexivity.
Defined.

(** C6 (as amended) on [interleaved_values]. *)
Lemma C6_by_day_witness :
  ∃ schedule,
    setUpForm_schedule interleaved_values = inr schedule ∧
    setUpForm_groups schedule =
      groups_by_day [("23/12/2019", "10:00:00", JStr "T1");
                     ("24/12/2019", "10:00:00", JStr "T2");
                     ("23/12/2019", "11:00:00", JStr "T3")] ∧
    setUpForm_items schedule =
      items_by_day [("23/12/2019", "10:00:00", JStr "T1");
                    ("24/12/2019", "10:00:00", JStr "T2");
                    ("23/12/2019", "11:00:00", JStr "T3")].
Proof.
  apply (C6_groups_by_day_then_time interleaved_values). reflexivity.
Defined.

(** C6, as the claim states it, fails on [interleaved_values]: the key
    (24 Dec, 10:00) is seen before the key (23 Dec, 11:00), and yet its
    group comes after. *)
Lemma C6_counterexample :
  omap session_slot (drop 1 interleaved_values) =
    [("23/12/2019", "10:00:00", JStr "T1"); ("24/12/2019", "10:00:00", JStr "T2");
     ("23/12/2019", "11:00:00", JStr "T3")] ∧
  groups_first_seen (omap session_slot (drop 1 interleaved_values)) =
    [("23/12/2019", "10:00:00", [JStr "T1"]); ("24/12/2019", "10:00:00", [JStr "T2"]);
     ("23/12/2019", "11:00:00", [JStr "T3"])] ∧
  setUpForm_grouping interleaved_values =
    inr [("23/12/2019", "10:00:00", [JStr "T1"]); ("23/12/2019", "11:00:00", [JStr "T3"]);
         ("24/12/2019", "10:00:00", [JStr "T2"])] ∧
  setUpForm_grouping interleaved_values ≠
    inr (groups_first_seen (omap session_slot (drop 1 interleaved_values))).
Proof. repeat split; by vm_compute. Qed.

(** The example of C6, three sessions of one day: there the code gives
    the groups the claim expects. *)
Lemma C6_same_day_example :
  setUpForm_grouping same_day_values =
    inr [("23/12/2019", "10:00:00", [JStr "T1"; JStr "T2"]);
         ("23/12/2019", "11:00:00", [JStr "T3"])] ∧
  groups_first_seen (omap session_slot (drop 1 same_day_values)) =
    [("23/12/2019", "10:00:00", [JStr "T1"; JStr "T2"]);
     ("23/12/2019", "11:00:00", [JStr "T3"])].
Proof. split; by vm_compute. Qed.

(** X4 on [gap_world], whose second data row is empty. *)
Lemma X4_gap_witness :
  ∃ w',
    syncCalendar gap_world = (inl TypeError, w') ∧
    sheet w' = sheet gap_world ∧
    calls_of_row 2 (new_calls gap_world w') = [] ∧
    calls_of_row 3 (new_calls gap_world w') = [] ∧
    ∃ p calId id events,
      row_payload (sample_session "Keynote" 23 10 "") = Some p ∧
      calls_of_row 1 (new_calls gap_world w') = create_calls 1 p calId id (JStr "") ∧
      calendars w' !! calId = Some events ∧ id ∈ dom events.
Proof.
  destruct (X4_malformed_row_aborts_pass gap_world 2 (replicate 6 (JStr "")))
    as (w' & Hrun & Hsheet & Hlater & Hbefore); try reflexivity.
  - lia.
  - left. intros t. discriminate.
  - intros i s Hi Hs. assert (i = 1) as -> by lia.
    injection Hs as <-. by eexists.
  - exists w'. split; [exact Hrun|]. split; [exact Hsheet|].
    split; [apply Hlater; lia|]. split; [apply Hlater; lia|].
    apply (Hbefore 1); [lia|reflexivity|reflexivity].
Defined.

(** X5 on [narrow_world]. *)
Lemma X5_narrow_witness :
  ∃ w',
    syncCalendar narrow_world = (inl HostException, w') ∧
    sheet w' = sheet narrow_world ∧
    ∃ p calId id events,
      row_payload (take 5 (sample_session "Keynote" 23 10 "")) = Some p ∧
      calls_of_row 1 (new_calls narrow_world w') = create_calls 1 p calId id JUndefined ∧
      calendars w' !! calId = Some events ∧ id ∈ dom events.
Proof.
  destruct (X5_table_without_identifier_column narrow_world) as (w' & Hrun & Hsheet & Hrows).
  - reflexivity.
  - simpl. repeat constructor. by eexists.
  - exists 1, (take 5 (sample_session "Keynote" 23 10 "")).
    split; [lia|]. split; [reflexivity|simpl; lia].
  - exists w'. split; [exact Hrun|]. split; [exact Hsheet|].
    apply (Hrows 1); [lia|reflexivity|simpl; lia].
Defined.


(** X6 on [header_world]. *)
Lemma X6_header_only_witness :
  ∃ w',
    syncCalendar header_world = (inr tt, w') ∧
    sheet w' = sheet header_world ∧
    Forall (λ c, call_row c = None) (new_calls header_world w') ∧
    length (new_calls header_world w') ≤ 1 ∧
    ∃ calId events, props w' !! "calendarId" = Some calId ∧
                    calendars w' !! calId = Some events.
Proof. apply (X6_pass_without_sessions header_world); reflexivity. Defined.

(** X2 on [new_world]: the event of the first session. *)
Lemma X2_calendar_holds_witness :
  ∃ w' calId events' id,
    syncCalendar new_world = (inr tt, w') ∧
    props w' !! "calendarId" = Some calId ∧
    calendars w' !! calId = Some events' ∧
    sheet w' !! 1 = Some (sample_session "Keynote" 23 10 (event_uid id)) ∧
    events' !! id = Some (event_of_payload (sample_payload "Keynote" 23 10)).
Proof.
  destruct (X2_calendar_holds_the_rows new_world ltac:(sheet_ok_now) eq_refl)
    as (w' & calId & events' & Hrun & Hprop & Hcal & Hrows).
  assert (Hw : w' = (syncCalendar new_world).2) by (by rewrite Hrun).
  assert (Hrow1 : sheet w' !! 1 = Some (sample_session "Keynote" 23 10 "0@google.com"))
    by (rewrite Hw; by vm_compute).
  assert (Hrow2 : sheet w' !! 2 = Some (sample_session "Workshop" 23 11 "1@google.com"))
    by (rewrite Hw; by vm_compute).
  assert (Hrow3 : ∀ k, sheet w' !! S (S (S k)) = None).
  { intros k. apply lookup_ge_None_2. rewrite Hw. vm_compute. lia. }
  destruct (Hrows 1 _ (le_n 1) Hrow1)
    as (id & d & ts & te & start & finish & Hid & _ & Hd & Hts & Hte & Hstart & Hfinish & Hev).
  injection Hid as Hid. apply (event_uid_inj "0") in Hid as <-.
  injection Hd as <-. injection Hts as <-. injection Hte as <-.
  injection Hstart as <-. injection Hfinish as <-.
  exists w', calId, events', "0".
  split; [exact Hrun|]. split; [exact Hprop|]. split; [exact Hcal|].
  split; [exact Hrow1|]. apply Hev.
  intros k s'' Hk Hs''.
  destruct k as [|[|[|k]]]; [lia|lia| |].
  - rewrite Hrow2 in Hs''. by injection Hs'' as <-.
  - by rewrite (Hrow3 k) in Hs''.
Defined.

(** X7 on [linked_world], and on [unlinked_world], whose form is gone. *)
Lemma X7_open_witness :
  openCalendar_ linked_world =
    (inr tt,
     with_ui (λ l, l ++ [ModalDialog
                ("<script>window.open('https://calendar.google.com/calendar/?cid=cal"
                 ++ "', '_blank'); google.script.host.close();</script>")
                "Now loading."]) linked_world) ∧
  openForm_ linked_world =
    (inr tt,
     with_ui (λ l, l ++ [ModalDialog
                ("<script>window.open('https://docs.google.com/forms/d/form/edit"
                 ++ "', '_blank'); google.script.host.close();</script>")
                "Now loading."]) linked_world) ∧
  openForm_ unlinked_world = (inl HostException, unlinked_world).
Proof.
  split; [|split].
  - apply (proj1 (X7_open_with_stored_identifier linked_world "cal")). reflexivity.
  - apply (proj1 (proj2 (X7_open_with_stored_identifier linked_world "form"))).
    + reflexivity.
    + by vm_compute.
  - apply (proj2 (proj2 (X7_open_with_stored_identifier unlinked_world "form"))).
    + reflexivity.
    + by vm_compute.
Defined.

End ConferenceFacts.

(** ** Properties of the registration form, the triggers and the invitations *)
Module RegistrationFacts.
Import Conference ConferenceFacts Registration.
Local Open Scope list_scope.
Local Open Scope nat_scope.

Section Facts.
Context {time_values : TimeValues} {dates : JsDates}.

(** *** Computations on the platform *)

Lemma platform_eq p p' :
  world p = world p' → form_data p = form_data p' → triggers p = triggers p' →
  destinations p = destinations p' → guests p = guests p' → p = p'.
Proof. destruct p, p'; simpl; congruence. Qed.

Lemma sbind_ok {A B} (c : Script A) (k : A → Script B) p a p' :
  c p = (inr a, p') → sbind c k p = k a p'.
Proof. unfold sbind. by intros ->. Qed.

Lemma sbind_fail {A B} (c : Script A) (k : A → Script B) p e p' :
  c p = (inl e, p') → sbind c k p = (inl e, p').
Proof. unfold sbind. by intros ->. Qed.

Lemma run_ok {A} (c : Host A) p r w' :
  c (world p) = (r, w') → run c p = (r, with_world w' p).
Proof. unfold run. by intros ->. Qed.

Lemma with_world_same p : with_world (world p) p = p.
Proof. by destruct p. Qed.

Lemma run_pure {A} (c : Host A) p a :
  c (world p) = (inr a, world p) → run c p = (inr a, p).
Proof. intros Hc. rewrite (run_ok _ _ _ _ Hc). by rewrite with_world_same. Qed.

(** *** [resetConference_] *)

Lemma remove_first_all {A} `{EqDecision A} (l : list A) :
  foldl (λ acc a, remove_first a acc) l l = [].
Proof.
  induction l as [|a l IH]; [done|]. simpl. by rewrite decide_True.
Qed.

Lemma forEach_deleteTrigger l : ∀ p,
  forEach l (λ trigger, ScriptApp_deleteTrigger trigger) p =
    (inr tt, with_triggers (λ ts, foldl (λ acc t, remove_first t acc) ts l) p).
Proof.
  induction l as [|t l IH]; intros p; simpl.
  - unfold sret. f_equal. by destruct p.
  - unfold sbind, ScriptApp_deleteTrigger. by rewrite IH.
Qed.

(** X8: [resetConference_] asks before it acts.  On 'Cancel' nothing
    changes.  On any other answer (OK, or the dialog closed) the stored
    calendar and form identifiers are gone and every trigger of the project
    is deleted.  The calendars and their events, the forms and their
    items, the guests and the sheet are never touched. *)
Theorem X8_resetConference_unlinks (p : Platform) (answer : Button) :
  ∃ p',
    resetConference_ answer p = (inr tt, p') ∧
    sheet (world p') = sheet (world p) ∧
    calendars (world p') = calendars (world p) ∧
    forms (world p') = forms (world p) ∧
    form_data p' = form_data p ∧ guests p' = guests p ∧
    (answer = CANCEL → props (world p') = props (world p) ∧ triggers p' = triggers p) ∧
    (answer ≠ CANCEL →
     props (world p') = delete "formId" (delete "calendarId" (props (world p))) ∧
     triggers p' = []).
Proof.
  unfold resetConference_.
  erewrite sbind_ok by (apply run_ok; reflexivity).
  destruct (decide (answer = CANCEL)) as [->|Hne].
  - eexists. split; [reflexivity|]. by repeat split.
  - erewrite sbind_ok by (apply run_ok; reflexivity).
    erewrite sbind_ok by (apply run_ok; reflexivity).
    erewrite sbind_ok by reflexivity.
    rewrite forEach_deleteTrigger.
    eexists. split; [reflexivity|]. simpl. repeat split; try done.
    apply remove_first_all.
Qed.


(** *** The items of a form *)

Lemma form_of_lookup p form f : form_data p !! form = Some f → form_of p form = f.
Proof. unfold form_of. by intros ->. Qed.

Lemma Form_update_ok form g p title items :
  form_data p !! form = Some (mkForm title items) →
  Form_update form g p =
    (inr tt, with_form_data <[form := mkForm title (g items)]> p).
Proof. intros Hf. unfold Form_update. by rewrite (form_of_lookup _ _ _ Hf). Qed.

Lemma with_form_data_twice form f1 f2 p :
  with_form_data <[form := f2]> (with_form_data <[form := f1]> p)
  = with_form_data <[form := f2]> p.
Proof. apply platform_eq; simpl; try done. apply insert_insert_eq. Qed.

Lemma with_form_data_same form f p :
  form_data p !! form = Some f → with_form_data <[form := f]> p = p.
Proof. intros Hf. apply platform_eq; simpl; try done. by apply insert_id. Qed.

(** A loop whose every turn appends items to the form appends them all. *)
Lemma forEach_appends {A} form title (body : A → Script unit) (out : A → list Item) xs :
  (∀ x p items, form_data p !! form = Some (mkForm title items) →
     body x p = (inr tt, with_form_data <[form := mkForm title (items ++ out x)]> p)) →
  ∀ p items, form_data p !! form = Some (mkForm title items) →
    forEach xs body p =
      (inr tt, with_form_data <[form := mkForm title (items ++ (xs ≫= out))]> p).
Proof.
  intros Hbody. induction xs as [|x xs IH]; intros p items Hf; simpl.
  - rewrite app_nil_r. unfold sret. by rewrite with_form_data_same.
  - erewrite sbind_ok by (by apply Hbody).
    erewrite IH by (simpl; apply lookup_insert_eq).
    by rewrite with_form_data_twice, <- app_assoc.
Qed.

Lemma Form_addItem_ok form item p title items :
  form_data p !! form = Some (mkForm title items) →
  Form_addItem form item p =
    (inr tt, with_form_data <[form := mkForm title (items ++ [item])]> p).
Proof. intros Hf. unfold Form_addItem. by rewrite (Form_update_ok _ _ _ _ _ Hf). Qed.

Lemma forEach_addItem {A} form title (g : A → Item) xs p items :
  form_data p !! form = Some (mkForm title items) →
  forEach xs (λ x, Form_addItem form (g x)) p =
    (inr tt, with_form_data <[form := mkForm title (items ++ (g <$> xs))]> p).
Proof.
  intros Hf.
  rewrite (forEach_appends form title (λ x, Form_addItem form (g x)) (λ x, [g x]) xs
             (λ x p' items' Hf', Form_addItem_ok form (g x) p' title items' Hf') p items Hf).
  assert (Hout : xs ≫= (λ x, [g x]) = g <$> xs).
  { clear. induction xs as [|x xs IH]; [done|]. by rewrite bind_cons, IH. }
  by rewrite Hout.
Qed.

Lemma remove_first_skip {A} `{EqDecision A} (P : A → Prop) xs : ∀ a (acc : list A),
  Forall P xs → ¬ P a →
  foldl (λ acc x, remove_first x acc) (a :: acc) xs
  = a :: foldl (λ acc x, remove_first x acc) acc xs.
Proof.
  induction xs as [|x xs IH]; intros a acc HP Ha; [done|].
  apply Forall_cons in HP as [Hx HP]. simpl.
  rewrite decide_False by (by intros ->). by apply IH.
Qed.

(** Deleting the items of one kind, each in turn, leaves the others. *)
Lemma remove_first_filter {A} `{EqDecision A} (P : A → Prop) `{∀ x, Decision (P x)}
    (l : list A) :
  foldl (λ acc x, remove_first x acc) l (filter P l) = filter (λ x, ¬ P x) l.
Proof.
  induction l as [|a l IH]; [done|].
  destruct (decide (P a)) as [Ha|Ha].
  - rewrite filter_cons_True by done. simpl. rewrite decide_True by done.
    rewrite IH. by rewrite filter_cons_False by (by intros Hn).
  - rewrite filter_cons_False by done.
    rewrite (remove_first_skip P); [|apply Forall_forall|done].
    + rewrite IH. by rewrite filter_cons_True.
    + intros x Hx. by apply list_elem_of_filter in Hx as [? ?].
Qed.

Lemma forEach_deleteItem form title xs : ∀ p items,
  form_data p !! form = Some (mkForm title items) →
  forEach xs (λ item, Form_deleteItem form item) p =
    (inr tt,
     with_form_data
       <[form := mkForm title (foldl (λ acc x, remove_first x acc) items xs)]> p).
Proof.
  induction xs as [|x xs IH]; intros p items Hf; simpl.
  - unfold sret. by rewrite with_form_data_same.
  - unfold Form_deleteItem at 1. erewrite sbind_ok by (by apply Form_update_ok).
    erewrite IH by (simpl; apply lookup_insert_eq).
    by rewrite with_form_data_twice.
Qed.

(** Deleting all the items of type [type]. *)
Lemma delete_items_of_type form type p title items :
  form_data p !! form = Some (mkForm title items) →
  (let+ found := Form_getItems form type in
   forEach found (λ item, Form_deleteItem form item)) p =
    (inr tt,
     with_form_data
       <[form := mkForm title (filter (λ item, item_type item ≠ type) items)]> p).
Proof.
  intros Hf. erewrite sbind_ok; last first.
  { unfold Form_getItems. by rewrite (form_of_lookup _ _ _ Hf). }
  simpl. rewrite (forEach_deleteItem form title _ p items Hf).
  by rewrite (remove_first_filter (λ item, item_type item = type)).
Qed.


(** *** [setUpForm_] *)

Lemma text_items_left (items : list Item) :
  filter (λ item, item_type item ≠ SECTION_HEADER)
    (filter (λ item, item_type item ≠ MULTIPLE_CHOICE) items)
  = filter (λ item, item_type item = TEXT) items.
Proof.
  induction items as [|item items IH]; [done|].
  destruct item as [t r|[t|t cs]]; simpl.
  - rewrite !filter_cons_True by done. by rewrite IH.
  - rewrite (filter_cons_True (λ item, item_type item ≠ MULTIPLE_CHOICE)) by done.
    by rewrite !filter_cons_False by (simpl; naive_solver).
  - by rewrite !filter_cons_False by (simpl; naive_solver).
Qed.

Lemma session_items_bind (schedule : list (string * list (string * list JsVal))) :
  SessionItem <$> setUpForm_items schedule =
  Object_keys schedule ≫= λ day,
    SessionItem (SectionHeaderItem ("Sessions for " ++ day)) ::
    ((λ time, SessionItem
                (MultipleChoiceItem (time ++ " " ++ day)
                   (default [] (obj_get (default [] (obj_get schedule day)) time))))
       <$> Object_keys (default [] (obj_get schedule day))).
Proof.
  unfold setUpForm_items.
  induction (Object_keys schedule) as [|day days IH]; [done|].
  rewrite !bind_cons, fmap_app, IH. f_equal.
  by rewrite fmap_cons, <- list_fmap_compose.
Qed.

(** [setUpForm_] once it holds its form: the form is linked to a new
    response sheet, loses its section headers and multiple-choice
    questions, and gets those of the schedule. *)
Lemma setUpForm_questions ss (schedule : list (string * list (string * list JsVal)))
    form p title items :
  form_data p !! form = Some (mkForm title items) →
  (Form_setDestination form ss >>+
   (let+ items := Form_getItems form MULTIPLE_CHOICE in
    forEach items (λ item, Form_deleteItem form item)) >>+
   (let+ items := Form_getItems form SECTION_HEADER in
    forEach items (λ item, Form_deleteItem form item)) >>+
   forEach (Object_keys schedule) (λ day,
     Form_addItem form (SessionItem (SectionHeaderItem ("Sessions for " ++ day))) >>+
     forEach (Object_keys (default [] (obj_get schedule day))) (λ time,
       Form_addItem form
         (SessionItem
            (MultipleChoiceItem (time ++ " " ++ day)
               (default [] (obj_get (default [] (obj_get schedule day)) time))))))) p
  = (inr tt,
     with_form_data
       <[form := mkForm title (filter (λ item, item_type item = TEXT) items ++
                                (SessionItem <$> setUpForm_items schedule))]>
       (with_destinations (λ l, l ++ [(form, ss)]) p)).
Proof.
  intros Hf.
  erewrite sbind_ok by reflexivity.
  erewrite sbind_ok by (by apply delete_items_of_type).
  erewrite sbind_ok by (apply delete_items_of_type; simpl; apply lookup_insert_eq).
  rewrite with_form_data_twice, text_items_left.
  erewrite (forEach_appends form title); [| |simpl; apply lookup_insert_eq].
  - by rewrite with_form_data_twice, session_items_bind.
  - intros day p' items' Hf'. simpl.
    erewrite sbind_ok by (by apply Form_addItem_ok).
    erewrite forEach_addItem by (simpl; apply lookup_insert_eq).
    by rewrite with_form_data_twice, <- app_assoc.
Qed.


(** [setUpForm_] when the stored form exists. *)
Lemma setUpForm_known ss values p schedule id title items :
  setUpForm_schedule values = inr schedule →
  props (world p) !! "formId" = Some id → id ∈ forms (world p) →
  form_data p !! id = Some (mkForm title items) →
  setUpForm_ ss values p =
    (inr tt,
     with_form_data
       <[id := mkForm title (filter (λ item, item_type item = TEXT) items ++
                              (SessionItem <$> setUpForm_items schedule))]>
       (with_destinations (λ l, l ++ [(id, ss)]) p)).
Proof.
  intros Hs Hp Hin Hf. unfold setUpForm_.
  erewrite sbind_ok by (apply run_pure; unfold lift; by rewrite Hs).
  erewrite sbind_ok by (by apply run_pure).
  rewrite Hp.
  erewrite sbind_ok; last first.
  { unfold try_catch. erewrite sbind_ok; [reflexivity|].
    apply run_pure. unfold FormApp_openById. by rewrite decide_True. }
  erewrite sbind_ok by reflexivity.
  by apply setUpForm_questions.
Qed.

(** [setUpForm_] when no form is stored, or when the stored form is gone. *)
Lemma setUpForm_new ss values p schedule :
  setUpForm_schedule values = inr schedule →
  (props (world p) !! "formId" = None ∨
   ∃ id0, props (world p) !! "formId" = Some id0 ∧ id0 ∉ forms (world p)) →
  setUpForm_ ss values p =
    (inr tt,
     let id := fresh (forms (world p)) in
     {| world := with_props <["formId" := id]> (with_forms (union {[id]}) (world p));
        form_data :=
          <[id := mkForm "LUMICKS Academy Registration"
                    (TextItem "Name" true :: TextItem "Email" true ::
                     (SessionItem <$> setUpForm_items schedule))]> (form_data p);
        triggers := triggers p ++ [mkTrigger "onFormSubmit" ss];
        destinations := destinations p ++ [(id, ss)];
        guests := guests p |}).
Proof.
  intros Hs Hnone. unfold setUpForm_.
  erewrite sbind_ok by (apply run_pure; unfold lift; by rewrite Hs).
  erewrite sbind_ok by (by apply run_pure).
  erewrite sbind_ok; last first.
  { instantiate (1 := p). instantiate (1 := None).
    destruct Hnone as [->|(id0 & -> & Hgone)]; [done|].
    unfold try_catch. erewrite sbind_fail; [reflexivity|].
    unfold run, FormApp_openById. rewrite decide_False by done. simpl.
    by rewrite with_world_same. }
  set (id := fresh (forms (world p))).
  erewrite sbind_ok; last first.
  { erewrite sbind_ok by reflexivity. fold id.
    erewrite sbind_ok by (apply run_ok; reflexivity).
    erewrite sbind_ok by (apply Form_addItem_ok; simpl; apply lookup_insert_eq).
    erewrite sbind_ok by (apply Form_addItem_ok; simpl; apply lookup_insert_eq).
    erewrite sbind_ok by reflexivity. reflexivity. }
  erewrite setUpForm_questions by (simpl; apply lookup_insert_eq).
  f_equal. apply platform_eq; simpl; try done.
  by rewrite !insert_insert_eq.
Qed.


(** X10: [setUpForm_] on the stored form, when it exists.  The form
    keeps its text items, in their order; its section headers and
    multiple-choice questions are deleted, and those of the schedule are
    added after the text items.  The form is linked to one more response
    sheet; no trigger is added, and nothing else changes. *)
Theorem X10_setUpForm_refreshes_questions (ss : string) (values : list (list JsVal))
    (p : Platform) (schedule : list (string * list (string * list JsVal)))
    (id title : string) (items : list Item) :
  setUpForm_schedule values = inr schedule →
  props (world p) !! "formId" = Some id → id ∈ forms (world p) →
  form_data p !! id = Some (mkForm title items) →
  ∃ p',
    setUpForm_ ss values p = (inr tt, p') ∧
    form_data p' =
      <[id := mkForm title (filter (λ item, item_type item = TEXT) items ++
                             (SessionItem <$> setUpForm_items schedule))]> (form_data p) ∧
    world p' = world p ∧ triggers p' = triggers p ∧ guests p' = guests p ∧
    destinations p' = destinations p ++ [(id, ss)].
Proof.
  intros Hs Hp Hin Hf. eexists. split; [by eapply setUpForm_known|]. done.
Qed.

(** X11: [setUpForm_] when no form identifier is stored, or when the
    stored one names no form.  A form 'LUMICKS Academy Registration' is
    made, with a new identifier, which is stored; it holds the required
    text items 'Name' and 'Email', then the items of the schedule.  One
    trigger for [onFormSubmit] is added to what triggers there are, and
    the form is linked to a response sheet. *)
Theorem X11_setUpForm_creates_form (ss : string) (values : list (list JsVal))
    (p : Platform) (schedule : list (string * list (string * list JsVal))) :
  setUpForm_schedule values = inr schedule →
  (props (world p) !! "formId" = None ∨
   ∃ id0, props (world p) !! "formId" = Some id0 ∧ id0 ∉ forms (world p)) →
  ∃ p' id,
    setUpForm_ ss values p = (inr tt, p') ∧
    (id ∉ forms (world p)) ∧
    forms (world p') = {[id]} ∪ forms (world p) ∧
    props (world p') = <["formId" := id]> (props (world p)) ∧
    form_data p' =
      <[id := mkForm "LUMICKS Academy Registration"
                (TextItem "Name" true :: TextItem "Email" true ::
                 (SessionItem <$> setUpForm_items schedule))]> (form_data p) ∧
    triggers p' = triggers p ++ [mkTrigger "onFormSubmit" ss] ∧
    destinations p' = destinations p ++ [(id, ss)] ∧
    guests p' = guests p ∧
    sheet (world p') = sheet (world p) ∧ calendars (world p') = calendars (world p).
Proof.
  intros Hs Hnone. eexists _, (fresh (forms (world p))).
  split; [by apply setUpForm_new|]. simpl.
  split; [apply is_fresh|done].
Qed.

Lemma filter_text_again (items : list Item) (qs : list FormItem) :
  filter (λ item, item_type item = TEXT)
    (filter (λ item, item_type item = TEXT) items ++ (SessionItem <$> qs))
  = filter (λ item, item_type item = TEXT) items.
Proof.
  rewrite filter_app.
  assert (Hqs : filter (λ item, item_type item = TEXT) (SessionItem <$> qs) = []).
  { induction qs as [|q qs IH]; [done|]. rewrite fmap_cons.
    rewrite filter_cons_False; [done|]. by destruct q. }
  rewrite Hqs, app_nil_r.
  induction items as [|item items IH]; [done|].
  destruct (decide (item_type item = TEXT)) as [Ht|Ht].
  - rewrite !filter_cons_True by done. by rewrite IH.
  - by rewrite filter_cons_False.
Qed.

(** X12: run a second time on the same rows, [setUpForm_] leaves every
    form with the title and the items the first run left it, makes no form
    and no trigger, and changes no property; it links the form to one more
    response sheet. *)
Theorem X12_setUpForm_twice (ss : string) (values : list (list JsVal)) (p : Platform)
    (schedule : list (string * list (string * list JsVal))) :
  setUpForm_schedule values = inr schedule →
  forms (world p) ⊆ dom (form_data p) →
  ∃ p1 p2 id,
    setUpForm_ ss values p = (inr tt, p1) ∧
    setUpForm_ ss values p1 = (inr tt, p2) ∧
    props (world p1) !! "formId" = Some id ∧
    world p2 = world p1 ∧ form_data p2 = form_data p1 ∧
    triggers p2 = triggers p1 ∧ guests p2 = guests p1 ∧
    destinations p2 = destinations p1 ++ [(id, ss)].
Proof.
  intros Hs Hdata.
  assert (Hagain : ∀ p1 id title items,
    props (world p1) !! "formId" = Some id → id ∈ forms (world p1) →
    form_data p1 !! id
      = Some (mkForm title (filter (λ item, item_type item = TEXT) items ++
                            (SessionItem <$> setUpForm_items schedule))) →
    ∃ p2, setUpForm_ ss values p1 = (inr tt, p2) ∧
          world p2 = world p1 ∧ form_data p2 = form_data p1 ∧
          triggers p2 = triggers p1 ∧ guests p2 = guests p1 ∧
          destinations p2 = destinations p1 ++ [(id, ss)]).
  { intros p1 id title items Hp Hin Hf. eexists.
    split; [by eapply setUpForm_known|]. simpl. repeat split.
    rewrite filter_text_again. by apply insert_id. }
  destruct (props (world p) !! "formId") as [id|] eqn:Hp.
  - destruct (decide (id ∈ forms (world p))) as [Hin|Hgone].
    + assert (is_Some (form_data p !! id)) as [[title items] Hf].
      { apply elem_of_dom. by apply Hdata. }
      destruct (Hagain
        (with_form_data
           <[id := mkForm title (filter (λ item, item_type item = TEXT) items ++
                                  (SessionItem <$> setUpForm_items schedule))]>
           (with_destinations (λ l, l ++ [(id, ss)]) p)) id title items)
        as (p2 & Hrun2 & Hrest); [done|done|simpl; apply lookup_insert_eq|].
      eexists _, p2, id. split; [by eapply setUpForm_known|]. by split.
    + set (new := fresh (forms (world p))).
      destruct (Hagain
        {| world := with_props <["formId" := new]> (with_forms (union {[new]}) (world p));
           form_data :=
             <[new := mkForm "LUMICKS Academy Registration"
                        (TextItem "Name" true :: TextItem "Email" true ::
                         (SessionItem <$> setUpForm_items schedule))]> (form_data p);
           triggers := triggers p ++ [mkTrigger "onFormSubmit" ss];
           destinations := destinations p ++ [(new, ss)];
           guests := guests p |} new "LUMICKS Academy Registration"
        [TextItem "Name" true; TextItem "Email" true])
        as (p2 & Hrun2 & Hrest).
      { simpl. apply lookup_insert_eq. }
      { simpl. set_solver. }
      { simpl. apply lookup_insert_eq. }
      eexists _, p2, new. split; [apply setUpForm_new; [done|eauto]|].
      split; [done|]. split; [simpl; apply lookup_insert_eq|done].
  - set (new := fresh (forms (world p))).
    destruct (Hagain
      {| world := with_props <["formId" := new]> (with_forms (union {[new]}) (world p));
         form_data :=
           <[new := mkForm "LUMICKS Academy Registration"
                      (TextItem "Name" true :: TextItem "Email" true ::
                       (SessionItem <$> setUpForm_items schedule))]> (form_data p);
         triggers := triggers p ++ [mkTrigger "onFormSubmit" ss];
         destinations := destinations p ++ [(new, ss)];
         guests := guests p |} new "LUMICKS Academy Registration"
      [TextItem "Name" true; TextItem "Email" true])
      as (p2 & Hrun2 & Hrest).
    { simpl. apply lookup_insert_eq. }
    { simpl. set_solver. }
    { simpl. apply lookup_insert_eq. }
    eexists _, p2, new. split; [apply setUpForm_new; [done|by left]|].
    split; [done|]. split; [simpl; apply lookup_insert_eq|done].
Qed.

(** *** [setUpConference] *)

Lemma session_ok_slot s : session_ok s → is_Some (session_slot s).
Proof.
  intros [[[p Hp] _] [d Hd]]. unfold row_payload, joinDateAndTime_, session_slot in *.
  rewrite Hd. by destruct (js_index s 2) as [| | | |t].
Qed.

Lemma session_slot_set s v : 5 < length s → session_slot (js_array_set s 5 v) = session_slot s.
Proof. intros Hlen. unfold session_slot. by rewrite !js_index_set_ne. Qed.

(** The pass leaves the slot of every session as it is. *)
Lemma reconcile_slots calId sessions : ∀ i events rows' events' cs,
  Forall session_ok sessions →
  reconcile calId i sessions events = Some (rows', events', cs) →
  session_slot <$> rows' = session_slot <$> sessions.
Proof.
  induction sessions as [|s rest IH]; intros i events rows' events' cs Hok Hr.
  - simpl in Hr. by injection Hr as <- <- <-.
  - apply Forall_cons in Hok as [[[_ Hlen] _] Hrest].
    apply reconcile_cons in Hr as (p & rest' & cs' & Hp & Hr & -> & ->).
    rewrite !fmap_cons, session_slot_set by done. f_equal. by eapply IH.
Qed.

Lemma mapM_fmap_eq {A B} (f : A → option B) (l l' : list A) :
  f <$> l = f <$> l' → mapM f l = mapM f l'.
Proof.
  revert l'. induction l as [|a l IH]; intros [|a' l'] Heq; try done.
  rewrite !fmap_cons in Heq. injection Heq as Ha Hl.
  simpl. by rewrite Ha, (IH l' Hl).
Qed.

Lemma slots_defined sessions :
  Forall session_ok sessions → is_Some (mapM session_slot sessions).
Proof.
  intros Hok. apply mapM_is_Some.
  eapply Forall_impl; [exact Hok|]. apply session_ok_slot.
Qed.

(** The form after a run of [setUpForm_] that ends well. *)
Lemma setUpForm_runs ss values p schedule :
  forms (world p) ⊆ dom (form_data p) →
  setUpForm_schedule values = inr schedule →
  ∃ p' id,
    setUpForm_ ss values p = (inr tt, p') ∧
    props (world p') !! "formId" = Some id ∧ id ∈ forms (world p') ∧
    filter (λ item, item_type item ≠ TEXT) (form_items (form_of p' id))
      = SessionItem <$> setUpForm_items schedule ∧
    sheet (world p') = sheet (world p) ∧ calendars (world p') = calendars (world p) ∧
    calls (world p') = calls (world p) ∧ guests p' = guests p.
Proof.
  intros Hdata Hs.
  assert (Hderived : ∀ items,
    filter (λ item, item_type item ≠ TEXT)
      (filter (λ item, item_type item = TEXT) items ++
       (SessionItem <$> setUpForm_items schedule))
    = SessionItem <$> setUpForm_items schedule).
  { intros items. rewrite filter_app.
    assert (Hnone : filter (λ item, item_type item ≠ TEXT)
                      (filter (λ item, item_type item = TEXT) items) = []).
    { induction items as [|item items IH]; [done|].
      destruct (decide (item_type item = TEXT)) as [Ht|Ht].
      - rewrite filter_cons_True by done. by rewrite filter_cons_False by (by intros Hn).
      - by rewrite filter_cons_False. }
    rewrite Hnone. simpl.
    induction (setUpForm_items schedule) as [|q qs IH]; [done|].
    rewrite fmap_cons, filter_cons_True by (by destruct q). by rewrite IH. }
  destruct (props (world p) !! "formId") as [id|] eqn:Hp.
  - destruct (decide (id ∈ forms (world p))) as [Hin|Hgone].
    + assert (is_Some (form_data p !! id)) as [[title items] Hf].
      { apply elem_of_dom. by apply Hdata. }
      eexists _, id. split; [by eapply setUpForm_known|]. simpl.
      split; [done|]. split; [done|]. split; [|done].
      unfold form_of. simpl. rewrite lookup_insert_eq. simpl. apply Hderived.
    + eexists _, _. split; [apply setUpForm_new; [done|eauto]|]. simpl.
      split; [apply lookup_insert_eq|]. split; [set_solver|]. split; [|done].
      unfold form_of. simpl. rewrite lookup_insert_eq. simpl.
      apply (Hderived [TextItem "Name" true; TextItem "Email" true]).
  - eexists _, _. split; [apply setUpForm_new; [done|by left]|]. simpl.
    split; [apply lookup_insert_eq|]. split; [set_solver|]. split; [|done].
    unfold form_of. simpl. rewrite lookup_insert_eq. simpl.
    apply (Hderived [TextItem "Name" true; TextItem "Email" true]).
Qed.

(** X13: [setUpForm_] groups the rows before it touches anything.  A
    row whose date or start cell holds no date stops it with the error of
    the grouping and the platform unchanged.  When the grouping ends well
    so does [setUpForm_], and then the stored identifier names a form
    whose items other than text items are exactly the items of the
    schedule. *)
Theorem X13_setUpForm_all_or_nothing (ss : string) (values : list (list JsVal))
    (p : Platform) :
  forms (world p) ⊆ dom (form_data p) →
  (∀ e, setUpForm_schedule values = inl e → setUpForm_ ss values p = (inl e, p)) ∧
  (∀ schedule, setUpForm_schedule values = inr schedule →
     ∃ p' id,
       setUpForm_ ss values p = (inr tt, p') ∧
       props (world p') !! "formId" = Some id ∧ id ∈ forms (world p') ∧
       filter (λ item, item_type item ≠ TEXT) (form_items (form_of p' id))
         = SessionItem <$> setUpForm_items schedule).
Proof.
  intros Hdata. split.
  - intros e He. unfold setUpForm_. erewrite sbind_fail; [reflexivity|].
    unfold run, lift. rewrite He. simpl. by rewrite with_world_same.
  - intros schedule Hs.
    destruct (setUpForm_runs ss values p schedule Hdata Hs)
      as (p' & id & Hrun & Hid & Hin & Hitems & _).
    by exists p', id.
Qed.

(** X14: on a well-formed sheet, with the calendar service answering,
    [setUpConference] ends well: sheet, calendars and calls are those the
    calendar pass leaves, and the stored form holds, besides its text
    items, one section header per day and one multiple-choice question per
    day and time of the rows, in first-seen order of the day and, within a
    day, of the time. *)
Theorem X14_setUpConference_sets_up_both (ss : string) (p : Platform) :
  sheet_ok (sheet (world p)) → outage (world p) = None →
  forms (world p) ⊆ dom (form_data p) →
  ∃ p' w' rows id,
    setUpConference ss p = (inr tt, p') ∧
    syncCalendar (world p) = (inr tt, w') ∧
    sheet (world p') = sheet w' ∧ calendars (world p') = calendars w' ∧
    calls (world p') = calls w' ∧
    mapM session_slot (drop 1 (sheet (world p))) = Some rows ∧
    props (world p') !! "formId" = Some id ∧ id ∈ forms (world p') ∧
    filter (λ item, item_type item ≠ TEXT) (form_items (form_of p' id))
      = SessionItem <$> items_by_day rows.
Proof.
  intros Hok Ho Hdata.
  destruct (syncCalendar_ok (world p) (sheet_ok_rows _ Hok) Ho) as (rows' & events' & cs & Hr & Hrun).
  destruct (reconcile_settles _ _ _ _ _ _ _ (sheet_ok_rows _ Hok) Hr) as (_ & _ & _ & Hlen & _).
  destruct (slots_defined _ Hok) as [rows Hrows].
  set (w' := with_sheet (take 1 (sheet (world p)) ++ rows')
               (advance (calendar_choice (world p)).1.1 events'
                  ((calendar_choice (world p)).2 ++ cs)
                  (with_props <["calendarId" := (calendar_choice (world p)).1.1]>
                     (world p)))) in *.
  assert (Hrows' : mapM session_slot (drop 1 (sheet w')) = Some rows).
  { unfold w'. simpl. rewrite drop_header_rows by done.
    rewrite <- Hrows. apply mapM_fmap_eq. by eapply reconcile_slots. }
  assert (Hnamed : Forall (λ r : string * string * JsVal,
                     array_index r.1.1 = None ∧ array_index r.1.2 = None) rows).
  { apply mapM_Some in Hrows. apply Forall_forall. intros [[day time] title] Hin.
    apply list_elem_of_lookup in Hin as [i Hi].
    destruct (Forall2_lookup_r _ _ _ _ _ Hrows Hi) as (s & _ & Hs).
    by apply session_slot_named in Hs. }
  destruct (setUpForm_runs ss (sheet w') (with_world w' p) (schedule_of rows))
    as (p' & id & Hform & Hid & Hin & Hitems & Hsheet & Hcal & Hcalls & _).
  { done. }
  { exact (setUpForm_loop_steps _ [] rows Hrows'). }
  exists p', w', rows, id. split.
  { unfold setUpConference. erewrite sbind_ok by (by apply run_pure).
    erewrite sbind_ok; last first.
    { apply run_ok. unfold syncCalendar in Hrun.
      erewrite bind_ok in Hrun by reflexivity. exact Hrun. }
    erewrite sbind_ok by (by apply run_pure). exact Hform. }
  split; [done|]. split; [done|]. split; [done|]. split; [done|].
  split; [done|]. split; [done|]. split; [done|].
  rewrite Hitems. f_equal. by apply setUpForm_groups_by_day.
Qed.

(** X15: when the calendar pass throws, [setUpConference] throws the
    same and [setUpForm_] does not run: forms, items, triggers, response
    sheets, guests and the stored form identifier are as before, and so is
    the sheet. *)
Theorem X15_setUpConference_stops_at_the_calendar (ss : string) (p : Platform) (e : Exn) :
  (syncCalendar (world p)).1 = inl e →
  ∃ p',
    setUpConference ss p = (inl e, p') ∧
    form_data p' = form_data p ∧ triggers p' = triggers p ∧
    destinations p' = destinations p ∧ guests p' = guests p ∧
    forms (world p') = forms (world p) ∧
    props (world p') !! "formId" = props (world p) !! "formId" ∧
    sheet (world p') = sheet (world p).
Proof.
  intros Hfail. exists (with_world (syncCalendar (world p)).2 p).
  split.
  - unfold setUpConference. erewrite sbind_ok by (by apply run_pure).
    erewrite sbind_fail; [reflexivity|]. unfold run.
    assert (Hsame : setUpCalendar_ (sheet (world p)) (world p) = syncCalendar (world p)).
    { unfold syncCalendar. by erewrite bind_ok by reflexivity. }
    rewrite Hsame. destruct (syncCalendar (world p)) as [r w'].
    simpl in *. by rewrite Hfail.
  - simpl.
    assert (Hrest : keeps_rest (world p) (syncCalendar (world p)).2).
    { unfold syncCalendar. apply discreet_bind; [by intros w0|]. intros values.
      apply discreet_setUpCalendar_. }
    destruct Hrest as (Hforms & _ & Hprops).
    destruct (abort_safe_syncCalendar (world p)) as [_ Hsheet].
    repeat split; try done.
    + by apply Hprops.
    + by apply (Hsheet e).
Qed.


(** *** [resetConference_], then the pass *)

(** X9: after a reset, the next pass starts over.  Its first call makes
    a new calendar, which it stores; the calendars of before are left
    exactly as they were; and every data row is created in the new
    calendar, whatever its identifier cell holds (unless the cell holds
    the very identifier the service gives to an event of this pass, with
    or without '@google.com' after it). *)
Theorem X9_reset_then_pass_starts_over (p : Platform) (answer : Button) :
  answer ≠ CANCEL → sheet_ok (sheet (world p)) → outage (world p) = None →
  ∃ p1 w2 calId,
    resetConference_ answer p = (inr tt, p1) ∧
    syncCalendar (world p1) = (inr tt, w2) ∧
    (calId ∉ dom (calendars (world p))) ∧
    props w2 !! "calendarId" = Some calId ∧
    (∀ c, c ≠ calId → calendars w2 !! c = calendars (world p) !! c) ∧
    (∃ cs, new_calls (world p1) w2
             = CreateCalendar "LUMICKS Academy Calendar" calId :: cs) ∧
    ∀ i s, 1 ≤ i → sheet (world p) !! i = Some s →
      (∀ id k q, js_index s 5 = JStr id →
         EventsInsert k q calId (event_id_of id) ∉ new_calls (world p1) w2) →
      ∃ q id, calls_of_row i (new_calls (world p1) w2)
                = create_calls i q calId id (js_index s 5).
Proof.
  intros Hne Hok Ho.
  assert (Hreset : ∃ p1, resetConference_ answer p = (inr tt, p1) ∧
            sheet (world p1) = sheet (world p) ∧
            calendars (world p1) = calendars (world p) ∧
            outage (world p1) = outage (world p) ∧
            props (world p1) !! "calendarId" = None).
  { unfold resetConference_.
    erewrite sbind_ok by (apply run_ok; reflexivity).
    rewrite decide_False by done.
    erewrite sbind_ok by (apply run_ok; reflexivity).
    erewrite sbind_ok by (apply run_ok; reflexivity).
    erewrite sbind_ok by reflexivity.
    rewrite forEach_deleteTrigger.
    eexists. split; [reflexivity|]. simpl. repeat split.
    rewrite lookup_delete_ne by done. apply lookup_delete_eq. }
  destruct Hreset as (p1 & Hrun1 & Hsheet & Hcals & Hout & Hprop).
  set (w1 := world p1) in *.
  assert (Hok1 : sheet_ok (sheet w1)) by (by rewrite Hsheet).
  assert (Ho1 : outage w1 = None) by (by rewrite Hout).
  destruct (syncCalendar_ok w1 (sheet_ok_rows _ Hok1) Ho1) as (rows' & events' & cs & Hr & Hrun).
  assert (Hch : calendar_choice w1 =
            (fresh (dom (calendars w1)), ∅,
             [CreateCalendar "LUMICKS Academy Calendar" (fresh (dom (calendars w1)))])).
  { unfold calendar_choice. by rewrite Hprop. }
  rewrite Hch in Hr, Hrun. simpl in Hr, Hrun.
  set (calId := fresh (dom (calendars w1))) in *.
  exists p1. eexists _, calId. split; [done|]. split; [exact Hrun|].
  rewrite new_calls_advance. simpl.
  split; [rewrite <- Hcals; apply is_fresh|].
  split; [apply lookup_insert_eq|].
  split; [by intros c Hc; rewrite lookup_insert_ne, Hcals|].
  split; [by eexists|].
  intros i s Hi Hs Hnot. rewrite <- Hsheet in Hs.
  destruct (reconcile_row _ _ _ _ _ _ _ (i - 1) s Hr (sheet_row_below _ _ _ Hi Hs))
    as (q & events_i & Hq & _ & Hcalls & _ & _ & Hfrom).
  replace (1 + (i - 1)) with i in Hcalls by lia.
  assert (Hnone : resolve_event events_i (js_index s 5) = None).
  { destruct (resolve_event events_i (js_index s 5)) as [id|] eqn:Hf; [|done].
    apply resolve_event_Some in Hf as (u & Harg & Hu & _ & Hin). exfalso.
    destruct (Hfrom id) as [Hold|(k & q' & Hins)]; [by apply elem_of_dom|set_solver|].
    apply (Hnot u k q' Harg). rewrite Hu. by apply list_elem_of_further. }
  exists q, (new_event_id events_i).
  change (calls_of_row i (CreateCalendar "LUMICKS Academy Calendar" calId :: cs))
    with (calls_of_row i cs).
  rewrite Hcalls. unfold reconcile_calls. by rewrite Hnone.
Qed.

(** *** [onFormSubmit] *)

Lemma onFormSubmit_session_selected nv acc s :
  is_Some (session_slot s) →
  onFormSubmit_session nv acc s =
    inr (if selected nv s then acc ++ [s] else acc).
Proof.
  unfold onFormSubmit_session, selected, session_slot. intros [r Hr].
  destruct (js_index s 1) as [| | | |d]; try done.
  destruct (js_index s 2) as [| | | |t]; try done.
  destruct (nv !! _) as [chosen|]; [|done].
  by destruct (includes chosen (js_index s 0)).
Qed.

Lemma onFormSubmit_loop_selected nv sessions : ∀ acc,
  Forall (λ s, is_Some (session_slot s)) sessions →
  onFormSubmit_loop nv acc sessions
    = inr (acc ++ filter (λ s, selected nv s = true) sessions).
Proof.
  induction sessions as [|s rest IH]; intros acc Hok; simpl.
  - by rewrite app_nil_r.
  - apply Forall_cons in Hok as [Hs Hrest].
    rewrite onFormSubmit_session_selected by done.
    rewrite IH by done. destruct (selected nv s) eqn:Hsel.
    + rewrite filter_cons_True by done. by rewrite <- app_assoc.
    + by rewrite filter_cons_False by (by rewrite Hsel).
Qed.

Lemma onFormSubmit_loop_bad nv sessions : ∀ acc,
  (∃ s, s ∈ sessions ∧ session_slot s = None) →
  onFormSubmit_loop nv acc sessions = inl TypeError.
Proof.
  induction sessions as [|s rest IH]; intros acc (bad & Hin & Hbad).
  - by apply elem_of_nil in Hin.
  - simpl. destruct (session_slot s) as [r|] eqn:Hs.
    + rewrite onFormSubmit_session_selected by (by rewrite Hs).
      apply IH. exists bad. split; [|done].
      apply elem_of_cons in Hin as [->|Hin]; [congruence|done].
    + unfold onFormSubmit_session, session_slot in *.
      destruct (js_index s 1) as [| | | |d]; try done.
      destruct (js_index s 2) as [| | | |t]; try done.
Qed.

Lemma service_answers p : outage (world p) = None → run calendar_service p = (inr tt, p).
Proof.
  intros Ho. apply run_pure. unfold calendar_service. by rewrite Ho.
Qed.

(** One invitation, when the calendar holds the event. *)
Lemma addGuest_ok p c events s k email :
  outage (world p) = None → calendars (world p) !! c = Some events →
  event_key s = Some k → k ≠ "" → k ∈ dom events →
  addGuestAndSendEmail_ (Some c) (js_index s 5) email p =
    (inr tt, with_guests (λ g, invite c email g s) p).
Proof.
  intros Ho Hc Hk Hne Hin. unfold addGuestAndSendEmail_, invite. rewrite Hk.
  unfold event_key in Hk. destruct (js_index s 5) as [|id| | |]; try done.
  injection Hk as Hk. rewrite Hk.
  erewrite sbind_ok by reflexivity.
  assert (Hfind : find_event events (JStr k) = Some k).
  { apply find_event_present; [done|]. by apply elem_of_dom. }
  erewrite sbind_ok; last first.
  { unfold Calendar_Events_get. erewrite sbind_ok by (by apply service_answers).
    by rewrite Hc, Hfind. }
  unfold Calendar_Events_patch. erewrite sbind_ok by (by apply service_answers).
  by rewrite Hc, Hfind.
Qed.

Lemma forEach_invite c events email response : ∀ p,
  outage (world p) = None → calendars (world p) !! c = Some events →
  Forall (λ s, ∃ k, event_key s = Some k ∧ k ≠ "" ∧ k ∈ dom events) response →
  forEach response (λ session, addGuestAndSendEmail_ (Some c) (js_index session 5) email) p
    = (inr tt, with_guests (λ g, foldl (invite c email) g response) p).
Proof.
  induction response as [|s rest IH]; intros p Ho Hc Hok; simpl.
  - unfold sret. f_equal. by destruct p.
  - apply Forall_cons in Hok as [(k & Hk & Hne & Hin) Hrest].
    erewrite sbind_ok by (by eapply addGuest_ok).
    by rewrite IH.
Qed.

(** The guests of an event after the invitations: those it had, and the
    address once for each invited session that names the event. *)
Lemma foldl_invite c email response : ∀ g,
  (∀ k, default [] (foldl (invite c email) g response !! (c, k)) =
        default [] (g !! (c, k)) ++
        replicate (length (filter (λ s, event_key s = Some k) response)) email) ∧
  (∀ c' k, c' ≠ c → foldl (invite c email) g response !! (c', k) = g !! (c', k)).
Proof.
  induction response as [|s rest IH]; intros g.
  { split; [|done]. intros k. simpl. by rewrite app_nil_r. }
  simpl. destruct (IH (invite c email g s)) as [Hc Hother]. split.
  - intros k. rewrite Hc. unfold invite.
    destruct (event_key s) as [k'|] eqn:Hk'.
    + destruct (decide (k' = k)) as [->|Hne].
      * rewrite lookup_insert_eq, filter_cons_True by done. simpl.
        rewrite <- app_assoc. f_equal.
      * rewrite lookup_insert_ne by congruence.
        by rewrite filter_cons_False by congruence.
    + by rewrite filter_cons_False by congruence.
  - intros c' k Hne. rewrite Hother by done. unfold invite.
    destruct (event_key s) as [k'|]; [|done].
    apply lookup_insert_ne. congruence.
Qed.

(** X16: a response with a name and an address, on a sheet whose rows
    hold dates and whose chosen sessions name events of the stored
    calendar.  [onFormSubmit] ends well; every event of that calendar has
    the guests it had, followed by the address once for each chosen
    session whose identifier cell names the event (the identifier is read
    without its first '@google.com'); the events of other calendars keep
    their guests, and nothing else changes. *)
Theorem X16_onFormSubmit_invites_the_chosen (nv : gmap string (list string))
    (p : Platform) (name email : JsVal) (calId : string) (events : gmap string Event) :
  outage (world p) = None →
  first_value nv "Name" = inr name → first_value nv "Email" = inr email →
  props (world p) !! "calendarId" = Some calId →
  calendars (world p) !! calId = Some events →
  (∀ s, s ∈ drop 1 (sheet (world p)) → is_Some (session_slot s)) →
  (∀ s, s ∈ drop 1 (sheet (world p)) → selected nv s = true →
     ∃ k, event_key s = Some k ∧ k ≠ "" ∧ k ∈ dom events) →
  ∃ p',
    onFormSubmit nv p = (inr tt, p') ∧
    world p' = world p ∧ form_data p' = form_data p ∧ triggers p' = triggers p ∧
    destinations p' = destinations p ∧
    (∀ k, default [] (guests p' !! (calId, k)) =
          default [] (guests p !! (calId, k)) ++
          replicate
            (length (filter (λ s, event_key s = Some k)
                       (filter (λ s, selected nv s = true) (drop 1 (sheet (world p))))))
            email) ∧
    (∀ c k, c ≠ calId → guests p' !! (c, k) = guests p !! (c, k)).
Proof.
  intros Ho Hname Hemail Hp Hc Hslots Hkeys.
  eexists. split.
  { unfold onFormSubmit.
    erewrite sbind_ok by (apply run_pure; unfold lift; by rewrite Hname).
    erewrite sbind_ok by (apply run_pure; unfold lift; by rewrite Hemail).
    erewrite sbind_ok by (by apply run_pure).
    erewrite sbind_ok; last first.
    { apply run_pure. unfold lift.
      rewrite onFormSubmit_loop_selected by (by apply Forall_forall). done. }
    unfold sendInvites_. erewrite sbind_ok by (by apply run_pure).
    rewrite Hp. simpl.
    eapply forEach_invite; [done|exact Hc|].
    apply Forall_forall. intros s Hs. apply list_elem_of_filter in Hs as [Hsel Hin].
    by apply Hkeys. }
  simpl. destruct (foldl_invite calId email
                     (filter (λ s, selected nv s = true) (drop 1 (sheet (world p))))
                     (guests p)) as [Hmine Hother].
  by repeat split.
Qed.

(** X17: a response that chooses no session of the sheet (its time
    slots match no row, or the titles under them match no title) changes
    nothing and makes no call: [onFormSubmit] ends well whether or not the
    calendar service answers and whether or not a calendar is stored. *)
Theorem X17_onFormSubmit_without_choice (nv : gmap string (list string)) (p : Platform)
    (name email : JsVal) :
  first_value nv "Name" = inr name → first_value nv "Email" = inr email →
  (∀ s, s ∈ drop 1 (sheet (world p)) → is_Some (session_slot s) ∧ selected nv s = false) →
  onFormSubmit nv p = (inr tt, p).
Proof.
  intros Hname Hemail Hrows. unfold onFormSubmit.
  erewrite sbind_ok by (apply run_pure; unfold lift; by rewrite Hname).
  erewrite sbind_ok by (apply run_pure; unfold lift; by rewrite Hemail).
  erewrite sbind_ok by (by apply run_pure).
  erewrite sbind_ok; last first.
  { apply run_pure. unfold lift.
    rewrite onFormSubmit_loop_selected; [done|].
    apply Forall_forall. intros s Hs. by apply Hrows. }
  assert (Hnone : filter (λ s, selected nv s = true) (drop 1 (sheet (world p))) = []).
  { induction (drop 1 (sheet (world p))) as [|s rest IH]; [done|].
    rewrite filter_cons_False.
    - apply IH. intros s' Hs'. apply Hrows. by apply list_elem_of_further.
    - destruct (Hrows s (list_elem_of_here _ _)) as [_ ->]. done. }
  rewrite Hnone. simpl. unfold sendInvites_.
  by erewrite sbind_ok by (by apply run_pure).
Qed.

(** X18: a response without the field 'Name' or without the field
    'Email' is refused with a [TypeError]; so is every response when a
    data row of the sheet, chosen or not, holds no date in its date or
    start cell.  In both cases nothing has changed. *)
Theorem X18_onFormSubmit_type_errors (nv : gmap string (list string)) (p : Platform) :
  (nv !! "Name" = None ∨ nv !! "Email" = None →
   onFormSubmit nv p = (inl TypeError, p)) ∧
  ((∃ s, s ∈ drop 1 (sheet (world p)) ∧ session_slot s = None) →
   (onFormSubmit nv p) = (inl TypeError, p)).
Proof.
  assert (Hfail : ∀ A (r : Exn + A) e, r = inl e → run (lift r) p = (inl e, p)).
  { intros A r e ->. unfold run, lift. simpl. by rewrite with_world_same. }
  split.
  - intros Hmissing. unfold onFormSubmit.
    destruct (nv !! "Name") as [names|] eqn:Hname.
    + destruct Hmissing as [?|Hemail]; [done|].
      erewrite sbind_ok by (apply run_pure; unfold lift, first_value; by rewrite Hname).
      erewrite sbind_fail; [reflexivity|]. apply Hfail.
      unfold first_value. by rewrite Hemail.
    + erewrite sbind_fail; [reflexivity|]. apply Hfail.
      unfold first_value. by rewrite Hname.
  - intros Hbad. unfold onFormSubmit.
    assert (Hvalue : ∀ k, first_value nv k = inl TypeError ∨ ∃ v, first_value nv k = inr v).
    { intros k. unfold first_value. destruct (nv !! k); eauto. }
    destruct (Hvalue "Name") as [Hname|[name Hname]].
    { erewrite sbind_fail; [reflexivity|]. by apply Hfail. }
    erewrite sbind_ok by (apply run_pure; unfold lift; by rewrite Hname).
    destruct (Hvalue "Email") as [Hemail|[email Hemail]].
    { erewrite sbind_fail; [reflexivity|]. by apply Hfail. }
    erewrite sbind_ok by (apply run_pure; unfold lift; by rewrite Hemail).
    erewrite sbind_ok by (by apply run_pure).
    erewrite sbind_fail; [reflexivity|]. apply Hfail.
    by apply onFormSubmit_loop_bad.
Qed.


(** X19: the first chosen session decides whether anything is done.
    When its identifier cell holds no string, [onFormSubmit] throws a
    [TypeError]; when the cell holds a string that names no event of the
    stored calendar (the empty cell of a session never synchronised, a
    stale identifier, no stored calendar), it throws the host's exception.
    In both cases nobody has been invited. *)
Theorem X19_invitation_needs_the_event (nv : gmap string (list string)) (p : Platform)
    (name email : JsVal) (s0 : list JsVal) (rest : list (list JsVal)) :
  first_value nv "Name" = inr name → first_value nv "Email" = inr email →
  (∀ s, s ∈ drop 1 (sheet (world p)) → is_Some (session_slot s)) →
  filter (λ s, selected nv s = true) (drop 1 (sheet (world p))) = s0 :: rest →
  (event_key s0 = None → onFormSubmit nv p = (inl TypeError, p)) ∧
  (∀ k, event_key s0 = Some k → outage (world p) = None →
     (∀ c events, props (world p) !! "calendarId" = Some c →
        calendars (world p) !! c = Some events → find_event events (JStr k) = None) →
     onFormSubmit nv p = (inl HostException, p)).
Proof.
  intros Hname Hemail Hslots Hsel.
  assert (Hstart : onFormSubmit nv p =
            sendInvites_ {| user_name := name; user_email := email |} (s0 :: rest) p).
  { unfold onFormSubmit.
    erewrite sbind_ok by (apply run_pure; unfold lift; by rewrite Hname).
    erewrite sbind_ok by (apply run_pure; unfold lift; by rewrite Hemail).
    erewrite sbind_ok by (by apply run_pure).
    erewrite sbind_ok; last first.
    { apply run_pure. unfold lift.
      rewrite onFormSubmit_loop_selected by (by apply Forall_forall). done. }
    by rewrite Hsel. }
  rewrite Hstart. unfold sendInvites_.
  erewrite sbind_ok by (by apply run_pure). cbn [forEach user_email].
  split.
  - intros Hkey. erewrite sbind_fail; [reflexivity|].
    unfold addGuestAndSendEmail_, event_key in *.
    by destruct (js_index s0 5).
  - intros k Hkey Ho Hnone. erewrite sbind_fail; [reflexivity|].
    unfold addGuestAndSendEmail_. unfold event_key in Hkey.
    destruct (js_index s0 5) as [|id| | |]; try done. injection Hkey as Hkey.
    rewrite Hkey. erewrite sbind_ok by reflexivity.
    erewrite sbind_fail; [reflexivity|].
    unfold Calendar_Events_get. erewrite sbind_ok by (by apply service_answers).
    destruct (props (world p) !! "calendarId") as [c|] eqn:Hp; [|done].
    destruct (calendars (world p) !! c) as [events|] eqn:Hc; [|done].
    by rewrite (Hnone c events).
Qed.

(** *** What [onFormSubmit] leaves alone *)

Lemma guests_added_refl p : guests_added p p.
Proof.
  split; [|done]. intros key l Hl. exists []. by rewrite app_nil_r.
Qed.

Lemma guests_added_trans p1 p2 p3 :
  guests_added p1 p2 → guests_added p2 p3 → guests_added p1 p3.
Proof.
  intros (Hg12 & H12) (Hg23 & H23). split.
  - intros key l Hl. destruct (Hg12 key l Hl) as (l' & Hl').
    destruct (Hg23 key _ Hl') as (l'' & Hl''). exists (l' ++ l'').
    by rewrite Hl'', <- app_assoc.
  - destruct H12 as (? & ? & ? & ? & ? & ? & ? & ? & ?).
    destruct H23 as (? & ? & ? & ? & ? & ? & ? & ? & ?).
    repeat split; congruence.
Qed.

Lemma inviting_sbind {A B} (c : Script A) (k : A → Script B) :
  inviting c → (∀ a, inviting (k a)) → inviting (sbind c k).
Proof.
  intros Hc Hk p. unfold sbind. specialize (Hc p).
  destruct (c p) as [[e|a] p']; simpl in *; [done|].
  eapply guests_added_trans; [exact Hc|apply Hk].
Qed.

Lemma inviting_sret {A} (a : A) : inviting (sret a).
Proof. intros p. apply guests_added_refl. Qed.

(** A computation on the world that changes nothing of it but the
    calls the calendar service still answers. *)
Lemma inviting_run {A} (c : Host A) :
  (∀ w, props (c w).2 = props w ∧ calendars (c w).2 = calendars w ∧
        forms (c w).2 = forms w ∧ sheet (c w).2 = sheet w ∧
        ui (c w).2 = ui w ∧ calls (c w).2 = calls w) →
  inviting (run c).
Proof.
  intros Hc p. destruct (Hc (world p)) as (? & ? & ? & ? & ? & ?).
  split; [|by repeat split].
  intros key l Hl. exists []. by rewrite app_nil_r.
Qed.

Lemma inviting_lift {A} (r : Exn + A) : inviting (run (lift r)).
Proof. by apply inviting_run. Qed.

Lemma inviting_service : inviting (run calendar_service).
Proof.
  apply inviting_run. intros w. unfold calendar_service.
  by destruct (outage w) as [[|n]|].
Qed.

Lemma inviting_forEach {A} (l : list A) (f : A → Script unit) :
  (∀ a, inviting (f a)) → inviting (forEach l f).
Proof.
  intros Hf. induction l as [|a l IH]; simpl; [apply inviting_sret|].
  apply inviting_sbind; [apply Hf|]. by intros _.
Qed.

Lemma inviting_addGuest calendarId eventId newGuest :
  inviting (addGuestAndSendEmail_ calendarId eventId newGuest).
Proof.
  intros p. unfold addGuestAndSendEmail_.
  destruct eventId as [|id| | |]; try apply guests_added_refl.
  erewrite sbind_ok by reflexivity.
  set (k := String_replace "@google.com" "" id).
  unfold sbind at 1, Calendar_Events_get, sbind at 1.
  pose proof (inviting_service p) as Hserve.
  destruct (run calendar_service p) as [[e|[]] p1] eqn:Hs1; [done|]. simpl in Hserve.
  destruct calendarId as [c|]; [|done].
  destruct (calendars (world p1) !! c) as [events|] eqn:Hc; [|done].
  destruct (find_event events (JStr k)) as [id'|] eqn:Hfind; [|done].
  unfold Calendar_Events_patch, sbind.
  pose proof (inviting_service p1) as Hserve2.
  destruct (run calendar_service p1) as [[e|[]] p2] eqn:Hs2;
    [by eapply guests_added_trans|]. simpl in Hserve2.
  assert (Hsame : calendars (world p2) = calendars (world p1)).
  { by destruct Hserve2 as (_ & _ & _ & _ & _ & ? & _). }
  rewrite Hsame, Hc, Hfind. simpl.
  eapply guests_added_trans; [exact Hserve|].
  eapply guests_added_trans; [exact Hserve2|].
  assert (Hg : guests p2 = guests p1).
  { apply (f_equal snd) in Hs2. simpl in Hs2. by rewrite <- Hs2. }
  split; [|done]. simpl. intros key l Hl.
  destruct (decide (key = (c, id'))) as [->|Hne].
  - rewrite lookup_insert_eq, <- Hg, Hl. by eexists.
  - rewrite lookup_insert_ne by done. exists []. by rewrite app_nil_r.
Qed.

(** X20: however [onFormSubmit] ends, it has only added guests: every
    event has the guests it had, in their order, maybe followed by new
    ones; sheet, properties, calendars, events, forms, items, triggers and
    response sheets are as before. *)
Theorem X20_onFormSubmit_only_adds_guests (nv : gmap string (list string)) (p : Platform) :
  guests_added p (onFormSubmit nv p).2.
Proof.
  revert p. change (inviting (onFormSubmit nv)). unfold onFormSubmit.
  apply inviting_sbind; [apply inviting_lift|]. intros name.
  apply inviting_sbind; [apply inviting_lift|]. intros email.
  apply inviting_sbind; [by apply inviting_run|]. intros values.
  apply inviting_sbind; [apply inviting_lift|]. intros response.
  unfold sendInvites_.
  apply inviting_sbind; [by apply inviting_run|]. intros calId.
  apply inviting_forEach. intros session. apply inviting_addGuest.
Qed.

End Facts.

(** *** The properties on sample data *)

#[local] Existing Instance Civil_TimeValues.
#[local] Existing Instance Civil_JsDates.


(** X10 on [form_platform], with the sessions of [same_day_values]. *)
Lemma X10_refresh_witness :
  ∃ p',
    setUpForm_ "ss" same_day_values form_platform = (inr tt, p') ∧
    form_data p' =
      <["form" := mkForm "Registration"
                    [TextItem "Name" true; TextItem "Email" true;
                     SessionItem (SectionHeaderItem "Sessions for 23/12/2019");
                     SessionItem (MultipleChoiceItem "10:00:00 23/12/2019"
                                    [JStr "T1"; JStr "T2"]);
                     SessionItem (MultipleChoiceItem "11:00:00 23/12/2019" [JStr "T3"])]]>
        (form_data form_platform) ∧
    world p' = world form_platform ∧ triggers p' = triggers form_platform ∧
    guests p' = guests form_platform ∧
    destinations p' = destinations form_platform ++ [("form", "ss")].
Proof.
  apply (X10_setUpForm_refreshes_questions "ss" same_day_values form_platform
           same_day_schedule "form" "Registration"
           [TextItem "Name" true;
            SessionItem (SectionHeaderItem "Sessions for 22/12/2019");
            SessionItem (MultipleChoiceItem "09:00:00 22/12/2019" [JStr "T0"]);
            TextItem "Email" true]); reflexivity.
Defined.

(** X11 on [new_world], where no form is stored. *)
Lemma X11_created_form_witness :
  ∃ p' id,
    setUpForm_ "ss" same_day_values (platform_of new_world) = (inr tt, p') ∧
    (id ∉ forms new_world) ∧
    forms (world p') = {[id]} ∪ forms new_world ∧
    props (world p') = <["formId" := id]> (props new_world) ∧
    form_data p' =
      <[id := mkForm "LUMICKS Academy Registration"
                (TextItem "Name" true :: TextItem "Email" true ::
                 (SessionItem <$> setUpForm_items same_day_schedule))]> ∅ ∧
    triggers p' = [] ++ [mkTrigger "onFormSubmit" "ss"] ∧
    destinations p' = [] ++ [(id, "ss")] ∧
    guests p' = ∅ ∧
    sheet (world p') = sheet new_world ∧ calendars (world p') = calendars new_world.
Proof.
  apply (X11_setUpForm_creates_form "ss" same_day_values (platform_of new_world)
           same_day_schedule); [reflexivity|by left].
Defined.

(** X12 on [new_world]. *)
Lemma X12_twice_witness :
  ∃ p1 p2 id,
    setUpForm_ "ss" same_day_values (platform_of new_world) = (inr tt, p1) ∧
    setUpForm_ "ss" same_day_values p1 = (inr tt, p2) ∧
    props (world p1) !! "formId" = Some id ∧
    world p2 = world p1 ∧ form_data p2 = form_data p1 ∧
    triggers p2 = triggers p1 ∧ guests p2 = guests p1 ∧
    destinations p2 = destinations p1 ++ [(id, "ss")].
Proof.
  apply (X12_setUpForm_twice "ss" same_day_values (platform_of new_world) same_day_schedule);
    [reflexivity|].
  intros x Hx. by apply elem_of_empty in Hx.
Defined.

(** X13 on [gap_world], whose empty row stops the grouping, and on
    [new_world]. *)
Lemma X13_all_or_nothing_witness :
  setUpForm_ "ss" (sheet gap_world) (platform_of gap_world)
    = (inl TypeError, platform_of gap_world) ∧
  ∃ p' id,
    setUpForm_ "ss" same_day_values (platform_of new_world) = (inr tt, p') ∧
    props (world p') !! "formId" = Some id ∧ id ∈ forms (world p') ∧
    filter (λ item, item_type item ≠ TEXT) (form_items (form_of p' id))
      = SessionItem <$> setUpForm_items same_day_schedule.
Proof.
  split.
  - apply (proj1 (X13_setUpForm_all_or_nothing "ss" (sheet gap_world) (platform_of gap_world)
                    ltac:(intros x Hx; by apply elem_of_empty in Hx))).
    reflexivity.
  - apply (proj2 (X13_setUpForm_all_or_nothing "ss" same_day_values (platform_of new_world)
                    ltac:(intros x Hx; by apply elem_of_empty in Hx))).
    reflexivity.
Defined.

(** X14 on [new_world]. *)
Lemma X14_conference_witness :
  ∃ p' w' rows id,
    setUpConference "ss" (platform_of new_world) = (inr tt, p') ∧
    syncCalendar new_world = (inr tt, w') ∧
    sheet (world p') = sheet w' ∧ calendars (world p') = calendars w' ∧
    calls (world p') = calls w' ∧
    mapM session_slot (drop 1 (sheet new_world)) = Some rows ∧
    props (world p') !! "formId" = Some id ∧ id ∈ forms (world p') ∧
    filter (λ item, item_type item ≠ TEXT) (form_items (form_of p' id))
      = SessionItem <$> items_by_day rows.
Proof.
  apply (X14_setUpConference_sets_up_both "ss" (platform_of new_world));
    [sheet_ok_now|reflexivity|].
  intros x Hx. by apply elem_of_empty in Hx.
Defined.

(** X15 on [failing_world]. *)
Lemma X15_stops_witness :
  ∃ p',
    setUpConference "ss" (platform_of failing_world) = (inl TransientUnavailable, p') ∧
    form_data p' = ∅ ∧ triggers p' = [] ∧ destinations p' = [] ∧ guests p' = ∅ ∧
    forms (world p') = forms failing_world ∧
    props (world p') !! "formId" = props failing_world !! "formId" ∧
    sheet (world p') = sheet failing_world.
Proof.
  apply (X15_setUpConference_stops_at_the_calendar "ss" (platform_of failing_world)
           TransientUnavailable).
  by vm_compute.
Defined.

(** X9 on [known_world]: the first session, whose event the old calendar
    holds, is created again in the new one. *)
Lemma X9_reset_witness :
  ∃ p1 w2 calId,
    resetConference_ OK (platform_of known_world) = (inr tt, p1) ∧
    syncCalendar (world p1) = (inr tt, w2) ∧
    (calId ∉ dom (calendars known_world)) ∧
    props w2 !! "calendarId" = Some calId ∧
    calendars w2 !! "cal" = calendars known_world !! "cal" ∧
    (∃ cs, new_calls (world p1) w2
             = CreateCalendar "LUMICKS Academy Calendar" calId :: cs) ∧
    ∃ q id, calls_of_row 1 (new_calls (world p1) w2)
              = create_calls 1 q calId id (JStr "ev1@google.com").
Proof.
  destruct (X9_reset_then_pass_starts_over (platform_of known_world) OK)
    as (p1 & w2 & calId & Hreset & Hrun & Hfresh & Hprop & Hold & Hfirst & Hrows).
  - done.
  - sheet_ok_now.
  - reflexivity.
  - exists p1, w2, calId. split; [exact Hreset|]. split; [exact Hrun|].
    split; [exact Hfresh|]. split; [exact Hprop|].
    assert (Hp1 : p1 = (resetConference_ OK (platform_of known_world)).2)
      by (by rewrite Hreset).
    assert (Hw2 : w2 = (syncCalendar (world p1)).2) by (by rewrite Hrun).
    assert (Hcal : calId = "0").
    { rewrite Hw2, Hp1 in Hprop. vm_compute in Hprop. by injection Hprop as <-. }
    split; [apply Hold; by rewrite Hcal|]. split; [exact Hfirst|].
    apply (Hrows 1 (sample_session "Keynote" 23 10 "ev1@google.com")); [lia|reflexivity|].
    intros id k q [= <-] Hin. rewrite Hw2, Hp1, Hcal in Hin.
    vm_compute in Hin.
    repeat (apply elem_of_cons in Hin as [Hin|Hin]; [discriminate Hin|]).
    by apply elem_of_nil in Hin.
Defined.

(** X16 on [known_world], for a response that chooses the keynote. *)
Lemma X16_invitation_witness :
  ∃ p',
    onFormSubmit sample_response (platform_of known_world) = (inr tt, p') ∧
    world p' = known_world ∧
    default [] (guests p' !! ("cal", "ev1")) = [JStr "ann@example.com"].
Proof.
  destruct (X16_onFormSubmit_invites_the_chosen sample_response (platform_of known_world)
              (JStr "Ann") (JStr "ann@example.com") "cal"
              {["ev1" := mkEvent (JStr "Old title") (on_day 1) (on_day 1)
                           (JStr "Old room") true]})
    as (p' & Hrun & Hworld & _ & _ & _ & Hguests & _); try reflexivity.
  - intros s Hs. simpl in Hs.
    apply elem_of_cons in Hs as [->|Hs]; [by eexists|].
    apply elem_of_cons in Hs as [->|Hs]; [by eexists|]. by apply elem_of_nil in Hs.
  - intros s Hs Hsel. simpl in Hs.
    apply elem_of_cons in Hs as [->|Hs].
    + exists "ev1". split; [reflexivity|]. split; [done|]. by vm_compute.
    + apply elem_of_cons in Hs as [->|Hs]; [by vm_compute in Hsel|].
      by apply elem_of_nil in Hs.
  - exists p'. split; [exact Hrun|]. split; [exact Hworld|].
    rewrite (Hguests "ev1"). reflexivity.
Defined.

(** X18 for a response without fields, and on [gap_world], whose second
    data row is empty. *)
Lemma X18_type_error_witness :
  onFormSubmit ∅ (platform_of new_world) = (inl TypeError, platform_of new_world) ∧
  onFormSubmit sample_response (platform_of gap_world)
    = (inl TypeError, platform_of gap_world).
Proof.
  split.
  - apply (proj1 (X18_onFormSubmit_type_errors ∅ (platform_of new_world))). by left.
  - apply (proj2 (X18_onFormSubmit_type_errors sample_response (platform_of gap_world))).
    exists (replicate 6 (JStr "")). split; [|reflexivity].
    simpl. apply list_elem_of_further, list_elem_of_here.
Defined.

(** X19 on [new_world], whose sessions have not been synchronised. *)
Lemma X19_unsynced_witness :
  onFormSubmit sample_response (platform_of new_world)
    = (inl HostException, platform_of new_world).
Proof.
  refine (proj2 (X19_invitation_needs_the_event sample_response (platform_of new_world)
                   (JStr "Ann") (JStr "ann@example.com")
                   (sample_session "Keynote" 23 10 "") [] eq_refl eq_refl _ eq_refl)
            "" eq_refl eq_refl _).
  - intros s Hs. simpl in Hs.
    apply elem_of_cons in Hs as [->|Hs]; [by eexists|].
    apply elem_of_cons in Hs as [->|Hs]; [by eexists|]. by apply elem_of_nil in Hs.
  - intros c events Hc. discriminate Hc.
Defined.

(** X17 on [failing_world], for a response that chooses nothing. *)
Lemma X17_no_choice_witness :
  onFormSubmit empty_response (platform_of failing_world)
    = (inr tt, platform_of failing_world).
Proof.
  apply (X17_onFormSubmit_without_choice empty_response (platform_of failing_world)
           (JStr "Ann") (JStr "ann@example.com")); try reflexivity.
  intros s Hs. simpl in Hs.
  apply elem_of_cons in Hs as [->|Hs]; [split; [by eexists|reflexivity]|].
  apply elem_of_cons in Hs as [->|Hs]; [split; [by eexists|reflexivity]|].
  by apply elem_of_nil in Hs.
Defined.

End RegistrationFacts.

(** ** Properties of the timesheet script *)
Module TimesheetFacts.
Import Timesheet.
Local Open Scope list_scope.
Local Open Scope nat_scope.

Section Facts.
Context `{JsNumber}.

(** *** The extent of a sheet *)

Lemma extent_bound (f : nat * nat → nat) (s : gmap (nat * nat) Cell) k v :
  s !! k = Some v → f k ≤ max_list ((λ kv, f kv.1) <$> map_to_list s).
Proof.
  intros Hk. apply max_list_elem_of_le.
  apply list_elem_of_fmap. exists (k, v). split; [done|].
  by apply elem_of_map_to_list.
Qed.

Lemma extent_attained (f : nat * nat → nat) (s : gmap (nat * nat) Cell) :
  s ≠ ∅ → ∃ k v, s !! k = Some v ∧ f k = max_list ((λ kv, f kv.1) <$> map_to_list s).
Proof.
  intros Hne.
  assert (Hl : (λ kv : nat * nat * Cell, f kv.1) <$> map_to_list s ≠ []).
  { intros Hnil. apply fmap_nil_inv in Hnil. by apply map_to_list_empty_iff in Hnil. }
  apply max_list_elem_of in Hl.
  apply list_elem_of_fmap in Hl as ([k v] & Hf & Hin).
  exists k, v. split; [by apply elem_of_map_to_list|done].
Qed.

Lemma extent_insert (f : nat * nat → nat) (s : gmap (nat * nat) Cell) k v :
  f k ≤ max_list ((λ kv, f kv.1) <$> map_to_list s) →
  max_list ((λ kv, f kv.1) <$> map_to_list (<[k := v]> s))
    = max_list ((λ kv, f kv.1) <$> map_to_list s).
Proof.
  intros Hle. apply Nat.le_antisymm.
  - destruct (extent_attained f (<[k := v]> s)) as (k' & v' & Hk' & <-).
    { apply insert_non_empty. }
    destruct (decide (k = k')) as [<-|Hne]; [done|].
    rewrite lookup_insert_ne in Hk' by done. by eapply extent_bound.
  - destruct (decide (s = ∅)) as [->|Hne].
    { rewrite map_to_list_empty. simpl. lia. }
    destruct (extent_attained f s Hne) as (k' & v' & Hk' & <-).
    destruct (decide (k = k')) as [<-|Hneq].
    + eapply extent_bound. apply lookup_insert_eq.
    + eapply extent_bound. rewrite lookup_insert_ne by done. exact Hk'.
Qed.

Lemma getLastRow_insert s i j v :
  i ≤ getLastRow s → getLastRow (<[(i, j) := v]> s) = getLastRow s.
Proof. apply (extent_insert fst s (i, j) v). Qed.

Lemma getLastColumn_insert s i j v :
  j ≤ getLastColumn s → getLastColumn (<[(i, j) := v]> s) = getLastColumn s.
Proof. apply (extent_insert snd s (i, j) v). Qed.

Lemma beyond_last_column s i j : getLastColumn s < j → s !! (i, j) = None.
Proof.
  intros Hlt. destruct (s !! (i, j)) as [v|] eqn:Hv; [|done].
  pose proof (extent_bound snd s (i, j) v Hv) as Hle.
  unfold getLastColumn in Hlt. simpl in Hle. lia.
Qed.

Lemma getValue_insert_eq s i j v : getValue (<[(i, j) := v]> s) i j = v.
Proof. unfold getValue. by rewrite lookup_insert_eq. Qed.

Lemma getValue_insert_ne s i j i' j' v :
  (i, j) ≠ (i', j') → getValue (<[(i, j) := v]> s) i' j' = getValue s i' j'.
Proof. intros Hne. unfold getValue. by rewrite lookup_insert_ne. Qed.

Lemma loose_eq_true c literal : loose_eq c literal = true → c = CStr literal.
Proof.
  destruct c as [s'| | |]; simpl; try done.
  intros Hs. by apply bool_decide_eq_true in Hs as ->.
Qed.

(** *** [sendEmails] *)

(** A turn of the loop leaves the sheet as it is or marks its row as
    notified; the mails it sends are labelled with its row; its row is
    quiet afterwards. *)
Lemma sendEmails_row_effect lastCol st i :
  ∃ sent,
    st_outbox (sendEmails_row lastCol st i) = st_outbox st ++ sent ∧
    Forall (λ m, mail_row m = i) sent ∧
    ((st_sheet (sendEmails_row lastCol st i) = st_sheet st ∧ sent = []) ∨
     st_sheet (sendEmails_row lastCol st i)
       = <[(i, lastCol) := CStr "NOTIFIED"]> (st_sheet st)) ∧
    quiet lastCol (st_sheet (sendEmails_row lastCol st i)) i.
Proof.
  unfold sendEmails_row, quiet.
  destruct (loose_eq (getValue (st_sheet st) i lastCol) "NOTIFIED") eqn:Hnotified.
  { exists []. rewrite app_nil_r. repeat split; auto. }
  destruct (loose_eq (getValue (st_sheet st) i APPROVAL_COLUMN) "APPROVED").
  { eexists [_]. simpl. repeat split; auto.
    left. by rewrite getValue_insert_eq. }
  destruct (loose_eq (getValue (st_sheet st) i APPROVAL_COLUMN) "NOT APPROVED").
  { eexists [_]. simpl. repeat split; auto.
    left. by rewrite getValue_insert_eq. }
  destruct (loose_eq (getValue (st_sheet st) i APPROVAL_COLUMN) "IN PROGRESS") eqn:Hprogress.
  { exists []. rewrite app_nil_r. repeat split; auto. }
  eexists [_]. simpl. repeat split; auto.
  left. by rewrite getValue_insert_eq.
Qed.

Lemma sendEmails_row_quiet lastCol st i :
  quiet lastCol (st_sheet st) i → sendEmails_row lastCol st i = st.
Proof.
  unfold quiet, sendEmails_row. intros [Hn|Hp].
  - by rewrite Hn.
  - destruct (loose_eq (getValue (st_sheet st) i lastCol) "NOTIFIED"); [done|].
    apply loose_eq_true in Hp. by rewrite Hp.
Qed.

(** A turn at row [k] keeps the other rows as they are. *)
Lemma sendEmails_row_other lastCol st k i j :
  i ≠ k →
  st_sheet (sendEmails_row lastCol st k) !! (i, j) = st_sheet st !! (i, j).
Proof.
  intros Hne.
  destruct (sendEmails_row_effect lastCol st k) as (sent & _ & _ & [[-> _]| ->] & _);
    [done|].
  rewrite lookup_insert_ne; [done|]. naive_solver.
Qed.

Lemma quiet_ext lastCol s s' i :
  (∀ j, s' !! (i, j) = s !! (i, j)) → quiet lastCol s i → quiet lastCol s' i.
Proof. unfold quiet, getValue. intros Hrow. by rewrite !Hrow. Qed.

Lemma sendEmails_row_keeps_quiet lastCol st k i :
  quiet lastCol (st_sheet st) i → quiet lastCol (st_sheet (sendEmails_row lastCol st k)) i.
Proof.
  intros Hq. destruct (decide (i = k)) as [->|Hne].
  - by rewrite sendEmails_row_quiet.
  - eapply quiet_ext; [|exact Hq]. intros j. by apply sendEmails_row_other.
Qed.

Lemma sendEmails_loop_quiet lastCol rows : ∀ st,
  (∀ i, i ∈ rows → quiet lastCol (st_sheet st) i) →
  foldl (sendEmails_row lastCol) st rows = st.
Proof.
  induction rows as [|k rows IH]; intros st Hq; [done|]. simpl.
  rewrite sendEmails_row_quiet by (apply Hq, list_elem_of_here).
  apply IH. intros i Hi. by apply Hq, list_elem_of_further.
Qed.

Lemma sendEmails_loop_keeps_quiet lastCol rows i : ∀ st,
  quiet lastCol (st_sheet st) i →
  quiet lastCol (st_sheet (foldl (sendEmails_row lastCol) st rows)) i.
Proof.
  induction rows as [|k rows IH]; intros st Hq; [done|]. simpl.
  by apply IH, sendEmails_row_keeps_quiet.
Qed.

(** The loop of [sendEmails] over [rows]: what it sends, which rows it
    leaves alone, and what it leaves behind. *)
Lemma sendEmails_loop lastCol rows : ∀ st,
  (∀ i, i ∈ rows → i ≤ getLastRow (st_sheet st)) →
  lastCol ≤ getLastColumn (st_sheet st) →
  ∃ sent,
    st_outbox (foldl (sendEmails_row lastCol) st rows) = st_outbox st ++ sent ∧
    (∀ i, loose_eq (getValue (st_sheet st) i lastCol) "NOTIFIED" = true →
       mails_of_row i sent = [] ∧
       ∀ j, st_sheet (foldl (sendEmails_row lastCol) st rows) !! (i, j)
            = st_sheet st !! (i, j)) ∧
    (∀ i, i ∈ rows → quiet lastCol (st_sheet (foldl (sendEmails_row lastCol) st rows)) i) ∧
    getLastRow (st_sheet (foldl (sendEmails_row lastCol) st rows)) = getLastRow (st_sheet st) ∧
    getLastColumn (st_sheet (foldl (sendEmails_row lastCol) st rows))
      = getLastColumn (st_sheet st).
Proof.
  induction rows as [|k rows IH]; intros st Hrows Hcol.
  { exists []. rewrite app_nil_r. repeat split; try done.
    intros i Hi. by apply elem_of_nil in Hi. }
  simpl.
  destruct (sendEmails_row_effect lastCol st k) as (sent1 & Hout1 & Htag1 & Hsheet1 & Hq1).
  set (st1 := sendEmails_row lastCol st k) in *.
  assert (Hdims : getLastRow (st_sheet st1) = getLastRow (st_sheet st) ∧
                  getLastColumn (st_sheet st1) = getLastColumn (st_sheet st)).
  { destruct Hsheet1 as [[-> _]| ->]; [done|]. split.
    - apply getLastRow_insert, Hrows, list_elem_of_here.
    - by apply getLastColumn_insert. }
  destruct Hdims as [Hrow1 Hcol1].
  destruct (IH st1) as (sent2 & Hout2 & Hnot2 & Hq2 & Hrow2 & Hcol2).
  { intros i Hi. rewrite Hrow1. by apply Hrows, list_elem_of_further. }
  { by rewrite Hcol1. }
  exists (sent1 ++ sent2). split; [by rewrite Hout2, Hout1, app_assoc|].
  split; [|split; [|split; congruence]].
  - intros i Hi.
    assert (Hi1 : loose_eq (getValue (st_sheet st1) i lastCol) "NOTIFIED" = true).
    { destruct (sendEmails_row_keeps_quiet lastCol st k i (or_introl Hi)) as [Hn|Hp];
        [done|].
      destruct (decide (i = k)) as [->|Hne].
      - unfold st1. by rewrite sendEmails_row_quiet by (by left).
      - unfold getValue, st1. rewrite sendEmails_row_other by done. exact Hi. }
    destruct (Hnot2 i Hi1) as [Hmails Hcells]. split.
    + unfold mails_of_row in *. rewrite filter_app, Hmails, app_nil_r.
      destruct (decide (i = k)) as [->|Hne].
      * unfold st1 in Hout1. rewrite sendEmails_row_quiet in Hout1 by (by left).
        apply (f_equal length) in Hout1. rewrite length_app in Hout1.
        assert (sent1 = []) as -> by (apply nil_length_inv; lia). done.
      * clear -Htag1 Hne. induction Htag1 as [|m l Hm _ IHl]; [done|].
        rewrite filter_cons_False; [done|]. congruence.
    + intros j. rewrite Hcells.
      destruct (decide (i = k)) as [->|Hne].
      * unfold st1. by rewrite sendEmails_row_quiet by (by left).
      * by apply sendEmails_row_other.
  - intros i Hi. apply elem_of_cons in Hi as [->|Hi]; [|by apply Hq2].
    by apply sendEmails_loop_keeps_quiet.
Qed.

(** C9: for every row whose notified-status cell (the last column)
    reads NOTIFIED, [sendEmails] sends no mail and changes no cell of the
    row; and run a second time on the sheet as the first run left it, it
    sends no further mail and changes nothing. *)
Theorem C9_notified_rows_are_not_mailed_again
    (sheet : gmap (nat * nat) Cell) (outbox : list Mail) :
  ∃ sent,
    (sendEmails sheet outbox).2 = outbox ++ sent ∧
    (∀ i, loose_eq (getValue sheet i (getLastColumn sheet)) "NOTIFIED" = true →
       mails_of_row i sent = [] ∧
       ∀ j, (sendEmails sheet outbox).1 !! (i, j) = sheet !! (i, j)) ∧
    sendEmails (sendEmails sheet outbox).1 (sendEmails sheet outbox).2
      = sendEmails sheet outbox.
Proof.
  unfold sendEmails at 1 2 4 5. cbn [fst snd].
  set (lastRow := getLastRow sheet). set (lastCol := getLastColumn sheet).
  set (st0 := mkSend sheet outbox None None).
  destruct (sendEmails_loop lastCol (seq 2 (lastRow - 1)) st0)
    as (sent & Hout & Hnot & Hq & Hrow & Hcol).
  { intros i Hi. apply elem_of_seq in Hi. simpl. fold lastRow. lia. }
  { done. }
  exists sent. split; [done|]. split; [done|].
  unfold sendEmails. rewrite Hrow, Hcol. simpl. fold lastRow lastCol.
  rewrite sendEmails_loop_quiet; [done|].
  intros i Hi. simpl. by apply Hq.
Qed.

(** *** [calculatePay] *)

Lemma shift_after_inj c : Inj (=) (=) (shift_after c).
Proof.
  intros [i j] [i' j']. unfold shift_after. simpl.
  repeat case_decide; intros [= -> ?]; f_equal; lia.
Qed.

(** Nothing stands right of the last column, so a column inserted after
    it moves nothing. *)
Lemma insertColumnAfter_last s : insertColumnAfter (getLastColumn s) s = s.
Proof.
  apply map_eq. intros [i j]. unfold insertColumnAfter.
  destruct (decide (getLastColumn s < j)) as [Hlt|Hle].
  - rewrite (beyond_last_column s i j Hlt).
    apply lookup_kmap_None; [apply shift_after_inj|]. intros [i' j'] Heq.
    unfold shift_after in Heq. simpl in Heq. case_decide.
    + by apply beyond_last_column.
    + injection Heq as -> ->. lia.
  - replace (i, j) with (shift_after (getLastColumn s) (i, j)) at 1.
    + apply lookup_kmap, shift_after_inj.
    + unfold shift_after. simpl. by rewrite decide_False.
Qed.

Lemma calculatePay_row_insert c s i :
  calculatePay_row c s i = <[(i, c + 1) := pay_of s i]> s.
Proof. done. Qed.

Lemma pay_of_ext s s' i : (∀ j, s' !! (i, j) = s !! (i, j)) → pay_of s' i = pay_of s i.
Proof. intros Hrow. unfold pay_of, getValue. simpl. by rewrite !Hrow. Qed.

Lemma pay_of_number s i : ∃ pay, pay_of s i = CNum pay.
Proof. unfold pay_of, js_mul. by eexists. Qed.

(** On a row of numbers the value is the sum of the hours times the rate. *)
Lemma pay_of_numeric s i :
  (∀ j, HRS_START ≤ j ≤ HRS_END → ∃ n, getValue s i j = CNum n) →
  (∃ r, getValue s i HRLY_PAY_COLUMN = CNum r) →
  pay_of s i = CNum (weekly_pay_spec s i).
Proof.
  unfold HRS_START, HRS_END. intros Hhours [r Hr].
  destruct (Hhours 4) as [n4 H4]; [lia|]. destruct (Hhours 5) as [n5 H5]; [lia|].
  destruct (Hhours 6) as [n6 H6]; [lia|]. destruct (Hhours 7) as [n7 H7]; [lia|].
  destruct (Hhours 8) as [n8 H8]; [lia|].
  unfold pay_of, weekly_pay_spec, HRS_START, HRS_END. simpl.
  by rewrite H4, H5, H6, H7, H8, Hr.
Qed.

(** The loop of [calculatePay] over [rows]: each row gets its value,
    computed from the row as it was, and no other cell changes. *)
Lemma calculatePay_loop c rows : ∀ s,
  NoDup rows →
  (∀ i, i ∈ rows → foldl (calculatePay_row c) s rows !! (i, c + 1) = Some (pay_of s i)) ∧
  (∀ i j, ¬ (j = c + 1 ∧ i ∈ rows) →
     foldl (calculatePay_row c) s rows !! (i, j) = s !! (i, j)).
Proof.
  induction rows as [|k rows IH]; intros s Hnd.
  { split; [|done]. intros i Hi. by apply elem_of_nil in Hi. }
  apply NoDup_cons in Hnd as [Hk Hnd]. simpl.
  destruct (IH (calculatePay_row c s k) Hnd) as [Hpay Hframe].
  rewrite calculatePay_row_insert in *. split.
  - intros i Hi. apply elem_of_cons in Hi as [->|Hi].
    + rewrite Hframe by naive_solver. apply lookup_insert_eq.
    + rewrite (Hpay i Hi). f_equal. apply pay_of_ext. intros j.
      apply lookup_insert_ne. intros [= -> _]. done.
  - intros i j Hij. rewrite Hframe.
    + apply lookup_insert_ne. intros [= <- <-]. apply Hij.
      split; [done|apply list_elem_of_here].
    + intros [-> Hi]. apply Hij. split; [done|by apply list_elem_of_further].
Qed.

(** X27: [calculatePay] writes into the column after the last existing
    one, which was empty: 'WEEKLY PAY' in row 1 and a number in every data
    row from 2 to the last row; for every data row whose cells in the hour
    columns 4 to 8 and in the rate column 9 hold numbers, that number is
    the sum of the hour cells times the rate; no other cell is
    modified. *)
Theorem X27_weekly_pay_of_numeric_rows (sheet : gmap (nat * nat) Cell) :
  let lastCol := getLastColumn sheet in
  let lastRow := getLastRow sheet in
  (∀ i, sheet !! (i, lastCol + 1) = None) ∧
  calculatePay sheet !! (1, lastCol + 1) = Some (CStr "WEEKLY PAY") ∧
  (∀ i, 2 ≤ i ≤ lastRow →
     ∃ pay,
       calculatePay sheet !! (i, lastCol + 1) = Some (CNum pay) ∧
       ((∀ j, HRS_START ≤ j ≤ HRS_END → ∃ n, getValue sheet i j = CNum n) →
        (∃ r, getValue sheet i HRLY_PAY_COLUMN = CNum r) →
        pay = weekly_pay_spec sheet i)) ∧
  (∀ i j, ¬ (j = lastCol + 1 ∧ (i = 1 ∨ 2 ≤ i ≤ lastRow)) →
     calculatePay sheet !! (i, j) = sheet !! (i, j)).
Proof.
  intros lastCol lastRow. unfold calculatePay. fold lastCol lastRow.
  replace (insertColumnAfter lastCol sheet) with sheet
    by (symmetry; apply insertColumnAfter_last).
  change (setValue 1 (lastCol + 1) (CStr "WEEKLY PAY") sheet)
    with (<[(1, lastCol + 1) := CStr "WEEKLY PAY"]> sheet).
  set (titled := <[(1, lastCol + 1) := CStr "WEEKLY PAY"]> sheet).
  destruct (calculatePay_loop lastCol (seq 2 (lastRow - 1)) titled (NoDup_seq _ _))
    as [Hpay Hframe].
  assert (Hrows : ∀ i, i ∈ seq 2 (lastRow - 1) ↔ 2 ≤ i ≤ lastRow).
  { intros i. rewrite elem_of_seq. lia. }
  split; [|split; [|split]].
  - intros i. apply beyond_last_column. unfold lastCol. lia.
  - rewrite Hframe; [apply lookup_insert_eq|]. rewrite Hrows. lia.
  - intros i Hi. rewrite (Hpay i) by (by apply Hrows).
    assert (Hsame : pay_of titled i = pay_of sheet i).
    { apply pay_of_ext. intros j. apply lookup_insert_ne. intros [= <- _]. lia. }
    rewrite Hsame. destruct (pay_of_number sheet i) as [pay Hp].
    exists pay. split; [by rewrite Hp|]. intros Hhours Hrate.
    rewrite (pay_of_numeric sheet i Hhours Hrate) in Hp. by injection Hp.
  - intros i j Hij. rewrite Hframe.
    + apply lookup_insert_ne. intros [= <- <-]. apply Hij. auto.
    + rewrite Hrows. intros [-> Hi]. apply Hij. auto.
Qed.

(** *** [sendEmails], row by row *)

(** A turn of the loop does nothing, or it sends one mail and marks its
    row. *)
Lemma sendEmails_row_cases lastCol st i :
  sendEmails_row lastCol st i = st ∨
  ∃ m, mail_row m = i ∧ mail_to m = getValue (st_sheet st) i 3 ∧
       st_outbox (sendEmails_row lastCol st i) = st_outbox st ++ [m] ∧
       st_sheet (sendEmails_row lastCol st i)
         = <[(i, lastCol) := CStr "NOTIFIED"]> (st_sheet st).
Proof.
  unfold sendEmails_row.
  destruct (loose_eq (getValue (st_sheet st) i lastCol) "NOTIFIED"); [by left|].
  destruct (loose_eq (getValue (st_sheet st) i APPROVAL_COLUMN) "APPROVED").
  { right. eexists. simpl. by repeat split. }
  destruct (loose_eq (getValue (st_sheet st) i APPROVAL_COLUMN) "NOT APPROVED").
  { right. eexists. simpl. by repeat split. }
  destruct (loose_eq (getValue (st_sheet st) i APPROVAL_COLUMN) "IN PROGRESS"); [by left|].
  right. eexists. simpl. by repeat split.
Qed.

Lemma mails_of_row_app i l1 l2 :
  mails_of_row i (l1 ++ l2) = mails_of_row i l1 ++ mails_of_row i l2.
Proof. apply filter_app. Qed.

(** The loop over rows other than [i] sends nothing for row [i] and keeps
    its cells. *)
Lemma sendEmails_loop_skips lastCol rows i : ∀ st,
  i ∉ rows →
  (∀ j, st_sheet (foldl (sendEmails_row lastCol) st rows) !! (i, j) = st_sheet st !! (i, j)) ∧
  ∃ sent, st_outbox (foldl (sendEmails_row lastCol) st rows) = st_outbox st ++ sent ∧
          mails_of_row i sent = [].
Proof.
  induction rows as [|k rows IH]; intros st Hi.
  { split; [done|]. exists []. by rewrite app_nil_r. }
  apply not_elem_of_cons in Hi as [Hne Hi]. simpl.
  destruct (IH (sendEmails_row lastCol st k) Hi) as (Hcells & sent2 & Hout2 & Hnone2).
  split.
  - intros j. rewrite Hcells. by apply sendEmails_row_other.
  - destruct (sendEmails_row_cases lastCol st k) as [Hsame|(m & Hm & _ & Hout & _)].
    + exists sent2. split; [|done]. by rewrite Hout2, Hsame.
    + exists (m :: sent2). split; [by rewrite Hout2, Hout, <- app_assoc|].
      unfold mails_of_row in *. rewrite filter_cons_False; [done|]. congruence.
Qed.

Lemma seq_around i n :
  2 ≤ i ≤ n → seq 2 (n - 1) = seq 2 (i - 2) ++ i :: seq (S i) (n - i).
Proof.
  intros Hi. replace (n - 1) with ((i - 2) + S (n - i)) by lia.
  rewrite seq_app. simpl. by replace (S (S (i - 2))) with i by lia.
Qed.

(** What [sendEmails] does at row [i], from the row as the sheet holds
    it. *)
Lemma sendEmails_at sheet outbox i :
  2 ≤ i ≤ getLastRow sheet →
  ∃ st sent1 sent2,
    (∀ j, st_sheet st !! (i, j) = sheet !! (i, j)) ∧
    st_outbox st = outbox ++ sent1 ∧ mails_of_row i sent1 = [] ∧
    mails_of_row i sent2 = [] ∧
    (sendEmails sheet outbox).2
      = st_outbox (sendEmails_row (getLastColumn sheet) st i) ++ sent2 ∧
    ∀ j, (sendEmails sheet outbox).1 !! (i, j)
         = st_sheet (sendEmails_row (getLastColumn sheet) st i) !! (i, j).
Proof.
  intros Hi. unfold sendEmails. cbn [fst snd].
  rewrite (seq_around i (getLastRow sheet) Hi), foldl_app. cbn [foldl].
  set (lastCol := getLastColumn sheet).
  set (st0 := mkSend sheet outbox None None).
  destruct (sendEmails_loop_skips lastCol (seq 2 (i - 2)) i st0)
    as (Hcells1 & sent1 & Hout1 & Hnone1).
  { rewrite elem_of_seq. lia. }
  set (st1 := foldl (sendEmails_row lastCol) st0 (seq 2 (i - 2))) in *.
  destruct (sendEmails_loop_skips lastCol (seq (S i) (getLastRow sheet - i)) i
              (sendEmails_row lastCol st1 i))
    as (Hcells2 & sent2 & Hout2 & Hnone2).
  { rewrite elem_of_seq. lia. }
  exists st1, sent1, sent2. repeat split; try done.
Qed.


Lemma mails_of_row_all i l : Forall (λ m, mail_row m = i) l → mails_of_row i l = l.
Proof.
  unfold mails_of_row. induction 1 as [|m l Hm _ IH]; [done|].
  by rewrite filter_cons_True, IH.
Qed.

(** X21: a data row not yet marked as notified.  When its approval
    cell reads 'APPROVED', [sendEmails] sends one mail for the row, to the
    address in column 3, with subject 'TimeSheet Approval' and message
    'Your timesheet has been approved', and marks the row 'NOTIFIED' in
    the last column; when it reads 'NOT APPROVED', the same with subject
    'TimeSheet not Approved' and message 'NOT APPROVED'; when it reads 'IN
    PROGRESS', no mail is sent and the row is not marked.  The other cells
    of the row stay as they are. *)
Theorem X21_sendEmails_notifies_decided_rows
    (sheet : gmap (nat * nat) Cell) (outbox : list Mail) (i : nat) :
  2 ≤ i ≤ getLastRow sheet →
  loose_eq (getValue sheet i (getLastColumn sheet)) "NOTIFIED" = false →
  ∃ sent,
    (sendEmails sheet outbox).2 = outbox ++ sent ∧
    (getValue sheet i APPROVAL_COLUMN = CStr "APPROVED" →
     mails_of_row i sent =
       [mkMail i (getValue sheet i 3) (Some "TimeSheet Approval")
          (Some "Your timesheet has been approved")] ∧
     (sendEmails sheet outbox).1 !! (i, getLastColumn sheet) = Some (CStr "NOTIFIED")) ∧
    (getValue sheet i APPROVAL_COLUMN = CStr "NOT APPROVED" →
     mails_of_row i sent =
       [mkMail i (getValue sheet i 3) (Some "TimeSheet not Approved") (Some "NOT APPROVED")] ∧
     (sendEmails sheet outbox).1 !! (i, getLastColumn sheet) = Some (CStr "NOTIFIED")) ∧
    (getValue sheet i APPROVAL_COLUMN = CStr "IN PROGRESS" →
     mails_of_row i sent = [] ∧
     (sendEmails sheet outbox).1 !! (i, getLastColumn sheet)
       = sheet !! (i, getLastColumn sheet)) ∧
    ∀ j, j ≠ getLastColumn sheet → (sendEmails sheet outbox).1 !! (i, j) = sheet !! (i, j).
Proof.
  intros Hi Hnot.
  destruct (sendEmails_at sheet outbox i Hi)
    as (st & sent1 & sent2 & Hcells & Hout1 & Hnone1 & Hnone2 & Hout & Hres).
  set (lastCol := getLastColumn sheet) in *.
  assert (Hread : ∀ c, getValue (st_sheet st) i c = getValue sheet i c).
  { intros c. unfold getValue. by rewrite Hcells. }
  destruct (sendEmails_row_effect lastCol st i) as (sent_i & Hout_i & Htag & Hsheet_i & _).
  exists (sent1 ++ sent_i ++ sent2).
  split; [by rewrite Hout, Hout_i, Hout1, <- !app_assoc|].
  assert (Hmine : mails_of_row i (sent1 ++ sent_i ++ sent2) = sent_i).
  { rewrite !mails_of_row_app, Hnone1, Hnone2, app_nil_r. by apply mails_of_row_all. }
  rewrite Hmine.
  assert (Hturn : ∀ message subject,
    sendEmails_row lastCol st i =
      {| st_sheet := <[(i, lastCol) := CStr "NOTIFIED"]> (st_sheet st);
         st_outbox := st_outbox st ++ [mkMail i (getValue sheet i 3) subject message];
         st_message := message; st_subject := subject |} →
    sent_i = [mkMail i (getValue sheet i 3) subject message] ∧
    (sendEmails sheet outbox).1 !! (i, lastCol) = Some (CStr "NOTIFIED")).
  { intros message subject Hrow. rewrite Hrow in Hout_i. simpl in Hout_i.
    apply app_inv_head in Hout_i as <-. split; [done|].
    rewrite Hres, Hrow. simpl. apply lookup_insert_eq. }
  split; [|split; [|split]].
  - intros Happ. apply Hturn. unfold sendEmails_row.
    by rewrite !Hread, Hnot, Happ.
  - intros Happ. apply Hturn. unfold sendEmails_row.
    by rewrite !Hread, Hnot, Happ.
  - intros Happ.
    assert (Hrow : sendEmails_row lastCol st i = st).
    { unfold sendEmails_row. by rewrite !Hread, Hnot, Happ. }
    rewrite Hrow in Hout_i.
    assert (sent_i = []) as ->.
    { apply (f_equal length) in Hout_i. rewrite length_app in Hout_i.
      apply nil_length_inv. lia. }
    split; [done|]. by rewrite Hres, Hrow, Hcells.
  - intros j Hj. rewrite Hres, <- Hcells.
    destruct Hsheet_i as [[-> _]| ->]; [done|].
    apply lookup_insert_ne. congruence.
Qed.

(** The loop of [sendEmails] over [rows]: one mail at most for a row, to
    the address the row holds, and with each mail a mark. *)
Lemma sendEmails_loop_frame lastCol rows : ∀ st,
  NoDup rows →
  ∃ sent,
    st_outbox (foldl (sendEmails_row lastCol) st rows) = st_outbox st ++ sent ∧
    Forall (λ m, mail_row m ∈ rows ∧
                 mail_to m = getValue (st_sheet st) (mail_row m) 3) sent ∧
    (∀ i, length (mails_of_row i sent) ≤ 1) ∧
    (∀ i, mails_of_row i sent ≠ [] →
       st_sheet (foldl (sendEmails_row lastCol) st rows) !! (i, lastCol)
         = Some (CStr "NOTIFIED")) ∧
    ∀ i j, st_sheet (foldl (sendEmails_row lastCol) st rows) !! (i, j)
             = st_sheet st !! (i, j) ∨
           (j = lastCol ∧ mails_of_row i sent ≠ []).
Proof.
  induction rows as [|k rows IH]; intros st Hnd.
  { exists []. rewrite app_nil_r. repeat split; try done; [simpl; lia|by left]. }
  apply NoDup_cons in Hnd as [Hk Hnd]. simpl.
  destruct (IH (sendEmails_row lastCol st k) Hnd)
    as (sent2 & Hout2 & Hrows2 & Hone2 & Hmark2 & Hframe2).
  assert (Hnone : mails_of_row k sent2 = []).
  { unfold mails_of_row. clear -Hrows2 Hk.
    induction Hrows2 as [|m l [Hm _] _ IHl]; [done|].
    rewrite filter_cons_False; [done|]. by intros <-. }
  destruct (sendEmails_row_cases lastCol st k) as [Hsame|(m & Hm & Hto & Hout & Hsheet)].
  - rewrite Hsame in *. exists sent2. split; [done|]. split; [|done].
    eapply Forall_impl; [exact Hrows2|]. simpl. intros m [Hm Hto].
    split; [by apply list_elem_of_further|done].
  - exists (m :: sent2). split; [by rewrite Hout2, Hout, <- app_assoc|].
    assert (Hmails : ∀ i, mails_of_row i (m :: sent2) =
              if decide (i = k) then [m] else mails_of_row i sent2).
    { intros i. unfold mails_of_row in *. destruct (decide (i = k)) as [->|Hne].
      - by rewrite filter_cons_True, Hnone.
      - rewrite filter_cons_False; [done|]. congruence. }
    split; [|split; [|split]].
    + constructor; [split; [rewrite Hm; apply list_elem_of_here|by rewrite Hto, Hm]|].
      eapply Forall_impl; [exact Hrows2|]. simpl. intros m' [Hm' Hto'].
      split; [by apply list_elem_of_further|]. rewrite Hto', Hsheet.
      apply getValue_insert_ne. intros [= Heq _]. apply Hk. by rewrite Heq.
    + intros i. rewrite Hmails. case_decide; [simpl; lia|apply Hone2].
    + intros i. rewrite Hmails. case_decide as Hik; [subst i|apply Hmark2].
      intros _. destruct (Hframe2 k lastCol) as [Heq|[_ Hbad]]; [|done].
      rewrite Heq, Hsheet. apply lookup_insert_eq.
    + intros i j. rewrite Hmails.
      destruct (decide ((i, j) = (k, lastCol))) as [[= -> ->]|Hne].
      { right. split; [done|]. by rewrite decide_True. }
      destruct (Hframe2 i j) as [Heq|[-> Hsent2]].
      * left. rewrite Heq, Hsheet. apply lookup_insert_ne. congruence.
      * right. split; [done|]. case_decide; done.
Qed.

(** X22: for every sheet, [sendEmails] sends at most one mail for a
    row, only for data rows (2 to the last), each to the address the row
    holds in column 3; a row that was mailed reads 'NOTIFIED' in the last
    column afterwards, and no cell changes but the last-column cell of a
    row that was mailed. *)
Theorem X22_sendEmails_marks_what_it_mails
    (sheet : gmap (nat * nat) Cell) (outbox : list Mail) :
  ∃ sent,
    (sendEmails sheet outbox).2 = outbox ++ sent ∧
    Forall (λ m, 2 ≤ mail_row m ≤ getLastRow sheet ∧
                 mail_to m = getValue sheet (mail_row m) 3) sent ∧
    (∀ i, length (mails_of_row i sent) ≤ 1) ∧
    (∀ i, mails_of_row i sent ≠ [] →
       (sendEmails sheet outbox).1 !! (i, getLastColumn sheet) = Some (CStr "NOTIFIED")) ∧
    ∀ i j, (sendEmails sheet outbox).1 !! (i, j) ≠ sheet !! (i, j) →
           j = getLastColumn sheet ∧ mails_of_row i sent ≠ [].
Proof.
  unfold sendEmails. cbn [fst snd].
  destruct (sendEmails_loop_frame (getLastColumn sheet) (seq 2 (getLastRow sheet - 1))
              (mkSend sheet outbox None None) (NoDup_seq _ _))
    as (sent & Hout & Hrows & Hone & Hmark & Hframe).
  exists sent. split; [done|]. split; [|split; [done|split; [done|]]].
  - eapply Forall_impl; [exact Hrows|]. simpl. intros m [Hm Hto].
    split; [|done]. apply elem_of_seq in Hm. lia.
  - intros i j Hchanged. by destruct (Hframe i j).
Qed.


(** *** The extent of the sheet after [calculatePay] and [addApprovalColumn] *)

Lemma getLastColumn_le (s : gmap (nat * nat) Cell) n :
  (∀ i j v, s !! (i, j) = Some v → j ≤ n) → getLastColumn s ≤ n.
Proof.
  intros Hall. destruct (decide (s = ∅)) as [->|Hne].
  { unfold getLastColumn. rewrite map_to_list_empty. simpl. lia. }
  destruct (extent_attained snd s Hne) as ([i j] & v & Hv & Hmax).
  unfold getLastColumn. rewrite <- Hmax. by eapply Hall.
Qed.

Lemma getLastRow_le (s : gmap (nat * nat) Cell) n :
  (∀ i j v, s !! (i, j) = Some v → i ≤ n) → getLastRow s ≤ n.
Proof.
  intros Hall. destruct (decide (s = ∅)) as [->|Hne].
  { unfold getLastRow. rewrite map_to_list_empty. simpl. lia. }
  destruct (extent_attained fst s Hne) as ([i j] & v & Hv & Hmax).
  unfold getLastRow. rewrite <- Hmax. by eapply Hall.
Qed.

Lemma getLastColumn_ge (s : gmap (nat * nat) Cell) i j v :
  s !! (i, j) = Some v → j ≤ getLastColumn s.
Proof. apply (extent_bound snd s (i, j) v). Qed.

Lemma getLastRow_ge (s : gmap (nat * nat) Cell) i j v :
  s !! (i, j) = Some v → i ≤ getLastRow s.
Proof. apply (extent_bound fst s (i, j) v). Qed.

(** Nothing stands right of column [c]: a column inserted after it moves
    nothing. *)
Lemma insertColumnAfter_beyond c s : getLastColumn s ≤ c → insertColumnAfter c s = s.
Proof.
  intros Hc. apply map_eq. intros [i j]. unfold insertColumnAfter.
  destruct (decide (c < j)) as [Hlt|Hle].
  - rewrite (beyond_last_column s i j) by lia.
    apply lookup_kmap_None; [apply shift_after_inj|]. intros [i' j'] Heq.
    unfold shift_after in Heq. simpl in Heq. case_decide.
    + apply beyond_last_column. lia.
    + injection Heq as -> ->. lia.
  - replace (i, j) with (shift_after c (i, j)) at 1.
    + apply lookup_kmap, shift_after_inj.
    + unfold shift_after. simpl. by rewrite decide_False.
Qed.

(** The cells of the sheet after [calculatePay]. *)
Lemma calculatePay_cells sheet :
  calculatePay sheet !! (1, getLastColumn sheet + 1) = Some (CStr "WEEKLY PAY") ∧
  (∀ i, 2 ≤ i ≤ getLastRow sheet →
     calculatePay sheet !! (i, getLastColumn sheet + 1) = Some (pay_of sheet i)) ∧
  (∀ i j, ¬ (j = getLastColumn sheet + 1 ∧ (i = 1 ∨ 2 ≤ i ≤ getLastRow sheet)) →
     calculatePay sheet !! (i, j) = sheet !! (i, j)).
Proof.
  unfold calculatePay.
  set (lastCol := getLastColumn sheet). set (lastRow := getLastRow sheet).
  replace (insertColumnAfter lastCol sheet) with sheet
    by (symmetry; apply insertColumnAfter_last).
  change (setValue 1 (lastCol + 1) (CStr "WEEKLY PAY") sheet)
    with (<[(1, lastCol + 1) := CStr "WEEKLY PAY"]> sheet).
  set (titled := <[(1, lastCol + 1) := CStr "WEEKLY PAY"]> sheet).
  destruct (calculatePay_loop lastCol (seq 2 (lastRow - 1)) titled (NoDup_seq _ _))
    as [Hpay Hframe].
  assert (Hrows : ∀ i, i ∈ seq 2 (lastRow - 1) ↔ 2 ≤ i ≤ lastRow).
  { intros i. rewrite elem_of_seq. lia. }
  split; [|split].
  - rewrite Hframe; [apply lookup_insert_eq|]. rewrite Hrows. lia.
  - intros i Hi. rewrite (Hpay i) by (by apply Hrows). f_equal.
    apply pay_of_ext. intros j. apply lookup_insert_ne. intros [= <- _]. lia.
  - intros i j Hij. rewrite Hframe.
    + apply lookup_insert_ne. intros [= <- <-]. apply Hij. auto.
    + rewrite Hrows. intros [-> Hi]. apply Hij. auto.
Qed.

Lemma calculatePay_extent sheet :
  getLastColumn (calculatePay sheet) = getLastColumn sheet + 1 ∧
  (1 ≤ getLastRow sheet → getLastRow (calculatePay sheet) = getLastRow sheet).
Proof.
  destruct (calculatePay_cells sheet) as (Htitle & Hpay & Hframe).
  assert (Hcell : ∀ i j v, calculatePay sheet !! (i, j) = Some v →
            (j = getLastColumn sheet + 1 ∧ (i = 1 ∨ 2 ≤ i ≤ getLastRow sheet)) ∨
            sheet !! (i, j) = Some v).
  { intros i j v Hv.
    destruct (decide (j = getLastColumn sheet + 1 ∧ (i = 1 ∨ 2 ≤ i ≤ getLastRow sheet)))
      as [Hin|Hout]; [by left|].
    right. by rewrite <- Hframe. }
  split.
  - apply Nat.le_antisymm.
    + apply getLastColumn_le. intros i j v Hv.
      destruct (Hcell i j v Hv) as [[-> _]|Hold]; [done|].
      apply getLastColumn_ge in Hold. lia.
    + by eapply getLastColumn_ge.
  - intros Hrow. apply Nat.le_antisymm.
    + apply getLastRow_le. intros i j v Hv.
      destruct (Hcell i j v Hv) as [[_ Hi]|Hold]; [lia|].
      by apply getLastRow_ge in Hold.
    + destruct (extent_attained fst sheet) as ([i j] & v & Hv & Hmax).
      { intros ->. unfold getLastRow in Hrow. rewrite map_to_list_empty in Hrow.
        simpl in Hrow. lia. }
      fold (getLastRow sheet) in Hmax. simpl in Hmax. rewrite <- Hmax.
      destruct (decide (j = getLastColumn sheet + 1)) as [->|Hne].
      { apply getLastColumn_ge in Hv. lia. }
      eapply getLastRow_ge. rewrite Hframe; [exact Hv|]. by intros [Hj _].
Qed.

(** The pay of a row is read off its hour columns and its rate column. *)
Lemma pay_of_reads s s' i :
  (∀ j, HRS_START ≤ j ≤ HRLY_PAY_COLUMN → s' !! (i, j) = s !! (i, j)) →
  pay_of s' i = pay_of s i.
Proof.
  unfold HRS_START, HRLY_PAY_COLUMN. intros Hrow.
  unfold pay_of, getValue, HRS_START, HRS_END, HRLY_PAY_COLUMN. simpl.
  by rewrite !Hrow by lia.
Qed.

(** X23: [calculatePay] makes the sheet one column wider and no longer.
    Run a second time, on a sheet that had at least nine columns, it adds
    a further column 'WEEKLY PAY' with the same values as the first, and
    leaves the first as it is. *)
Theorem X23_calculatePay_appends_a_column_each_run (sheet : gmap (nat * nat) Cell) :
  1 ≤ getLastRow sheet → HRLY_PAY_COLUMN ≤ getLastColumn sheet →
  getLastColumn (calculatePay sheet) = getLastColumn sheet + 1 ∧
  getLastRow (calculatePay sheet) = getLastRow sheet ∧
  calculatePay (calculatePay sheet) !! (1, getLastColumn sheet + 2)
    = Some (CStr "WEEKLY PAY") ∧
  (∀ i, 2 ≤ i ≤ getLastRow sheet →
     calculatePay (calculatePay sheet) !! (i, getLastColumn sheet + 2)
       = calculatePay sheet !! (i, getLastColumn sheet + 1)) ∧
  (∀ i j, j ≠ getLastColumn sheet + 2 →
     calculatePay (calculatePay sheet) !! (i, j) = calculatePay sheet !! (i, j)).
Proof.
  intros Hrow Hcol.
  destruct (calculatePay_extent sheet) as [Hc1 Hr1]. specialize (Hr1 Hrow).
  destruct (calculatePay_cells sheet) as (Htitle & Hpay & Hframe).
  destruct (calculatePay_cells (calculatePay sheet)) as (Htitle2 & Hpay2 & Hframe2).
  rewrite Hc1, Hr1 in *.
  replace (getLastColumn sheet + 1 + 1) with (getLastColumn sheet + 2) in * by lia.
  split; [done|]. split; [done|]. split; [done|]. split.
  - intros i Hi. rewrite (Hpay2 i Hi), (Hpay i Hi). f_equal.
    apply pay_of_reads. intros j Hj. apply Hframe.
    unfold HRLY_PAY_COLUMN in *. lia.
  - intros i j Hj. apply Hframe2. by intros [Heq _].
Qed.


(** *** [addApprovalColumn] *)

(** A loop that writes [v] into column [c] of each of the [rows]. *)
Lemma fill_column c (v : Cell) rows : ∀ s,
  (∀ s' i, setValue i c v s' = <[(i, c) := v]> s') →
  ∀ i j, foldl (λ s i, setValue i c v s) s rows !! (i, j)
         = if decide (j = c ∧ i ∈ rows) then Some v else s !! (i, j).
Proof.
  induction rows as [|k rows IH]; intros s Hset i j.
  { simpl. rewrite decide_False; [done|]. intros [_ Hi]. by apply elem_of_nil in Hi. }
  simpl. rewrite IH by done. rewrite Hset.
  destruct (decide (j = c ∧ i ∈ rows)) as [[-> Hi]|Hno].
  - rewrite decide_True; [done|]. split; [done|by apply list_elem_of_further].
  - destruct (decide ((k, c) = (i, j))) as [[= -> ->]|Hne].
    + rewrite lookup_insert_eq, decide_True; [done|]. split; [done|apply list_elem_of_here].
    + rewrite lookup_insert_ne by done. rewrite decide_False; [done|].
      intros [-> Hi]. apply elem_of_cons in Hi as [->|Hi]; [done|]. by apply Hno.
Qed.

(** The cells of the sheet after [addApprovalColumn], on a sheet of ten
    columns at most. *)
Lemma addApprovalColumn_cells sheet i j :
  getLastColumn sheet ≤ 10 →
  addApprovalColumn sheet !! (i, j) =
    if decide (j = 12 ∧ 2 ≤ i ≤ getLastRow sheet) then Some (CStr "NOT NOTIFIED")
    else if decide (j = 12 ∧ i = 1) then Some (CStr "NOTIFIED STATUS")
    else if decide (j = getLastColumn sheet + 1 ∧ 2 ≤ i ≤ getLastRow sheet)
    then Some (CStr "IN PROGRESS")
    else if decide (j = getLastColumn sheet + 1 ∧ i = 1) then Some (CStr "APPROVAL")
    else sheet !! (i, j).
Proof.
  intros Hcol. unfold addApprovalColumn. rewrite insertColumnAfter_last.
  set (lastCol := getLastColumn sheet) in *. set (lastRow := getLastRow sheet).
  change (setValue 1 (lastCol + 1) (CStr "APPROVAL") sheet)
    with (<[(1, lastCol + 1) := CStr "APPROVAL"]> sheet).
  set (s1 := <[(1, lastCol + 1) := CStr "APPROVAL"]> sheet).
  set (s2 := foldl (λ s i, setValue i (lastCol + 1) (CStr "IN PROGRESS") s) s1
               (seq 2 (lastRow - 1))).
  assert (Hrows : ∀ i, i ∈ seq 2 (lastRow - 1) ↔ 2 ≤ i ≤ lastRow).
  { intros k. rewrite elem_of_seq. lia. }
  assert (Hs2 : ∀ i j, s2 !! (i, j) =
            if decide (j = lastCol + 1 ∧ 2 ≤ i ≤ lastRow) then Some (CStr "IN PROGRESS")
            else if decide (j = lastCol + 1 ∧ i = 1) then Some (CStr "APPROVAL")
            else sheet !! (i, j)).
  { intros i' j'. unfold s2. rewrite fill_column by done.
    destruct (decide (j' = lastCol + 1 ∧ i' ∈ seq 2 (lastRow - 1))) as [[-> Hi]|Hno].
    - rewrite decide_True; [done|]. by rewrite <- Hrows.
    - rewrite decide_False by (rewrite <- Hrows; exact Hno).
      unfold s1. destruct (decide (j' = lastCol + 1 ∧ i' = 1)) as [[-> ->]|Hne].
      + apply lookup_insert_eq.
      + apply lookup_insert_ne. intros [= <- <-]. by apply Hne. }
  assert (Hwide : getLastColumn s2 ≤ APPROVAL_COLUMN).
  { apply getLastColumn_le. intros i' j' v. rewrite Hs2. unfold APPROVAL_COLUMN.
    repeat case_decide; try lia. intros Hv. apply getLastColumn_ge in Hv.
    fold lastCol in Hv. lia. }
  rewrite (insertColumnAfter_beyond _ _ Hwide).
  change (APPROVAL_COLUMN + 1) with 12.
  change (setValue 1 12 (CStr "NOTIFIED STATUS") s2)
    with (<[(1, 12) := CStr "NOTIFIED STATUS"]> s2).
  rewrite fill_column by done.
  destruct (decide (j = 12 ∧ i ∈ seq 2 (lastRow - 1))) as [[-> Hi]|Hno].
  { rewrite decide_True; [done|]. by rewrite <- Hrows. }
  rewrite decide_False by (rewrite <- Hrows; exact Hno).
  destruct (decide (j = 12 ∧ i = 1)) as [[-> ->]|Hne].
  { apply lookup_insert_eq. }
  rewrite lookup_insert_ne; [apply Hs2|]. intros [= <- <-]. by apply Hne.
Qed.

Lemma addApprovalColumn_last sheet :
  getLastColumn sheet = 10 →
  (∀ i j, addApprovalColumn sheet !! (i, j) =
     if decide (j = 12 ∧ 2 ≤ i ≤ getLastRow sheet) then Some (CStr "NOT NOTIFIED")
     else if decide (j = 12 ∧ i = 1) then Some (CStr "NOTIFIED STATUS")
     else if decide (j = 11 ∧ 2 ≤ i ≤ getLastRow sheet) then Some (CStr "IN PROGRESS")
     else if decide (j = 11 ∧ i = 1) then Some (CStr "APPROVAL")
     else sheet !! (i, j)) ∧
  getLastColumn (addApprovalColumn sheet) = 12 ∧
  getLastRow (addApprovalColumn sheet) ≤ Nat.max 1 (getLastRow sheet).
Proof.
  intros Hcol.
  assert (Hle : getLastColumn sheet ≤ 10) by lia.
  pose proof (λ i j, addApprovalColumn_cells sheet i j Hle) as Hcells.
  rewrite Hcol in Hcells. simpl in Hcells.
  split; [done|]. split.
  - apply Nat.le_antisymm.
    + apply getLastColumn_le. intros i j v. rewrite Hcells.
      repeat case_decide; try lia. intros Hv. apply getLastColumn_ge in Hv. lia.
    + apply (getLastColumn_ge _ 1 12 (CStr "NOTIFIED STATUS")).
      rewrite Hcells. rewrite decide_False by lia. by rewrite decide_True.
  - apply getLastRow_le. intros i' j' v. rewrite Hcells.
    repeat case_decide; try lia. intros Hv. apply getLastRow_ge in Hv. lia.
Qed.

(** X24: on a sheet of ten columns [addApprovalColumn] puts 'APPROVAL'
    at the head of column 11 and 'NOTIFIED STATUS' at the head of column
    12, 'IN PROGRESS' and 'NOT NOTIFIED' in these columns for every data
    row (and nothing below the last row), leaves columns 1 to 10 as they
    are, and makes column 12 the last: the layout [sendEmails] reads. *)
Theorem X24_addApprovalColumn_on_ten_columns (sheet : gmap (nat * nat) Cell) :
  getLastColumn sheet = 10 →
  addApprovalColumn sheet !! (1, APPROVAL_COLUMN) = Some (CStr "APPROVAL") ∧
  addApprovalColumn sheet !! (1, APPROVAL_COLUMN + 1) = Some (CStr "NOTIFIED STATUS") ∧
  (∀ i, 2 ≤ i ≤ getLastRow sheet →
     addApprovalColumn sheet !! (i, APPROVAL_COLUMN) = Some (CStr "IN PROGRESS") ∧
     addApprovalColumn sheet !! (i, APPROVAL_COLUMN + 1) = Some (CStr "NOT NOTIFIED")) ∧
  (∀ i, getLastRow sheet < i → i ≠ 1 →
     addApprovalColumn sheet !! (i, APPROVAL_COLUMN) = None ∧
     addApprovalColumn sheet !! (i, APPROVAL_COLUMN + 1) = None) ∧
  (∀ i j, j ≤ 10 → addApprovalColumn sheet !! (i, j) = sheet !! (i, j)) ∧
  getLastColumn (addApprovalColumn sheet) = APPROVAL_COLUMN + 1.
Proof.
  intros Hcol. unfold APPROVAL_COLUMN.
  destruct (addApprovalColumn_last sheet Hcol) as (Hcells & Hlast & _).
  split; [|split; [|split; [|split; [|split]]]].
  - rewrite Hcells. repeat (rewrite decide_False by lia). by rewrite decide_True.
  - rewrite Hcells. rewrite decide_False by lia. by rewrite decide_True.
  - intros i Hi. split.
    + rewrite Hcells. repeat (rewrite decide_False by lia). by rewrite decide_True.
    + rewrite Hcells. by rewrite decide_True.
  - intros i Hi Hi1. rewrite !Hcells. repeat (rewrite decide_False by lia).
    split; apply beyond_last_column; lia.
  - intros i j Hj. rewrite Hcells. by repeat (rewrite decide_False by lia).
  - done.
Qed.

(** X25: [sendEmails] run right after [addApprovalColumn] on a sheet
    of ten columns sends no mail and changes no cell: every row is in
    progress. *)
Theorem X25_no_mail_before_a_decision (sheet : gmap (nat * nat) Cell) (outbox : list Mail) :
  getLastColumn sheet = 10 →
  sendEmails (addApprovalColumn sheet) outbox = (addApprovalColumn sheet, outbox).
Proof.
  intros Hcol.
  destruct (addApprovalColumn_last sheet Hcol) as (Hcells & Hlast & Hrows).
  unfold sendEmails. rewrite Hlast.
  rewrite sendEmails_loop_quiet; [done|].
  intros i Hi. simpl. right. apply elem_of_seq in Hi.
  unfold getValue, APPROVAL_COLUMN. rewrite Hcells.
  repeat (rewrite decide_False by lia). by rewrite decide_True by lia.
Qed.

Lemma lookup_insertColumnAfter (c : nat) (s : gmap (nat * nat) Cell) (i j : nat) :
  insertColumnAfter c s !! (i, j) =
    if decide (j ≤ c) then s !! (i, j)
    else if decide (j = c + 1) then None else s !! (i, j - 1).
Proof.
  unfold insertColumnAfter. destruct (decide (j ≤ c)) as [Hle|Hgt].
  - replace (i, j) with (shift_after c (i, j)) at 1.
    + apply lookup_kmap, shift_after_inj.
    + unfold shift_after. simpl. rewrite decide_False; [done|lia].
  - destruct (decide (j = c + 1)) as [->|Hne].
    + apply lookup_kmap_None; [apply shift_after_inj|]. intros [i' j'] Heq.
      unfold shift_after in Heq. simpl in Heq. case_decide.
      * injection Heq as ? ?. lia.
      * injection Heq as ? ?. lia.
    + replace (i, j) with (shift_after c (i, j - 1)) at 1.
      * apply lookup_kmap, shift_after_inj.
      * unfold shift_after. simpl. rewrite decide_True by lia. f_equal. lia.
Qed.

(** X26: on a sheet of eleven columns or more, the approval column does
    not end up in column 11.  [addApprovalColumn] writes it after the last
    column and then inserts the notified column after column 11, which
    moves every column from 12 on one place to the right: 'NOTIFIED STATUS'
    heads column 12, the former columns 12 and up stand one further, and
    'APPROVAL' heads the new last column, two places after the former
    last. *)
Theorem X26_addApprovalColumn_on_wider_sheet (sheet : gmap (nat * nat) Cell) :
  APPROVAL_COLUMN ≤ getLastColumn sheet →
  addApprovalColumn sheet !! (1, getLastColumn sheet + 2) = Some (CStr "APPROVAL") ∧
  addApprovalColumn sheet !! (1, APPROVAL_COLUMN + 1) = Some (CStr "NOTIFIED STATUS") ∧
  (∀ i, 2 ≤ i ≤ getLastRow sheet →
     addApprovalColumn sheet !! (i, getLastColumn sheet + 2) = Some (CStr "IN PROGRESS") ∧
     addApprovalColumn sheet !! (i, APPROVAL_COLUMN + 1) = Some (CStr "NOT NOTIFIED")) ∧
  (∀ i j, j ≤ APPROVAL_COLUMN → addApprovalColumn sheet !! (i, j) = sheet !! (i, j)) ∧
  (∀ i j, APPROVAL_COLUMN < j ≤ getLastColumn sheet →
     addApprovalColumn sheet !! (i, j + 1) = sheet !! (i, j)) ∧
  getLastColumn (addApprovalColumn sheet) = getLastColumn sheet + 2.
Proof.
  unfold APPROVAL_COLUMN. intros Hcol.
  set (lastCol := getLastColumn sheet) in *. set (lastRow := getLastRow sheet).
  assert (Hrows : ∀ i, i ∈ seq 2 (lastRow - 1) ↔ 2 ≤ i ≤ lastRow).
  { intros k. rewrite elem_of_seq. lia. }
  assert (Hcells : ∀ i j, addApprovalColumn sheet !! (i, j) =
            if decide (j = 12 ∧ 2 ≤ i ≤ lastRow) then Some (CStr "NOT NOTIFIED")
            else if decide (j = 12 ∧ i = 1) then Some (CStr "NOTIFIED STATUS")
            else if decide (j = 12) then None
            else if decide (j ≤ 11) then sheet !! (i, j)
            else if decide (j = lastCol + 2 ∧ 2 ≤ i ≤ lastRow)
            then Some (CStr "IN PROGRESS")
            else if decide (j = lastCol + 2 ∧ i = 1) then Some (CStr "APPROVAL")
            else sheet !! (i, j - 1)).
  { intros i j. unfold addApprovalColumn. rewrite insertColumnAfter_last.
    fold lastCol lastRow.
    change (setValue 1 (lastCol + 1) (CStr "APPROVAL") sheet)
      with (<[(1, lastCol + 1) := CStr "APPROVAL"]> sheet).
    set (s1 := <[(1, lastCol + 1) := CStr "APPROVAL"]> sheet).
    set (s2 := foldl (λ s i, setValue i (lastCol + 1) (CStr "IN PROGRESS") s) s1
                 (seq 2 (lastRow - 1))).
    assert (Hs2 : ∀ i j, s2 !! (i, j) =
              if decide (j = lastCol + 1 ∧ 2 ≤ i ≤ lastRow) then Some (CStr "IN PROGRESS")
              else if decide (j = lastCol + 1 ∧ i = 1) then Some (CStr "APPROVAL")
              else sheet !! (i, j)).
    { intros i' j'. unfold s2. rewrite fill_column by done.
      destruct (decide (j' = lastCol + 1 ∧ i' ∈ seq 2 (lastRow - 1))) as [[-> Hi]|Hno].
      - rewrite decide_True; [done|]. by rewrite <- Hrows.
      - rewrite decide_False by (rewrite <- Hrows; exact Hno).
        unfold s1. destruct (decide (j' = lastCol + 1 ∧ i' = 1)) as [[-> ->]|Hne].
        + apply lookup_insert_eq.
        + apply lookup_insert_ne. intros [= <- <-]. by apply Hne. }
    change (APPROVAL_COLUMN + 1) with 12. unfold APPROVAL_COLUMN.
    change (setValue 1 12 (CStr "NOTIFIED STATUS") (insertColumnAfter 11 s2))
      with (<[(1, 12) := CStr "NOTIFIED STATUS"]> (insertColumnAfter 11 s2)).
    rewrite fill_column by done.
    destruct (decide (j = 12 ∧ i ∈ seq 2 (lastRow - 1))) as [[-> Hi]|Hno].
    { rewrite decide_True; [done|]. by rewrite <- Hrows. }
    rewrite decide_False by (rewrite <- Hrows; exact Hno).
    destruct (decide (j = 12 ∧ i = 1)) as [[-> ->]|Hne].
    { apply lookup_insert_eq. }
    rewrite lookup_insert_ne by (intros [= <- <-]; by apply Hne).
    rewrite lookup_insertColumnAfter, !Hs2.
    destruct (decide (j = 12)) as [->|Hj12].
    { by rewrite decide_False by lia. }
    destruct (decide (j ≤ 11)) as [Hj|Hj].
    { by repeat (rewrite decide_False by lia). }
    rewrite decide_False by lia.
    repeat case_decide; try lia; done. }
  split; [|split; [|split; [|split; [|split]]]].
  - rewrite Hcells. repeat (rewrite decide_False by lia). by rewrite decide_True.
  - rewrite Hcells. rewrite decide_False by lia. by rewrite decide_True.
  - intros i Hi. split.
    + rewrite Hcells. repeat (rewrite decide_False by lia). by rewrite decide_True.
    + rewrite Hcells. by rewrite decide_True.
  - intros i j Hj. rewrite Hcells. repeat (rewrite decide_False by lia).
    by rewrite decide_True.
  - intros i j Hj. rewrite Hcells. repeat (rewrite decide_False by lia).
    f_equal. f_equal. lia.
  - apply Nat.le_antisymm.
    + apply getLastColumn_le. intros i j v. rewrite Hcells.
      repeat case_decide; try lia; try done.
      intros Hv. apply getLastColumn_ge in Hv. fold lastCol in Hv. lia.
    + apply (getLastColumn_ge _ 1 (lastCol + 2) (CStr "APPROVAL")).
      rewrite Hcells. repeat (rewrite decide_False by lia). by rewrite decide_True.
Qed.

End Facts.

(** *** The properties on sample data *)

(** C8 fails on [approval_sheet]: row 3, whose approval cell is empty,
    and row 4, whose approval cell reads 'ON HOLD', are not skipped.  Each
    is sent the mail made up for row 2, which is approved, and each is
    marked as notified. *)
Theorem C8_unrecognized_status_is_mailed :
  (getValue approval_sheet 3 APPROVAL_COLUMN = CStr "" ∧
   getValue approval_sheet 4 APPROVAL_COLUMN = CStr "ON HOLD" ∧
   getValue approval_sheet 3 12 = CStr "NOT NOTIFIED" ∧
   getValue approval_sheet 4 12 = CStr "NOT NOTIFIED") ∧
  (sendEmails approval_sheet []).2 =
    [mkMail 2 (CStr "ann@example.com") (Some "TimeSheet Approval")
            (Some "Your timesheet has been approved");
     mkMail 3 (CStr "bob@example.com") (Some "TimeSheet Approval")
            (Some "Your timesheet has been approved");
     mkMail 4 (CStr "cyd@example.com") (Some "TimeSheet Approval")
            (Some "Your timesheet has been approved")] ∧
  getValue (sendEmails approval_sheet []).1 3 12 = CStr "NOTIFIED" ∧
  getValue (sendEmails approval_sheet []).1 4 12 = CStr "NOTIFIED".
Proof. repeat split; by vm_compute. Qed.

(** C9 on [approval_sheet], whose row 6 is marked as notified. *)
Lemma C9_notified_witness :
  ∃ sent,
    (sendEmails approval_sheet []).2 = [] ++ sent ∧
    (mails_of_row 6 sent = [] ∧
     ∀ j, (sendEmails approval_sheet []).1 !! (6, j) = approval_sheet !! (6, j)) ∧
    sendEmails (sendEmails approval_sheet []).1 (sendEmails approval_sheet []).2
      = sendEmails approval_sheet [].
Proof.
  destruct (C9_notified_rows_are_not_mailed_again approval_sheet [])
    as (sent & Hout & Hnot & Hagain).
  exists sent. split; [exact Hout|]. split; [|exact Hagain].
  apply Hnot. by vm_compute.
Defined.

(** C10: [calculatePay] on [pay_sheet], whose row 3 has an empty Tuesday
    cell.  The hours reported in the row are 8, 8, 8 and 8, their sum is
    32 and the pay at the rate of 10 is 320, which is the pay 'based on
    their reported hours and hourly wage' of the function's header
    comment.  [calculatePay] writes 88880: [numHrs + numHrsCell.getValue()]
    appends text once a cell read as the empty string has turned [numHrs]
    into text, and the digits of the hours, read as one number, are
    multiplied by the rate. *)
Lemma C10_blank_hours_cell_is_concatenated :
  getValue pay_sheet 3 5 = CStr "" ∧
  weekly_pay_spec pay_sheet 3 = ZFin 320 ∧
  calculatePay pay_sheet !! (3, getLastColumn pay_sheet + 1) = Some (CNum (ZFin 88880)).
Proof. repeat split; by vm_compute. Qed.

(** X27 on [pay_sheet], whose row 2 holds numbers. *)
Lemma X27_numeric_witness :
  ∃ pay,
    calculatePay pay_sheet !! (2, getLastColumn pay_sheet + 1) = Some (CNum pay) ∧
    pay = weekly_pay_spec pay_sheet 2.
Proof.
  destruct (X27_weekly_pay_of_numeric_rows pay_sheet) as (_ & _ & Hrows & _).
  destruct (Hrows 2) as (pay & Hpay & Hnumeric); [vm_compute; lia|].
  exists pay. split; [exact Hpay|]. apply Hnumeric.
  - intros j Hj. unfold HRS_START, HRS_END in Hj.
    assert (j = 4 ∨ j = 5 ∨ j = 6 ∨ j = 7 ∨ j = 8) as [->|[->|[->|[->| ->]]]] by lia;
      by eexists.
  - by eexists.
Defined.

(** *** The further properties on sample data *)

(** X21 on [approval_sheet], whose row 2 is approved. *)
Lemma X21_decided_row_witness :
  ∃ sent,
    (sendEmails approval_sheet []).2 = [] ++ sent ∧
    mails_of_row 2 sent =
      [mkMail 2 (CStr "ann@example.com") (Some "TimeSheet Approval")
         (Some "Your timesheet has been approved")] ∧
    (sendEmails approval_sheet []).1 !! (2, 12) = Some (CStr "NOTIFIED") ∧
    (sendEmails approval_sheet []).1 !! (2, 3) = approval_sheet !! (2, 3).
Proof.
  destruct (X21_sendEmails_notifies_decided_rows approval_sheet [] 2)
    as (sent & Hout & Happroved & _ & _ & Hrest).
  - vm_compute. lia.
  - reflexivity.
  - exists sent. split; [exact Hout|].
    destruct Happroved as [Hmail Hmark]; [reflexivity|].
    split; [exact Hmail|]. split; [exact Hmark|].
    apply Hrest. by vm_compute.
Defined.

(** X23 on [pay_sheet], which has nine columns. *)
Lemma X23_pay_twice_witness :
  getLastColumn (calculatePay pay_sheet) = 10 ∧
  getLastRow (calculatePay pay_sheet) = 3 ∧
  calculatePay (calculatePay pay_sheet) !! (1, 11) = Some (CStr "WEEKLY PAY") ∧
  calculatePay (calculatePay pay_sheet) !! (2, 11) = calculatePay pay_sheet !! (2, 10) ∧
  calculatePay (calculatePay pay_sheet) !! (2, 10) = calculatePay pay_sheet !! (2, 10).
Proof.
  destruct (X23_calculatePay_appends_a_column_each_run pay_sheet)
    as (Hcol & Hrow & Htitle & Hpay & Hframe).
  - vm_compute. lia.
  - vm_compute. lia.
  - split; [exact Hcol|]. split; [exact Hrow|]. split; [exact Htitle|].
    split; [apply (Hpay 2); vm_compute; lia|].
    apply Hframe. by vm_compute.
Defined.

(** X24 on [pay_sheet] with its pay column, ten columns in all. *)
Lemma X24_ten_columns_witness :
  addApprovalColumn (calculatePay pay_sheet) !! (1, 11) = Some (CStr "APPROVAL") ∧
  addApprovalColumn (calculatePay pay_sheet) !! (1, 12) = Some (CStr "NOTIFIED STATUS") ∧
  addApprovalColumn (calculatePay pay_sheet) !! (2, 11) = Some (CStr "IN PROGRESS") ∧
  addApprovalColumn (calculatePay pay_sheet) !! (2, 12) = Some (CStr "NOT NOTIFIED") ∧
  addApprovalColumn (calculatePay pay_sheet) !! (4, 11) = None ∧
  addApprovalColumn (calculatePay pay_sheet) !! (2, 10) = calculatePay pay_sheet !! (2, 10) ∧
  getLastColumn (addApprovalColumn (calculatePay pay_sheet)) = 12.
Proof.
  destruct (X24_addApprovalColumn_on_ten_columns (calculatePay pay_sheet))
    as (Ht1 & Ht2 & Hrows & Hbelow & Hframe & Hcol).
  - reflexivity.
  - split; [exact Ht1|]. split; [exact Ht2|].
    destruct (Hrows 2) as [Ha Hn]; [vm_compute; lia|].
    split; [exact Ha|]. split; [exact Hn|].
    destruct (Hbelow 4) as [Hnone _]; [vm_compute; lia|lia|].
    split; [exact Hnone|]. split; [apply Hframe; lia|exact Hcol].
Defined.

(** X25 on [pay_sheet] with its pay column. *)
Lemma X25_no_mail_witness :
  sendEmails (addApprovalColumn (calculatePay pay_sheet)) []
    = (addApprovalColumn (calculatePay pay_sheet), []).
Proof. apply (X25_no_mail_before_a_decision (calculatePay pay_sheet) []). reflexivity. Defined.

(** X26 on [approval_sheet], which has twelve columns: its approval
    column stays in column 11 and its notified column moves to column 13;
    the new notified column is column 12, the new approval column 14. *)
Lemma X26_wider_sheet_witness :
  addApprovalColumn approval_sheet !! (1, 14) = Some (CStr "APPROVAL") ∧
  addApprovalColumn approval_sheet !! (1, 12) = Some (CStr "NOTIFIED STATUS") ∧
  addApprovalColumn approval_sheet !! (1, 11) = Some (CStr "APPROVAL") ∧
  addApprovalColumn approval_sheet !! (1, 13) = Some (CStr "NOTIFIED STATUS") ∧
  getLastColumn (addApprovalColumn approval_sheet) = 14.
Proof.
  destruct (X26_addApprovalColumn_on_wider_sheet approval_sheet)
    as (Ht1 & Ht2 & _ & Hleft & Hright & Hcol).
  - vm_compute. lia.
  - split; [exact Ht1|]. split; [exact Ht2|].
    split; [rewrite Hleft; [reflexivity|vm_compute; lia]|].
    split; [|exact Hcol].
    etrans; [apply (Hright 1 12); vm_compute; lia|reflexivity].
Defined.

End TimesheetFacts.
